(** * Runtime type validation: [ensureType], [checkType] and friends

    A shallow embedding of the validation functions of the library
    (ensureNonEmpty, ensureType, ensureItemType, ensureArguments,
    checkType, getType, describe) and of the Enum base class
    (Enum.values, Enum.valueOf, Enum.prototype.toString), together with
    the part of the JavaScript platform these functions call.

    JavaScript objects are mutable and have identity, and the struct and
    item checks rewrite the objects they are given, so values live in an
    explicit store: an object value is a reference into a heap.

    Further classes of the library follow the validation functions,
    each in a module of its own: ConfigurableResponses, the health
    statuses with their aggregator and endpoint, Color, Duration with
    Clock and StopWatch, the Store, and the levels of the loggers. *)

From Stdlib Require Import ZArith Ascii String DecimalString List Bool Lia.
From stdpp Require Import base list strings.

Set Default Proof Using "Type".
#[local] Set Warnings "-register-all".

(** ** The platform: values, objects, the heap *)

Module Js.

Abbreviation loc := nat (only parsing).

(** A number is NaN or identified by its canonical rendering (the text
    Number::toString gives: 42, -1.5, Infinity, 1e+21).  The validation
    code never computes with the numbers it checks; it classifies them
    and prints them. *)
Inductive number :=
| NaN
| Num (repr : string).

Inductive value :=
| VUndefined
| VNull
| VBoolean (b : bool)
| VNumber (n : number)
| VBigInt (z : Z)
| VString (s : string)
| VSymbol (description : string)
| VRef (l : loc).

(** Own enumerable properties, in enumeration order. *)
Abbreviation props := (list (string * value)) (only parsing).

(** Heap objects.  [Plain] is an object literal, [ArrayObj] an array,
    [FunctionObj] a function with its name and source text,
    [EnumConstant] an instance of a direct subclass of Enum (whose
    toString, valueOf and toJSON read the name and ordinal properties),
    [Instance] an instance of any other class: [text] is what its
    toString method returns and [json] what JSON.stringify prints for it
    when the class has a toJSON method ([None]: it has none and the own
    properties are serialised).  Objects hold data properties only (no
    accessors, no methods of their own, none frozen), arrays have no
    holes, and classes are told apart by their names. *)
Inductive object :=
| Plain (ps : props)
| ArrayObj (items : list value)
| FunctionObj (name : string) (source : string)
| EnumConstant (cls : string) (ps : props)
| Instance (cls : string) (text : string) (json : option string) (ps : props).

Abbreviation heap := (list object) (only parsing).

Inductive exn :=
| ValidationError (message : string)
| TypeError
| Error_ (message : string).

(** The completion of a call: it returns or it throws. *)
Inductive completion (A : Type) :=
| Return (a : A)
| Throw (e : exn).
Arguments Return {A} a.
Arguments Throw {A} e.

#[global] Instance completion_bind : MBind completion := fun A B k c =>
  match c with
  | Return a => k a
  | Throw e => Throw e
  end.
#[global] Instance completion_ret : MRet completion := fun A a => Return a.

(** Evaluates the elements left to right; the first throw wins. *)
Fixpoint sequence {A} (cs : list (completion A)) : completion (list A) :=
  match cs with
  | [] => Return []
  | c :: cs' => x ← c; xs ← sequence cs'; Return (x :: xs)
  end.

(** *** Properties *)

Fixpoint lookup_prop (key : string) (ps : props) : option value :=
  match ps with
  | [] => None
  | (k, v) :: ps' => if String.eqb k key then Some v else lookup_prop key ps'
  end.

(** Assignment keeps the position of an existing key and appends a new one. *)
Fixpoint assign_prop (key : string) (v : value) (ps : props) : props :=
  match ps with
  | [] => [(key, v)]
  | (k, w) :: ps' =>
      if String.eqb k key then (key, v) :: ps' else (k, w) :: assign_prop key v ps'
  end.

Definition own_props (o : object) : props :=
  match o with
  | Plain ps | EnumConstant _ ps | Instance _ _ _ ps => ps
  | ArrayObj _ | FunctionObj _ _ => []
  end.

Definition with_props (o : object) (ps : props) : object :=
  match o with
  | Plain _ => Plain ps
  | EnumConstant c _ => EnumConstant c ps
  | Instance c t j _ => Instance c t j ps
  | ArrayObj _ | FunctionObj _ _ => o
  end.

(** [value[key]] for a value classified as an object: an own property
    or undefined.  (Members inherited from a prototype, such as
    constructor or toString, are not part of the model.) *)
Definition Get (h : heap) (v : value) (key : string) : value :=
  match v with
  | VRef l =>
      match h !! l with
      | Some o => default VUndefined (lookup_prop key (own_props o))
      | None => VUndefined
      end
  | _ => VUndefined
  end.

(** [value[key] = w] for a value classified as an object. *)
Definition Put (h : heap) (v : value) (key : string) (w : value) : heap :=
  match v with
  | VRef l =>
      match h !! l with
      | Some o => <[l := with_props o (assign_prop key w (own_props o))]> h
      | None => h
      end
  | _ => h
  end.

(** [v.name] for an arbitrary value: reading a property of undefined or
    null is a TypeError, a function has its name, an array and the
    other primitives have no such property. *)
Definition Get_name (h : heap) (v : value) : completion value :=
  match v with
  | VUndefined | VNull => Throw TypeError
  | VRef l =>
      match h !! l with
      | Some (FunctionObj name _) => Return (VString name)
      | Some o => Return (default VUndefined (lookup_prop "name" (own_props o)))
      | None => Return VUndefined
      end
  | _ => Return VUndefined
  end.

(** [array[index] = w]; the checks only write below the length. *)
Definition Put_index (h : heap) (l : loc) (index : nat) (w : value) : heap :=
  match h !! l with
  | Some (ArrayObj items) => <[l := ArrayObj (<[index := w]> items)]> h
  | _ => h
  end.

Definition alloc (h : heap) (o : object) : heap * value :=
  (h ++ [o], VRef (length h)).

(** *** Strings *)

Definition is_lower (c : ascii) : bool :=
  let n := nat_of_ascii c in (97 <=? n) && (n <=? 122).
Definition is_upper (c : ascii) : bool :=
  let n := nat_of_ascii c in (65 <=? n) && (n <=? 90).

Definition upper_char (c : ascii) : ascii :=
  if is_lower c then ascii_of_nat (nat_of_ascii c - 32) else c.
Definition lower_char (c : ascii) : ascii :=
  if is_upper c then ascii_of_nat (nat_of_ascii c + 32) else c.

(** String.prototype.toUpperCase and toLowerCase, on ASCII text. *)
Fixpoint toUpperCase (s : string) : string :=
  match s with
  | EmptyString => EmptyString
  | String c s' => String (upper_char c) (toUpperCase s')
  end.
Fixpoint toLowerCase (s : string) : string :=
  match s with
  | EmptyString => EmptyString
  | String c s' => String (lower_char c) (toLowerCase s')
  end.

Definition startsWith (s prefix : string) : bool := String.prefix prefix s.

Definition join (sep : string) (parts : list string) : string :=
  String.concat sep parts.

Definition Nat_toString (n : nat) : string :=
  NilZero.string_of_uint (Nat.to_uint n).

Definition Boolean_toString (b : bool) : string :=
  if b then "true" else "false".
Definition Number_toString (n : number) : string :=
  match n with
  | NaN => "NaN"
  | Num repr => repr
  end.
Definition BigInt_toString (z : Z) : string :=
  NilZero.string_of_int (Z.to_int z).

(** ToString of a primitive; a symbol cannot be converted implicitly. *)
Definition prim_toString (v : value) : completion string :=
  match v with
  | VUndefined => Return "undefined"
  | VNull => Return "null"
  | VBoolean b => Return (Boolean_toString b)
  | VNumber n => Return (Number_toString n)
  | VBigInt z => Return (BigInt_toString z)
  | VString s => Return s
  | VSymbol _ | VRef _ => Throw TypeError
  end.

Definition is_object (v : value) : bool :=
  match v with
  | VRef _ => true
  | _ => false
  end.

(** ToPrimitive with hint string on an Enum constant: toString returns
    [this.name]; when that is an object, valueOf returns [this.ordinal];
    when that is an object too, the conversion is a TypeError. *)
Definition EnumConstant_toPrimitive (ps : props) : completion value :=
  let name := default VUndefined (lookup_prop "name" ps) in
  let ordinal := default VUndefined (lookup_prop "ordinal" ps) in
  if is_object name then
    if is_object ordinal then Throw TypeError else Return ordinal
  else Return name.

(** ToString of the object at [l].  An array joins the strings of its
    items with a comma, undefined and null items giving the empty
    string; an array met again while it is being joined gives the empty
    string.  [fuel] bounds the nesting of arrays. *)
Fixpoint object_toString (fuel : nat) (h : heap) (seen : list loc) (l : loc)
  : completion string :=
  match h !! l with
  | None => Throw TypeError
  | Some (Plain _) => Return "[object Object]"
  | Some (FunctionObj _ source) => Return source
  | Some (Instance _ text _ _) => Return text
  | Some (EnumConstant _ ps) => p ← EnumConstant_toPrimitive ps; prim_toString p
  | Some (ArrayObj items) =>
      if bool_decide (l ∈ seen) then Return ""
      else
        match fuel with
        | 0 => Throw TypeError
        | S fuel' =>
            parts ← sequence
              (map (fun item =>
                      match item with
                      | VUndefined | VNull => Return ""
                      | VRef l' => object_toString fuel' h (l :: seen) l'
                      | _ => prim_toString item
                      end) items);
            Return (join "," parts)
        end
  end.

(** [String(value)]. *)
Definition String_ (h : heap) (v : value) : completion string :=
  match v with
  | VSymbol description => Return ("Symbol(" +:+ description +:+ ")")
  | VRef l => object_toString (length h) h [] l
  | _ => prim_toString v
  end.

(** *** JSON.stringify *)

Definition dquote : ascii := "034"%char.
Definition backslash : ascii := "092"%char.

Definition hex_digit (n : nat) : ascii :=
  if n <? 10 then ascii_of_nat (48 + n) else ascii_of_nat (87 + n).

(** The escapes of QuoteJSONString, on ASCII text. *)
Definition JSON_escape (c : ascii) : string :=
  let n := nat_of_ascii c in
  if n =? 34 then String backslash (String dquote EmptyString)
  else if n =? 92 then String backslash (String backslash EmptyString)
  else if n =? 8 then String backslash "b"
  else if n =? 9 then String backslash "t"
  else if n =? 10 then String backslash "n"
  else if n =? 12 then String backslash "f"
  else if n =? 13 then String backslash "r"
  else if n <? 32 then
    String backslash ("u00" +:+ String (hex_digit (n / 16)) (String (hex_digit (n mod 16)) EmptyString))
  else String c EmptyString.

Fixpoint JSON_escape_all (s : string) : string :=
  match s with
  | EmptyString => EmptyString
  | String c s' => JSON_escape c +:+ JSON_escape_all s'
  end.

Definition JSON_quote (s : string) : string :=
  String dquote (JSON_escape_all s +:+ String dquote EmptyString).

Definition is_finite (n : number) : bool :=
  match n with
  | NaN => false
  | Num repr =>
      negb (String.eqb repr "Infinity" || String.eqb repr "-Infinity")
  end.

(** SerializeJSONProperty.  [None] stands for undefined (the value is
    left out of an object and printed as null in an array).  A bigint
    and a cyclic structure are TypeErrors.  [toJSON] says whether the
    toJSON method of an object is still to be called: the value an Enum
    constant's toJSON returns is serialised as it is.  [stack] holds
    the objects being serialised; [fuel] bounds the calls of toJSON and
    the nesting, twice the size of the heap and one being enough. *)
Fixpoint JSON_serialize (fuel : nat) (h : heap) (stack : list loc)
    (toJSON : bool) (v : value) : completion (option string) :=
  match v with
  | VUndefined | VSymbol _ => Return None
  | VNull => Return (Some "null")
  | VBoolean b => Return (Some (Boolean_toString b))
  | VNumber n => Return (Some (if is_finite n then Number_toString n else "null"))
  | VBigInt _ => Throw TypeError
  | VString s => Return (Some (JSON_quote s))
  | VRef l =>
      match h !! l with
      | None => Throw TypeError
      | Some (FunctionObj _ _) => Return None
      | Some o =>
          match toJSON, o with
          | true, EnumConstant _ ps =>
              match fuel with
              | 0 => Throw TypeError
              | S fuel' =>
                  JSON_serialize fuel' h stack false
                    (default VUndefined (lookup_prop "name" ps))
              end
          | true, Instance _ _ (Some j) _ => Return (Some j)
          | _, _ =>
              if bool_decide (l ∈ stack) then Throw TypeError
              else
                match fuel with
                | 0 => Throw TypeError
                | S fuel' =>
                    match o with
                    | ArrayObj items =>
                        parts ← sequence
                          (map (fun item =>
                                  r ← JSON_serialize fuel' h (l :: stack) true item;
                                  Return (default "null" r)) items);
                        Return (Some ("[" +:+ join "," parts +:+ "]"))
                    | _ =>
                        members ← sequence
                          (map (fun kv : string * value =>
                                  r ← JSON_serialize fuel' h (l :: stack) true kv.2;
                                  Return (option_map
                                            (fun s => JSON_quote kv.1 +:+ ":" +:+ s) r))
                             (own_props o));
                        Return (Some ("{" +:+ join "," (omap id members) +:+ "}"))
                    end
                end
          end
      end
  end.

(** The text a template literal prints for [JSON.stringify(value)]. *)
Definition JSON_stringify (h : heap) (v : value) : completion string :=
  r ← JSON_serialize (2 * length h + 1) h [] true v;
  Return (default "undefined" r).

End Js.

Import Js.

(** ** The Enum base class *)

Module Lang.

(** A direct subclass of Enum: its name and its own enumerable static
    properties (the constants, in declaration order). *)
Record enum_class := {
  enum_name : string;
  enum_statics : props;
}.

(** [static values() { return Object.values(this); }] *)
Definition Enum_values (E : enum_class) : list value :=
  map snd (enum_statics E).

(** [v.name === name] for the string [name]. *)
Definition name_is (n : value) (name : string) : bool :=
  match n with
  | VString s => String.eqb s name
  | _ => false
  end.

(** [values.find((v) => v.name === name)]; undefined when none matches. *)
Fixpoint find_by_name (h : heap) (name : string) (values : list value)
  : completion value :=
  match values with
  | [] => Return VUndefined
  | v :: values' =>
      n ← Get_name h v;
      if name_is n name then Return v else find_by_name h name values'
  end.

Definition is_nullish (v : value) : bool :=
  match v with
  | VUndefined | VNull => true
  | _ => false
  end.

(** [static valueOf(name)] *)
Definition Enum_valueOf (E : enum_class) (h : heap) (name : string)
  : completion value :=
  value ← find_by_name h name (Enum_values E);
  if is_nullish value then
    Throw (Error_ ("No enum constant " +:+ enum_name E +:+ "." +:+ name +:+ " exists."))
  else Return value.

End Lang.

Import Lang.

(** ** The validation functions *)

Module Validation.

(** What [new C(value)] puts into the instance it returns. *)
Record instance_data := {
  inst_text : string;
  inst_json : option string;
  inst_props : props;
}.

(** A class used as a descriptor: its name and what its constructor does
    with the raw value: it fills the instance under construction, which
    [new] returns, or it throws; it assigns to no other object. *)
Record constructor := {
  ctor_name : string;
  construct : heap -> value -> completion instance_data;
}.

(** Type descriptors, after the grammar the source gives:
    [type: undefined | null | Boolean | Number | BigInt | String | Symbol
    | Function | Object | Array | Enum | constructor | Record<string, type>]
    and [expectedType: type | [ type ]].  [TNaN] is the value NaN,
    which getType returns and describe prints.  The fields of a struct
    are listed in the order for-in enumerates them. *)
Inductive type :=
| TUndefined
| TNull
| TBoolean
| TNumber
| TBigInt
| TString
| TSymbol
| TFunction
| TObject
| TArray
| TNaN
| TEnum (E : enum_class)
| TConstructor (C : constructor)
| TUnion (members : list type)
| TStruct (fields : list (string * type)).

(** The descriptors of the first branch of checkType. *)
Definition is_builtin (t : type) : bool :=
  match t with
  | TUndefined | TNull | TBoolean | TNumber | TBigInt | TString | TSymbol
  | TFunction | TObject | TArray => true
  | _ => false
  end.

(** [valueType === expectedType] for a built-in [expectedType]; NaN is
    equal to nothing. *)
Definition same_type (valueType expectedType : type) : bool :=
  match valueType, expectedType with
  | TUndefined, TUndefined | TNull, TNull | TBoolean, TBoolean
  | TNumber, TNumber | TBigInt, TBigInt | TString, TString
  | TSymbol, TSymbol | TFunction, TFunction | TObject, TObject
  | TArray, TArray => true
  | _, _ => false
  end.

(** [getType(value)]: null, then Array.isArray, then Number.isNaN, then
    typeof; every value has one of these classes, so the default case
    of the switch is never reached. *)
Definition getType (h : heap) (value : value) : type :=
  match value with
  | VNull => TNull
  | VUndefined => TUndefined
  | VBoolean _ => TBoolean
  | VNumber NaN => TNaN
  | VNumber (Num _) => TNumber
  | VBigInt _ => TBigInt
  | VString _ => TString
  | VSymbol _ => TSymbol
  | VRef l =>
      match h !! l with
      | Some (ArrayObj _) => TArray
      | Some (FunctionObj _ _) => TFunction
      | _ => TObject
      end
  end.

(** ['aeiou'.includes(c)] for a one-character string. *)
Definition is_vowel (c : ascii) : bool :=
  match c with
  | "a" | "e" | "i" | "o" | "u" => true
  | _ => false
  end%char.

(** [name[0].toLowerCase()] throws a TypeError on the empty name. *)
Definition with_article (name : string) : completion string :=
  match name with
  | EmptyString => Throw TypeError
  | String c _ =>
      Return (if is_vowel (lower_char c) then "an " +:+ name else "a " +:+ name)
  end.

Definition named (name : string) (articles : bool) : completion string :=
  if articles then with_article name else Return name.

(** [describe(type, { articles })].  For a struct descriptor [type.name]
    is its [name] field, a descriptor or undefined and never a string:
    [name[0].toLowerCase()] raises a TypeError (a struct whose [name]
    field leads to a callable [toLowerCase] member is outside the model,
    and so is the call without articles, which checkType never makes on
    a struct). *)
Fixpoint describe (type : type) (articles : bool) : completion string :=
  match type with
  | TUnion members =>
      types ← sequence (map (fun t => describe t articles) members);
      if length types <=? 2 then Return (join " or " types)
      else
        let allButLast := removelast types in
        let last := List.last types EmptyString in
        Return (join ", " allButLast +:+ ", or " +:+ last)
  | TNaN => Return "NaN"
  | TNull => Return "null"
  | TUndefined => Return "undefined"
  | TArray => named "array" articles
  | TBoolean => named "boolean" articles
  | TNumber => named "number" articles
  | TBigInt => named "bigint" articles
  | TString => named "string" articles
  | TSymbol => named "symbol" articles
  | TFunction => named "function" articles
  | TObject => named "object" articles
  | TEnum E => named (enum_name E) articles
  | TConstructor C => named (ctor_name C) articles
  | TStruct _ => Throw TypeError
  end.

(** What checkType returns: [{ value }] or [{ error }]. *)
Inductive result :=
| Value (value : value)
| Error (error : string).

(** [`The ${name} must be ${describe(expectedType, { articles: true })},
    but it was ${describe(valueType, { articles: true })}.`] *)
Definition mismatch (name : string) (expectedType valueType : type)
  : completion result :=
  expected ← describe expectedType true;
  actual ← describe valueType true;
  Return (Error ("The " +:+ name +:+ " must be " +:+ expected +:+ ", but it was "
                   +:+ actual +:+ ".")).

(** The first branch of checkType, for a built-in [expectedType]. *)
Definition check_builtin (h : heap) (value : value) (expectedType : type)
    (name : string) : completion result :=
  let valueType := getType h value in
  if same_type valueType expectedType then Return (Value value)
  else mismatch name expectedType valueType.

(** [value instanceof C] *)
Definition instanceof (h : heap) (value : value) (C : constructor) : bool :=
  match value with
  | VRef l =>
      match h !! l with
      | Some (Instance cls _ _ _) => String.eqb cls (ctor_name C)
      | _ => false
      end
  | _ => false
  end.

(** [new C(value)]: the constructor runs and the instance is allocated. *)
Definition new (C : constructor) (h : heap) (value : value)
  : heap * completion Js.value :=
  match construct C h value with
  | Throw e => (h, Throw e)
  | Return d =>
      let (h', r) :=
        alloc h (Instance (ctor_name C) (inst_text d) (inst_json d) (inst_props d)) in
      (h', Return r)
  end.

(** [valueType != null]: neither null nor undefined. *)
Definition not_nullish_type (valueType : type) : bool :=
  match valueType with
  | TNull | TUndefined => false
  | _ => true
  end.

(** The error of the constructor branch: [`The ${name} must be a valid
    ${describe(expectedType)}, but it was ${describe(valueType, ...)}`],
    then [`: ${JSON.stringify(value)}`] if [valueType != null], then a
    full stop. *)
Definition invalid_error (h : heap) (value : value) (valueType : type)
    (C : constructor) (name : string) : completion result :=
  expected ← describe (TConstructor C) false;
  actual ← describe valueType true;
  let error := "The " +:+ name +:+ " must be a valid " +:+ expected
                 +:+ ", but it was " +:+ actual in
  error ←
    (if not_nullish_type valueType
     then json ← JSON_stringify h value; Return (error +:+ ": " +:+ json)
     else Return error);
  Return (Error (error +:+ ".")).

Fixpoint checkType (value : value) (expectedType : type) (name : string)
    (h : heap) {struct expectedType} : heap * completion result :=
  let valueType := getType h value in
  if is_builtin expectedType then (h, check_builtin h value expectedType name)
  else
    match expectedType with
    | TEnum E =>
        match s ← String_ h value; Enum_valueOf E h (toUpperCase s) with
        | Return constant => (h, Return (Value constant))
        | Throw _ => (h, mismatch name expectedType valueType)
        end
    | TConstructor C =>
        if instanceof h value C then (h, Return (Value value))
        else
          match new C h value with
          | (h', Throw e) => (h', Throw e)
          | (h', Return convertedValue) =>
              match String_ h' convertedValue with
              | Throw e => (h', Throw e)
              | Return s =>
                  if startsWith (toLowerCase s) "invalid"
                  then (h', invalid_error h' value valueType C name)
                  else (h', Return (Value convertedValue))
              end
          end
    | TUnion members =>
        (fix each (types : list type) (h : heap) : heap * completion result :=
           match types with
           | [] => (h, mismatch name expectedType valueType)
           | type :: types' =>
               match checkType value type name h with
               | (h', Throw e) => (h', Throw e)
               | (h', Return (Error _)) => each types' h'
               | (h', Return (Value _)) => (h', Return (Value value))
               end
           end) members h
    | TStruct fields =>
        match check_builtin h value TObject name with
        | Throw e => (h, Throw e)
        | Return (Error error) => (h, Return (Error error))
        | Return (Value _) =>
            (fix each (fields : list (string * type)) (h : heap)
               : heap * completion result :=
               match fields with
               | [] => (h, Return (Value value))
               | (key, type) :: fields' =>
                   match checkType (Get h value key) type (name +:+ "." +:+ key) h with
                   | (h', Throw e) => (h', Throw e)
                   | (h', Return (Error error)) => (h', Return (Error error))
                   | (h', Return (Value coerced)) =>
                       each fields' (Put h' value key coerced)
                   end
               end) fields h
        end
    | _ => (h, Throw (Error_ "Unreachable code executed."))
    end.

(** [ensureUnreachable(message = 'Unreachable code executed.')] *)
Definition ensureUnreachable {A} (message : option string) : completion A :=
  Throw (Error_ (default "Unreachable code executed." message)).

(** [ensureNonEmpty(value, { name = 'value' } = {})] *)
Definition ensureNonEmpty (value : value) (name : option string) (h : heap)
  : completion Js.value :=
  let name := default "value" name in
  let valueType := getType h value in
  let empty :=
    match valueType, value with
    | TString, VString s => String.length s =? 0
    | TArray, VRef l =>
        match h !! l with
        | Some (ArrayObj items) => length items =? 0
        | _ => false
        end
    | TObject, VRef l =>
        match h !! l with
        | Some o => length (own_props o) =? 0
        | None => false
        end
    | _, _ => false
    end in
  if empty then
    json ← JSON_stringify h value;
    Throw (ValidationError
             ("The " +:+ name +:+ " must not be empty, but it was " +:+ json +:+ "."))
  else Return value.

(** [ensureType(value, expectedType, { name = 'value' } = {})] *)
Definition ensureType (value : value) (expectedType : type)
    (name : option string) (h : heap) : heap * completion Js.value :=
  let name := default "value" name in
  match checkType value expectedType name h with
  | (h', Throw e) => (h', Throw e)
  | (h', Return (Error error)) => (h', Throw (ValidationError error))
  | (h', Return (Value value)) => (h', Return value)
  end.

(** The body of [array.forEach((item, index) => ...)] of ensureItemType
    from [index] on, for the [remaining] indices below the length the
    array had when forEach started; each item is read when its turn
    comes. *)
Fixpoint forEach_item (remaining index : nat) (l : loc) (expectedType : type)
    (name : string) (h : heap) : heap * completion unit :=
  match remaining with
  | 0 => (h, Return tt)
  | S remaining' =>
      match h !! l with
      | Some (ArrayObj items) =>
          match items !! index with
          | None => forEach_item remaining' (S index) l expectedType name h
          | Some item =>
              match checkType item expectedType
                      (name +:+ "." +:+ Nat_toString index) h with
              | (h', Throw e) => (h', Throw e)
              | (h', Return (Error error)) => (h', Throw (ValidationError error))
              | (h', Return (Value coerced)) =>
                  forEach_item remaining' (S index) l expectedType name
                    (Put_index h' l index coerced)
              end
          end
      | _ => (h, Return tt)
      end
  end.

(** [ensureItemType(array, expectedType, { name = 'value' } = {})] *)
Definition ensureItemType (array : value) (expectedType : type)
    (name : option string) (h : heap) : heap * completion Js.value :=
  let name := default "value" name in
  match check_builtin h array TArray name with
  | Throw e => (h, Throw e)
  | Return (Error error) => (h, Throw (ValidationError error))
  | Return (Value _) =>
      match array with
      | VRef l =>
          let length :=
            match h !! l with
            | Some (ArrayObj items) => length items
            | _ => 0
            end in
          match forEach_item length 0 l expectedType name h with
          | (h', Throw e) => (h', Throw e)
          | (h', Return _) => (h', Return array)
          end
      | _ => (h, Return array)
      end
  end.

(** The display name of the argument at [index]:
    [names[index] ? names[index] : `argument #${index + 1}`]; the empty
    string is falsy. *)
Definition argument_name (names : list string) (index : nat) : string :=
  match names !! index with
  | Some (String c n) => String c n
  | _ => "argument #" +:+ Nat_toString (index + 1)
  end.

(** [expectedTypes.forEach((expectedType, index) => ...)] of
    ensureArguments, from [index] on. *)
Fixpoint forEach_argument (args : list value) (expectedTypes : list type)
    (names : list string) (index : nat) (h : heap) : heap * completion unit :=
  match expectedTypes with
  | [] => (h, Return tt)
  | expectedType :: expectedTypes' =>
      let name := argument_name names index in
      match ensureType (default VUndefined (args !! index)) expectedType (Some name) h with
      | (h', Throw e) => (h', Throw e)
      | (h', Return _) => forEach_argument args expectedTypes' names (S index) h'
      end
  end.

(** [ensureArguments(args, expectedTypes = [], names = [])].  The two
    ensureThat calls test that [expectedTypes] and [names] are arrays,
    which their types say here. *)
Definition ensureArguments (args : list value) (expectedTypes : list type)
    (names : list string) (h : heap) : heap * completion unit :=
  if length expectedTypes <? length args then
    (h, Throw (ValidationError
                 ("Too many arguments: expected " +:+ Nat_toString (length expectedTypes)
                    +:+ ", but got " +:+ Nat_toString (length args) +:+ ".")))
  else forEach_argument args expectedTypes names 0 h.

End Validation.

Import Validation.

(** ** The vocabulary of the statements *)

(** *** Messages *)

(** The phrase for a Runtime Type Tag, with its article: undefined,
    null and NaN take none, the others a or an by their first letter. *)
Definition phrase (tag : type) : string :=
  match tag with
  | TUndefined => "undefined"
  | TNull => "null"
  | TNaN => "NaN"
  | TBoolean => "a boolean"
  | TNumber => "a number"
  | TBigInt => "a bigint"
  | TString => "a string"
  | TSymbol => "a symbol"
  | TFunction => "a function"
  | TObject => "an object"
  | TArray => "an array"
  | _ => EmptyString
  end.

(** The tags getType returns: the built-in descriptors and NaN. *)
Definition is_tag (t : type) : bool :=
  is_builtin t || match t with TNaN => true | _ => false end.

(** [`The ${name} must be ${expected}, but it was ${actual}.`] *)
Definition must_be (name expected actual : string) : string :=
  "The " +:+ name +:+ " must be " +:+ expected +:+ ", but it was " +:+ actual +:+ ".".

(** *** Empty values *)

(** A value is empty when it is the empty string, an array without
    items, or an object (tag object) without own keys. *)
Definition is_empty (h : heap) (v : value) : Prop :=
  v = VString EmptyString \/
  (exists l, v = VRef l /\ h !! l = Some (ArrayObj [])) \/
  (exists l o, v = VRef l /\ h !! l = Some o /\ getType h v = TObject /\ own_props o = []).

(** [`The ${name} must not be empty, but it was ${JSON.stringify(value)}.`] *)
Definition not_empty_message (name json : string) : string :=
  "The " +:+ name +:+ " must not be empty, but it was " +:+ json +:+ ".".

(** *** The loops of checkType, as functions of their own *)

(** The loop over the members of a union, with the result for the case
    that no member matches. *)
Fixpoint check_members (value : value) (name : string)
    (otherwise : completion result) (types : list type) (h : heap)
  : heap * completion result :=
  match types with
  | [] => (h, otherwise)
  | type :: types' =>
      match checkType value type name h with
      | (h', Throw e) => (h', Throw e)
      | (h', Return (Error _)) => check_members value name otherwise types' h'
      | (h', Return (Value _)) => (h', Return (Value value))
      end
  end.

(** The loop over the fields of a struct. *)
Fixpoint check_fields (value : value) (name : string)
    (fields : list (string * type)) (h : heap) : heap * completion result :=
  match fields with
  | [] => (h, Return (Value value))
  | (key, type) :: fields' =>
      match checkType (Get h value key) type (name +:+ "." +:+ key) h with
      | (h', Throw e) => (h', Throw e)
      | (h', Return (Error error)) => (h', Return (Error error))
      | (h', Return (Value coerced)) =>
          check_fields value name fields' (Put h' value key coerced)
      end
  end.

(** *** Unions *)

(** Every member before the matching one fails with an error (it does
    not throw), each in the heap its predecessors left. *)
Inductive members_fail (value : value) (name : string)
  : list type -> heap -> heap -> Prop :=
| members_fail_nil h : members_fail value name [] h h
| members_fail_cons T types h h1 h2 error :
    checkType value T name h = (h1, Return (Error error)) ->
    members_fail value name types h1 h2 ->
    members_fail value name (T :: types) h h2.

(** The list-joining rule: one or two phrases are joined by or, three
    or more with commas and a final [, or]. *)
Definition join_descriptions (phrases : list string) : string :=
  match phrases with
  | [] => EmptyString
  | [a] => a
  | [a; b] => a +:+ " or " +:+ b
  | _ => join ", " (removelast phrases) +:+ ", or " +:+ List.last phrases EmptyString
  end.

(** *** Enumerations *)

(** A name with its article, a or an by its first letter. *)
Definition article (name : string) : string :=
  match name with
  | EmptyString => EmptyString
  | String c _ => if is_vowel (lower_char c) then "an " +:+ name else "a " +:+ name
  end.

(** [c] is the first of the values whose name property is exactly the
    string [s]; the name of every value before it can be read and is
    something else. *)
Inductive first_named (h : heap) (s : string) : list value -> value -> Prop :=
| first_named_here c values :
    Get_name h c = Return (VString s) ->
    first_named h s (c :: values) c
| first_named_later c' n values c :
    Get_name h c' = Return n ->
    name_is n s = false ->
    first_named h s values c ->
    first_named h s (c' :: values) c.

(** The enum of the documentation and of the tests,
    [class YesNo extends Enum { static YES = new YesNo('YES', 0);
    static NO = new YesNo('NO', 1); }], with its constants in a heap. *)
Definition YesNo : enum_class :=
  {| enum_name := "YesNo"; enum_statics := [("YES", VRef 0); ("NO", VRef 1)] |}.
Definition YesNo_heap : heap :=
  [EnumConstant "YesNo" [("name", VString "YES"); ("ordinal", VNumber (Num "0"))];
   EnumConstant "YesNo" [("name", VString "NO"); ("ordinal", VNumber (Num "1"))]].

(** An enum whose constant is not named in upper case:
    [class Color extends Enum { static Red = new Color('Red', 0); }]. *)
Definition Color : enum_class :=
  {| enum_name := "Color"; enum_statics := [("Red", VRef 0)] |}.
Definition Color_heap : heap :=
  [EnumConstant "Color" [("name", VString "Red"); ("ordinal", VNumber (Num "0"))]].

(** *** Constructors *)

(** [String(convertedValue).toLowerCase().startsWith('invalid')] *)
Definition is_invalid (text : string) : bool :=
  startsWith (toLowerCase text) "invalid".

(** The message of a failed conversion: the JSON of the raw value
    follows unless the tag is null or undefined. *)
Definition invalid_message (name type_name : string) (tag : type) (json : string)
  : string :=
  "The " +:+ name +:+ " must be a valid " +:+ type_name +:+ ", but it was "
    +:+ phrase tag
    +:+ (match tag with
         | TNull | TUndefined => EmptyString
         | _ => ": " +:+ json
         end)
    +:+ ".".

(** What the examples assume of the platform's Date: new Date(null) is
    new Date(0), the epoch, whose string form names a day; the string
    no-date cannot be parsed and gives the Invalid Date. *)
Record Date_like (Date : constructor) : Prop := {
  Date_name : ctor_name Date = "Date";
  Date_null : forall h, construct Date h VNull = construct Date h (VNumber (Num "0"));
  Date_epoch : forall h, exists d,
      construct Date h (VNumber (Num "0")) = Return d /\ is_invalid (inst_text d) = false;
  Date_unparsable : forall h, exists d,
      construct Date h (VString "no-date") = Return d /\ inst_text d = "Invalid Date";
}.

(** A stand-in for Date that knows the epoch and parses no string. *)
Definition epoch_only_Date : constructor :=
  {| ctor_name := "Date";
     construct := fun _ v =>
       match v with
       | VNull | VNumber (Num "0") =>
           Return {| inst_text := "Thu Jan 01 1970 00:00:00 GMT+0000 (Coordinated Universal Time)";
                     inst_json := Some (JSON_quote "1970-01-01T00:00:00.000Z");
                     inst_props := [] |}
       | VBigInt _ | VSymbol _ => Throw TypeError
       | _ => Return {| inst_text := "Invalid Date"; inst_json := Some "null";
                        inst_props := [] |}
       end |}.

(** The instance [new C(value)] allocates. *)
Definition instance_of (C : constructor) (d : instance_data) : object :=
  Instance (ctor_name C) (inst_text d) (inst_json d) (inst_props d).

(** *** The heap under a check *)

(** The descriptors without parts. *)
Definition is_leaf (t : type) : bool :=
  match t with
  | TUnion _ | TStruct _ => false
  | _ => true
  end.

(** [h'] comes from [h] by assignments to properties and by
    allocations: every object of [h] is still there, with the same
    class, items, texts and the like, and possibly other properties. *)
Definition evolves (h h' : heap) : Prop :=
  length h <= length h' /\
  forall l o, h !! l = Some o -> exists ps, h' !! l = Some (with_props o ps).

(** *** The runs of ensureArguments, ensureItemType and the struct check *)

(** The arguments from [index] on are checked in order, a missing one
    as undefined, under their display names, until one check throws. *)
Inductive arguments_run (args : list value) (names : list string)
  : nat -> list type -> heap -> heap -> completion unit -> Prop :=
| arguments_done index h :
    arguments_run args names index [] h h (Return tt)
| arguments_next index T types h h1 h2 r v :
    ensureType (default VUndefined (args !! index)) T
      (Some (argument_name names index)) h = (h1, Return v) ->
    arguments_run args names (S index) types h1 h2 r ->
    arguments_run args names index (T :: types) h h2 r
| arguments_stop index T types h h1 e :
    ensureType (default VUndefined (args !! index)) T
      (Some (argument_name names index)) h = (h1, Throw e) ->
    arguments_run args names index (T :: types) h h1 (Throw e).

(** [`Too many arguments: expected ${N}, but got ${M}.`] *)
Definition too_many_arguments (expected got : nat) : string :=
  "Too many arguments: expected " +:+ Nat_toString expected +:+ ", but got "
    +:+ Nat_toString got +:+ ".".

(** The items from [index] on are checked in order under the names
    [{name}.{index}]; an item that passes is replaced in the array at
    [l] by what it was coerced to; the first item that fails ends the
    run with its own error. *)
Inductive items_run (l : loc) (D : type) (name : string)
  : nat -> list value -> heap -> heap -> completion unit -> Prop :=
| items_done index h :
    items_run l D name index [] h h (Return tt)
| items_next index item items h h1 coerced h2 r :
    checkType item D (name +:+ "." +:+ Nat_toString index) h
      = (h1, Return (Value coerced)) ->
    items_run l D name (S index) items (Put_index h1 l index coerced) h2 r ->
    items_run l D name index (item :: items) h h2 r
| items_error index item items h h1 error :
    checkType item D (name +:+ "." +:+ Nat_toString index) h
      = (h1, Return (Error error)) ->
    items_run l D name index (item :: items) h h1 (Throw (ValidationError error))
| items_throw index item items h h1 e :
    checkType item D (name +:+ "." +:+ Nat_toString index) h = (h1, Throw e) ->
    items_run l D name index (item :: items) h h1 (Throw e).

(** The fields are checked in order, each against [value[key]] as it
    is when its turn comes and under the name [{name}.{key}]; a field
    that passes is assigned its coerced value; the first field that
    fails or throws ends the run with that very result. *)
Inductive fields_run (value : value) (name : string)
  : list (string * type) -> heap -> heap -> completion result -> Prop :=
| fields_done h :
    fields_run value name [] h h (Return (Value value))
| fields_next key T fields h h1 coerced h2 r :
    checkType (Get h value key) T (name +:+ "." +:+ key) h
      = (h1, Return (Value coerced)) ->
    fields_run value name fields (Put h1 value key coerced) h2 r ->
    fields_run value name ((key, T) :: fields) h h2 r
| fields_error key T fields h h1 error :
    checkType (Get h value key) T (name +:+ "." +:+ key) h
      = (h1, Return (Error error)) ->
    fields_run value name ((key, T) :: fields) h h1 (Return (Error error))
| fields_throw key T fields h h1 e :
    checkType (Get h value key) T (name +:+ "." +:+ key) h = (h1, Throw e) ->
    fields_run value name ((key, T) :: fields) h h1 (Throw e).

(** *** Checking a struct twice *)

(** The objects a struct check assigns to: the value itself and, field
    by field, the values of its struct-typed fields. *)
Fixpoint footprint (t : type) (h : heap) (v : value) : list loc :=
  match t, v with
  | TStruct fields, VRef l =>
      l :: (fix each (fields : list (string * type)) : list loc :=
              match fields with
              | [] => []
              | (key, type) :: fields' =>
                  footprint type h (Get h v key) ++ each fields'
              end) fields
  | _, _ => []
  end.

(** The footprints of the fields of a struct, one after the other. *)
Fixpoint fields_footprint (fields : list (string * type)) (h : heap) (v : value)
  : list loc :=
  match fields with
  | [] => []
  | (key, type) :: fields' =>
      footprint type h (Get h v key) ++ fields_footprint fields' h v
  end.

(** The value is a tree along the descriptor: no object is met twice,
    and each is an object literal. *)
Definition tree_shaped (h : heap) (t : type) (v : value) : Prop :=
  NoDup (footprint t h v) /\
  forall l, l ∈ footprint t h v -> exists ps, h !! l = Some (Plain ps).

(** Every object among the constants of the enum is an Enum constant. *)
Definition enum_of_constants (h : heap) (E : enum_class) : Prop :=
  forall l, VRef l ∈ Enum_values E ->
    exists cls ps, h !! l = Some (EnumConstant cls ps).

(** The descriptors the second check is proved for: built-in,
    enumeration and constructor descriptors, unions of built-in
    descriptors, and structs of these with distinct keys. *)
Inductive supported (h : heap) : type -> Prop :=
| supported_builtin t : is_builtin t = true -> supported h t
| supported_enum E : enum_of_constants h E -> supported h (TEnum E)
| supported_constructor C : supported h (TConstructor C)
| supported_union members :
    Forall (fun m => is_builtin m = true) members -> supported h (TUnion members)
| supported_struct fields :
    NoDup (map fst fields) ->
    Forall (fun kt => supported h kt.2) fields ->
    supported h (TStruct fields).

(** The value has the type already: the check returns it as it is. *)
Fixpoint conforms (t : type) (h : heap) (v : value) : Prop :=
  match t with
  | TEnum E =>
      exists l cls ps n,
        v = VRef l /\ h !! l = Some (EnumConstant cls ps) /\
        lookup_prop "name" ps = Some (VString n) /\ toUpperCase n = n /\
        find_by_name h n (Enum_values E) = Return v
  | TConstructor C => instanceof h v C = true
  | TUnion members => existsb (same_type (getType h v)) members = true
  | TStruct fields =>
      exists l ps,
        v = VRef l /\ h !! l = Some (Plain ps) /\
        (fix each (fields : list (string * type)) : Prop :=
           match fields with
           | [] => True
           | (key, type) :: fields' =>
               (exists w, lookup_prop key ps = Some w /\ conforms type h w)
               /\ each fields'
           end) fields
  | t => same_type (getType h v) t = true
  end.

(** The fields of [fields] are among the properties [ps], each with a
    value that conforms. *)
Fixpoint fields_conform (fields : list (string * type)) (h : heap) (ps : props)
  : Prop :=
  match fields with
  | [] => True
  | (key, type) :: fields' =>
      (exists w, lookup_prop key ps = Some w /\ conforms type h w)
      /\ fields_conform fields' h ps
  end.

(** [h'] comes from [h] by assignments to the object literals at [F]
    and by allocations of instances. *)
Definition changes (h h' : heap) (F : list loc) : Prop :=
  (forall l o, h !! l = Some o ->
     h' !! l = Some o \/
     (l ∈ F /\ exists ps ps', o = Plain ps /\ h' !! l = Some (Plain ps'))) /\
  (forall l, h !! l = None ->
     h' !! l = None \/ exists cls text json ps, h' !! l = Some (Instance cls text json ps)).

(** What the first check establishes: the result conforms, only the
    footprint was assigned to, and the footprint did not grow. *)
Definition check_conforms_at (t : type) : Prop :=
  forall v name h h' r,
    supported h t -> tree_shaped h t v ->
    checkType v t name h = (h', Return (Value r)) ->
    conforms t h' r /\
    changes h h' (footprint t h v) /\
    (forall l, l ∈ footprint t h' r -> l ∈ footprint t h v).

(** A user with a nested answer, [{ answer: { d: 'no' }, name: 'John' }],
    behind the constants of YesNo, and the heap the first check leaves,
    in which d has become YesNo.NO. *)
Definition user_heap : heap :=
  YesNo_heap ++ [Plain [("d", VString "no")];
                 Plain [("answer", VRef 2); ("name", VString "John")]].
Definition user_heap_checked : heap :=
  YesNo_heap ++ [Plain [("d", VRef 1)];
                 Plain [("answer", VRef 2); ("name", VString "John")]].
Definition user_struct : list (string * type) :=
  [("answer", TStruct [("d", TEnum YesNo)]); ("name", TString)].

(** One object [o = { d: 'no' }] under two fields, [{ p: o, q: o }],
    checked against [{ p: { d: String }, q: { d: YesNo } }]. *)
Definition shared_heap : heap :=
  YesNo_heap ++ [Plain [("d", VString "no")]; Plain [("p", VRef 2); ("q", VRef 2)]].
Definition shared_heap_checked : heap :=
  YesNo_heap ++ [Plain [("d", VRef 1)]; Plain [("p", VRef 2); ("q", VRef 2)]].
Definition shared_struct : list (string * type) :=
  [("p", TStruct [("d", TString)]); ("q", TStruct [("d", TEnum YesNo)])].

(** *** What describe can print *)

(** The descriptors describe prints with articles: a struct is none of
    them, a class needs a name, a union needs every member printed. *)
Fixpoint printable (t : type) : bool :=
  match t with
  | TUnion members => forallb printable members
  | TStruct _ => false
  | TEnum E => negb (String.eqb (enum_name E) EmptyString)
  | TConstructor C => negb (String.eqb (ctor_name C) EmptyString)
  | _ => true
  end.

(** *** Descriptors without a struct *)

(** No struct occurs in the descriptor, nor among the members of its
    unions. *)
Fixpoint struct_free (t : type) : bool :=
  match t with
  | TUnion members => forallb struct_free members
  | TStruct _ => false
  | _ => true
  end.

(** No constructor descriptor occurs either. *)
Fixpoint constructor_free (t : type) : bool :=
  match t with
  | TUnion members => forallb constructor_free members
  | TConstructor _ => false
  | _ => true
  end.

Definition is_instance (o : object) : Prop :=
  exists cls text json ps, o = Instance cls text json ps.

(** *** The Enum constructor *)

(** [new cls(...args)] for a direct subclass of Enum that declares no
    constructor: [ensureArguments(arguments, [String, Number])], then
    [this.name = name; this.ordinal = ordinal].  The instance enters
    the heap when the constructor has returned; one whose constructor
    throws is never seen. *)
Definition Enum_constructor (cls : string) (args : list value) (h : heap)
  : heap * completion value :=
  match ensureArguments args [TString; TNumber] [] h with
  | (h', Throw e) => (h', Throw e)
  | (h', Return _) =>
      let name := default VUndefined (args !! 0) in
      let ordinal := default VUndefined (args !! 1) in
      let (h'', this) :=
        alloc h' (EnumConstant cls [("name", name); ("ordinal", ordinal)]) in
      (h'', Return this)
  end.

(** [`No enum constant ${this.name}.${name} exists.`] *)
Definition no_enum_constant (cls name : string) : string :=
  "No enum constant " +:+ cls +:+ "." +:+ name +:+ " exists.".

(** The constants of [E] bear the names [names], in this order. *)
Definition constant_names (h : heap) (E : enum_class) (names : list string) : Prop :=
  Forall2 (fun c n => Get_name h c = Return (VString n)) (Enum_values E) names.

(** *** Properties that stay *)

(** [h'] comes from [h] without the loss of an object or of a
    property: every object is still there, with the same class, items
    and texts, and with every key it had. *)
Definition keeps_keys (h h' : heap) : Prop :=
  forall l o, h !! l = Some o ->
    exists ps, h' !! l = Some (with_props o ps) /\
      forall key, is_Some (lookup_prop key (own_props o)) -> is_Some (lookup_prop key ps).

(** ** ConfigurableResponses *)

(** ToString of a value, as a template literal takes it: a symbol is a
    TypeError, an object answers with its own conversion. *)
Definition ToString (h : heap) (v : value) : completion string :=
  match v with
  | VRef l => object_toString (length h) h [] l
  | _ => prim_toString v
  end.

Module ConfigurableResponses.

(** The private field [#responses]: an array of the instance's own,
    made by [[...responses]], or the single response as it was given. *)
Inductive responses :=
| Queue (items : list value)
| Single (response : value).

Record t := {
  description : string;
  configured : responses;
}.

(** [new ConfigurableResponses(responses, name)], which [create] calls:
    [name == null ? '' : ` in ${name}`], then
    [Array.isArray(responses) ? [...responses] : responses]. *)
Definition create (h : heap) (responses name : value) : completion t :=
  description ←
    (if is_nullish name then Return EmptyString
     else s ← ToString h name; Return (" in " +:+ s));
  Return {| description := description;
            configured :=
              match responses with
              | VRef l =>
                  match h !! l with
                  | Some (ArrayObj items) => Queue items
                  | _ => Single responses
                  end
              | _ => Single responses
              end |}.

(** [`No more responses configured${this.#description}.`] *)
Definition no_more_responses (description : string) : exn :=
  Error_ ("No more responses configured" +:+ description +:+ ".").

(** [response === undefined] *)
Definition is_undefined (response : value) : bool :=
  match response with
  | VUndefined => true
  | _ => false
  end.

(** [next()]: the array gives up its first item with [shift()], which
    is undefined on the empty array; a single response stays. *)
Definition next (r : t) : t * completion value :=
  let (r', response) :=
    match configured r with
    | Queue [] => (r, VUndefined)
    | Queue (response :: items) =>
        ({| description := description r; configured := Queue items |}, response)
    | Single response => (r, response)
    end in
  if is_undefined response then (r', Throw (no_more_responses (description r)))
  else (r', Return response).

(** The outcomes of [n] calls of [next], one after the other. *)
Fixpoint calls (n : nat) (r : t) : list (completion value) :=
  match n with
  | 0 => []
  | S n' => let (r', outcome) := next r in outcome :: calls n' r'
  end.

(** What [next] makes of a response it has taken. *)
Definition answer (description : string) (response : value) : completion value :=
  if is_undefined response then Throw (no_more_responses description)
  else Return response.

End ConfigurableResponses.

(** ** Health: statuses, their aggregation and the endpoint *)

Module Health.

(** The instances of Status, told apart as objects are: the four static
    constants, and the instances made by [new Status(code)] later on,
    each with an identity of its own. *)
Inductive Status :=
| UNKNOWN
| UP
| DOWN
| OUT_OF_SERVICE
| Custom (id : nat) (code : string).

#[global] Instance Status_eq_dec : EqDecision Status.
Proof. solve_decision. Defined.

(** [array.indexOf(x)]: the first index at which [x] itself is found,
    or -1. *)
Fixpoint indexOf_from (from : nat) (array : list Status) (x : Status) : Z :=
  match array with
  | [] => -1
  | y :: array' =>
      if decide (y = x) then Z.of_nat from else indexOf_from (S from) array' x
  end.
Definition indexOf (array : list Status) (x : Status) : Z := indexOf_from 0 array x.

(** [array.sort(compare)] for a comparator that is the difference of
    two ranks: the items in ascending order, those that compare equal
    in the order they had (the sort is stable). *)
Fixpoint insert (compare : Status -> Status -> Z) (x : Status) (sorted : list Status)
  : list Status :=
  match sorted with
  | [] => [x]
  | y :: sorted' =>
      if (compare x y <=? 0)%Z then x :: sorted else y :: insert compare x sorted'
  end.
Fixpoint sort (compare : Status -> Status -> Z) (array : list Status) : list Status :=
  match array with
  | [] => []
  | x :: array' => insert compare x (sort compare array')
  end.

(** [SimpleStatusAggregator.#DEFAULT_ORDER] *)
Definition DEFAULT_ORDER : list Status := [DOWN; OUT_OF_SERVICE; UP; UNKNOWN].

(** [getAggregateStatus(statuses)] of a SimpleStatusAggregator with the
    given [order]: the array as the call leaves it, and the result.
    The sorted array is as long as [statuses], so [statuses[0]] is an
    item of it. *)
Definition getAggregateStatus (order statuses : list Status) : list Status * Status :=
  if length statuses =? 0 then (statuses, UNKNOWN)
  else
    let statuses := sort (fun a b => (indexOf order a - indexOf order b)%Z) statuses in
    (statuses, default UNKNOWN (head statuses)).

(** [SimpleHttpCodeStatusMapper.#DEFAULT_MAPPING], the entries of the Map. *)
Definition DEFAULT_MAPPING : list (Status * Z) :=
  [(DOWN, 503%Z); (OUT_OF_SERVICE, 503%Z)].

(** [map.get(status)] *)
Fixpoint Map_get (mappings : list (Status * Z)) (status : Status) : option Z :=
  match mappings with
  | [] => None
  | (key, code) :: mappings' =>
      if decide (key = status) then Some code else Map_get mappings' status
  end.

(** [this.#mappings.get(status) ?? 200] *)
Definition getStatusCode (mappings : list (Status * Z)) (status : Status) : Z :=
  default 200%Z (Map_get mappings status).

(** An instance of Health, with its details as they were given, or of
    CompositeHealth, with its components by name. *)
Inductive health :=
| Health (status : Status) (details : value)
| CompositeHealth (status : Status) (components : list (string * health)).

(** [health.status] *)
Definition status_of (h : health) : Status :=
  match h with
  | Health status _ | CompositeHealth status _ => status
  end.

(** [Health.up()]: [Health.status({ status: Status.UP, details })]
    without details and without an error. *)
Definition up : health := Health UP VUndefined.

(** The two strategies of a group, as the interfaces StatusAggregator
    and HttpCodeStatusMapper have them. *)
Record HealthEndpointGroup := {
  statusAggregator : list Status -> list Status * Status;
  httpCodeStatusMapper : Status -> Z;
}.

(** The primary group of the default endpoint. *)
Definition primary : HealthEndpointGroup :=
  {| statusAggregator := getAggregateStatus DEFAULT_ORDER;
     httpCodeStatusMapper := getStatusCode DEFAULT_MAPPING |}.

(** [components[name] = health]: an existing name keeps its place. *)
Fixpoint set_component (name : string) (h : health)
    (components : list (string * health)) : list (string * health) :=
  match components with
  | [] => [(name, h)]
  | (k, h') :: components' =>
      if String.eqb k name then (name, h) :: components'
      else (k, h') :: set_component name h components'
  end.

(** The loop of [#getHealth()] over the entries of the registry, in
    the order of the Map; a contributor is given by the health its
    [health()] returns, which [components[name]] holds when its status
    is read. *)
Fixpoint collect (registry : list (string * health))
    (components : list (string * health)) (statuses : list Status)
  : list (string * health) * list Status :=
  match registry with
  | [] => (components, statuses)
  | (name, contributor) :: registry' =>
      collect registry' (set_component name contributor components)
        (statuses ++ [status_of contributor])
  end.

(** [#getHealth()] *)
Definition getHealth (registry : list (string * health)) (primary : HealthEndpointGroup)
  : health * HealthEndpointGroup :=
  let (components, statuses) := collect registry [] [] in
  let health :=
    if 0 <? length statuses then
      let (_, status) := statusAggregator primary statuses in
      CompositeHealth status components
    else up in
  (health, primary).

(** An EndpointResponse, [{ status, body }]. *)
Record EndpointResponse := {
  status : Z;
  body : health;
}.

(** [health()] of a HealthEndpoint over the registry and the group. *)
Definition HealthEndpoint_health (registry : list (string * health))
    (primary : HealthEndpointGroup) : EndpointResponse :=
  let (health, group) := getHealth registry primary in
  {| status := httpCodeStatusMapper group (status_of health); body := health |}.

(** *** The vocabulary of the statements *)

Definition is_custom (s : Status) : bool :=
  match s with
  | Custom _ _ => true
  | _ => false
  end.

(** Some item of [statuses] is the status [s]. *)
Definition reports (s : Status) (statuses : list Status) : bool :=
  existsb (fun x => bool_decide (x = s)) statuses.

(** The first status that is none of the four constants, if there is
    one; otherwise DOWN before OUT_OF_SERVICE before UP before UNKNOWN. *)
Definition worst (statuses : list Status) : Status :=
  match List.find is_custom statuses with
  | Some s => s
  | None =>
      if reports DOWN statuses then DOWN
      else if reports OUT_OF_SERVICE statuses then OUT_OF_SERVICE
      else if reports UP statuses then UP
      else UNKNOWN
  end.

(** The first of [x :: rest] among those of the least rank. *)
Fixpoint least (rank : Status -> Z) (x : Status) (rest : list Status) : Status :=
  match rest with
  | [] => x
  | y :: rest' =>
      let m := least rank y rest' in
      if (rank x <=? rank m)%Z then x else m
  end.

End Health.

(** ** Numbers that are integers *)

(** [Number.MAX_SAFE_INTEGER], 2^53 - 1, and the integers of at most
    that magnitude, which the numbers of the platform hold exactly. *)
Definition MAX_SAFE_INTEGER : Z := 9007199254740991.
Definition safe (z : Z) : Prop := (- MAX_SAFE_INTEGER <= z <= MAX_SAFE_INTEGER)%Z.

(** ** Color *)

Module Color_.

(** A number here is an integer or NaN ([None]); fractions and the
    infinities are left out. *)

(** ToInt32 of an integer: its residue modulo 2^32 in the signed range. *)
Definition wrap (z : Z) : Z := ((z + 2 ^ 31) mod 2 ^ 32 - 2 ^ 31)%Z.

(** ToInt32 of a number: NaN gives 0. *)
Definition ToInt32 (n : option Z) : Z :=
  match n with
  | Some z => wrap z
  | None => 0%Z
  end.

(** The operators [&], [|], [<<] and [>>]: each takes its operands to
    32-bit integers first. *)
Definition bitand (a b : Z) : Z := Z.land (wrap a) (wrap b).
Definition bitor (a b : Z) : Z := Z.lor (wrap a) (wrap b).
Definition shl (a count : Z) : Z := wrap (Z.shiftl (wrap a) (Z.land count 31)).
Definition sar (a count : Z) : Z := Z.shiftr (wrap a) (Z.land count 31).

(** The private field [#value]. *)
Record Color := { value : option Z }.

(** [new Color(red, green, blue)] for three integers. *)
Definition of_rgb (red green blue : Z) : Color :=
  {| value :=
       Some (bitor (bitor (shl (bitand red 255) 16) (shl (bitand green 255) 8))
                   (shl (bitand blue 255) 0)) |}.

(** [new Color(red)] for a number: [Number(red)]. *)
Definition of_number (red : option Z) : Color := {| value := red |}.

Definition rgb (c : Color) : option Z := value c.
Definition red (c : Color) : Z := bitand (sar (ToInt32 (rgb c)) 16) 255.
Definition green (c : Color) : Z := bitand (sar (ToInt32 (rgb c)) 8) 255.
Definition blue (c : Color) : Z := bitand (sar (ToInt32 (rgb c)) 0) 255.

(** [n.toString(16)] for an integer: the digits without leading zeros,
    behind a minus sign when it is negative. *)
Definition hex_digits (z : Z) : string :=
  string_of_list_ascii
    (map (fun i => hex_digit (Z.to_nat ((z / 16 ^ Z.of_nat i) mod 16)))
       (rev (seq 0 (S (Z.to_nat (Z.log2 z / 4)))))).
Definition Number_toString16 (z : Z) : string :=
  if (z <? 0)%Z then "-" +:+ hex_digits (- z) else hex_digits z.

(** [s.padStart(targetLength, fill)] for a fill string of one character. *)
Definition padStart (s : string) (targetLength : nat) (fill : ascii) : string :=
  string_of_list_ascii (repeat fill (targetLength - String.length s)) +:+ s.

Definition toString (c : Color) : string :=
  match rgb c with
  | None => "Invalid Color"
  | Some z => padStart (Number_toString16 z) 6 "0"
  end.

(** StrWhiteSpaceChar, on ASCII text: tab, line feed, vertical tab,
    form feed, carriage return and space. *)
Definition is_whitespace (c : ascii) : bool :=
  let n := nat_of_ascii c in ((9 <=? n) && (n <=? 13)) || (n =? 32).

Fixpoint trimStart (s : string) : string :=
  match s with
  | EmptyString => EmptyString
  | String c s' => if is_whitespace c then trimStart s' else s
  end.

(** The value of a digit of radix 16, in either case. *)
Definition digit16 (c : ascii) : option Z :=
  let n := nat_of_ascii c in
  if (48 <=? n) && (n <=? 57) then Some (Z.of_nat (n - 48))
  else if (97 <=? n) && (n <=? 102) then Some (Z.of_nat (n - 87))
  else if (65 <=? n) && (n <=? 70) then Some (Z.of_nat (n - 55))
  else None.

(** The number the longest prefix of digits denotes; [acc] is the
    number read so far, [None] before the first digit. *)
Fixpoint digits16 (s : string) (acc : option Z) : option Z :=
  match s with
  | EmptyString => acc
  | String c s' =>
      match digit16 c with
      | Some d => digits16 s' (Some (16 * default 0 acc + d)%Z)
      | None => acc
      end
  end.

(** [parseInt(string, 16)]: leading white space is skipped, then a
    sign, then the prefix 0x or 0X; the digits that follow give the
    number, and NaN when there is none.  The result is exact as long
    as it is a safe integer. *)
Definition parseInt16 (s : string) : option Z :=
  let S := trimStart s in
  let (sign, S) :=
    match S with
    | String c S' =>
        if Ascii.eqb c "-" then ((-1)%Z, S')
        else if Ascii.eqb c "+" then (1%Z, S')
        else (1%Z, S)
    | EmptyString => (1%Z, S)
    end in
  let S :=
    match S with
    | String c (String x S') =>
        if Ascii.eqb c "0" && (Ascii.eqb x "x" || Ascii.eqb x "X") then S' else S
    | _ => S
    end in
  option_map (Z.mul sign) (digits16 S None).

(** [new Color(red)] for a string: [parseInt(red, 16)]. *)
Definition of_string (red : string) : Color := {| value := parseInt16 red |}.

(** Two hexadecimal digits for a number below 256. *)
Definition hex2 (z : Z) : string :=
  String (hex_digit (Z.to_nat (z / 16))) (String (hex_digit (Z.to_nat (z mod 16))) EmptyString).

End Color_.

(** ** Time: Duration, Clock and StopWatch *)

Module Time.

(** A number here is a safe integer: on these the [+], [-] and [*] of
    the platform are exact as long as the result is safe, and [/] by a
    positive integer followed by Math.floor, Math.ceil or Math.trunc
    gives the integer quotient rounded that way.  Fractions, NaN and
    the infinities are left out, and with them the durations that are
    invalid. *)

(** [Math.floor(a / b)], [Math.ceil(a / b)] and [Math.trunc(a / b)]
    for a positive [b]. *)
Definition floor_div (a b : Z) : Z := (a / b)%Z.
Definition ceil_div (a b : Z) : Z := (- (- a / b))%Z.
Definition trunc_div (a b : Z) : Z := (a ÷ b)%Z.

(** A Duration with its length in milliseconds. *)
Record Duration := { millis : Z }.

(** [new Duration(value)] for a number: [Math.trunc(value)]. *)
Definition of_millis (value : Z) : Duration := {| millis := value |}.

(** [Duration.zero()] *)
Definition zero : Duration := {| millis := 0 |}.

Definition isZero (d : Duration) : bool := (millis d =? 0)%Z.
Definition isNegative (d : Duration) : bool := (millis d <? 0)%Z.
Definition isPositive (d : Duration) : bool := (0 <? millis d)%Z.

(** [this.isNegative() ? Math.ceil(value) : Math.floor(value)] for
    [value = a / b]. *)
Definition part (d : Duration) (a b : Z) : Z :=
  if isNegative d then ceil_div a b else floor_div a b.

Definition days (d : Duration) : Z := trunc_div (millis d) 86400000.
Definition daysPart (d : Duration) : Z := part d (millis d) 86400000.

Definition hours (d : Duration) : Z := trunc_div (millis d) 3600000.
Definition hoursPart (d : Duration) : Z :=
  part d (millis d - daysPart d * 86400000) 3600000.

Definition minutes (d : Duration) : Z := trunc_div (millis d) 60000.
Definition minutesPart (d : Duration) : Z :=
  part d (millis d - daysPart d * 86400000 - hoursPart d * 3600000) 60000.

Definition seconds (d : Duration) : Z := trunc_div (millis d) 1000.
Definition secondsPart (d : Duration) : Z :=
  part d (millis d - daysPart d * 86400000 - hoursPart d * 3600000
          - minutesPart d * 60000) 1000.

(** The value of millisPart is an integer already, which Math.ceil
    and Math.floor leave as it is. *)
Definition millisPart (d : Duration) : Z :=
  part d (millis d - daysPart d * 86400000 - hoursPart d * 3600000
          - minutesPart d * 60000 - secondsPart d * 1000) 1.

Definition absolutized (d : Duration) : Duration := of_millis (Z.abs (millis d)).
Definition negated (d : Duration) : Duration := of_millis (- millis d).
Definition plus (d : Duration) (duration : Z) : Duration :=
  of_millis (millis d + millis (of_millis duration)).
Definition minus (d : Duration) (duration : Z) : Duration :=
  of_millis (millis d - millis (of_millis duration)).

(** [Duration.between(startInclusive, endExclusive)] for two numbers. *)
Definition between (startInclusive endExclusive : Z) : Duration :=
  of_millis (endExclusive - startInclusive).

(** A Date with its time value; [None] is the Invalid Date. *)
Definition Date_ (time : Z) : option Z :=
  if (Z.abs time <=? 8640000000000000)%Z then Some time else None.

(** A Clock made by [Clock.fixed(fixedDate)]: its private [#date]. *)
Record Clock := { date : option Z }.

(** [Clock.fixed()] with the default date, 2024-02-21T19:16:00Z. *)
Definition fixed : Clock := {| date := Some 1708542960000%Z |}.

(** [millis()]: [this.date().getTime()]; NaN for the Invalid Date. *)
Definition Clock_millis (c : Clock) : option Z := date c.

(** [add(offsetDuration)] for a number of milliseconds:
    [new Date(current.getTime() + new Duration(offsetDuration).millis)]. *)
Definition add (c : Clock) (offsetDuration : Z) : Clock :=
  {| date :=
       match date c with
       | Some current => Date_ (current + millis (of_millis offsetDuration))
       | None => None
       end |}.

(** A StopWatch: the two private times, undefined until the watch is
    started and stopped.  The clock is shared with its other users,
    and so it is passed to the calls that read it. *)
Record StopWatch := {
  startTime : option (option Z);
  stopTime : option (option Z);
}.

(** [new StopWatch(clock)] *)
Definition StopWatch_new : StopWatch := {| startTime := None; stopTime := None |}.

Definition start (w : StopWatch) (clock : Clock) : StopWatch :=
  {| startTime := Some (Clock_millis clock); stopTime := stopTime w |}.
Definition stop (w : StopWatch) (clock : Clock) : StopWatch :=
  {| startTime := startTime w; stopTime := Some (Clock_millis clock) |}.

(** [this.#stopTime - this.#startTime]: NaN when either is undefined
    or NaN. *)
Definition getTotalTimeMillis (w : StopWatch) : option Z :=
  match stopTime w, startTime w with
  | Some (Some stopTime), Some (Some startTime) => Some (stopTime - startTime)%Z
  | _, _ => None
  end.

(** The clock after a list of additions. *)
Definition add_all (c : Clock) (offsets : list Z) : Clock := fold_left add offsets c.

End Time.

(** ** Store *)

Module Store_.

(** [!!value] *)
Definition ToBoolean (v : value) : bool :=
  match v with
  | VUndefined | VNull => false
  | VBoolean b => b
  | VNumber NaN => false
  | VNumber (Num repr) => negb (String.eqb repr "0")
  | VBigInt z => negb (z =? 0)%Z
  | VString s => negb (String.eqb s EmptyString)
  | VSymbol _ | VRef _ => true
  end.

(** [a === b]: objects by identity, NaN equal to nothing; symbols are
    told apart by their descriptions. *)
Definition strict_equal (a b : value) : bool :=
  match a, b with
  | VUndefined, VUndefined | VNull, VNull => true
  | VBoolean x, VBoolean y => Bool.eqb x y
  | VNumber (Num x), VNumber (Num y) => String.eqb x y
  | VBigInt x, VBigInt y => (x =? y)%Z
  | VString x, VString y => String.eqb x y
  | VSymbol x, VSymbol y => String.eqb x y
  | VRef x, VRef y => x =? y
  | _, _ => false
  end.

(** An action, by the properties of its object; [{ type: '@@INIT' }]. *)
Definition INIT : list (string * value) := [("type", VString "@@INIT")].

(** The private fields of a Store.  The reducer is a function of the
    state and the action; a listener is a function known by its
    identity. *)
Record Store := {
  reducer : value -> list (string * value) -> value;
  state : value;
  listeners : list nat;
}.

(** [createStore(reducer, preloadedState)]:
    [preloadedState || reducer(undefined, { type: '@@INIT' })]. *)
Definition createStore (reducer : value -> list (string * value) -> value)
    (preloadedState : value) : Store :=
  let initialState :=
    if ToBoolean preloadedState then preloadedState else reducer VUndefined INIT in
  {| reducer := reducer; state := initialState; listeners := [] |}.

Definition getState (s : Store) : value := state s.

(** [subscribe(listener)]; the unsubscriber it returns calls
    [#unsubscribe(listener)]. *)
Definition subscribe (s : Store) (listener : nat) : Store :=
  {| reducer := reducer s; state := state s; listeners := listeners s ++ [listener] |}.

(** [this.#listeners.filter((l) => l !== listener)] *)
Definition unsubscribe (s : Store) (listener : nat) : Store :=
  {| reducer := reducer s; state := state s;
     listeners := List.filter (fun l => negb (l =? listener)) (listeners s) |}.

(** [#emitChange()]: forEach runs over the array of listeners as it is
    when the round starts ([round]); a listener is called if the
    current array still includes it.  What a listener does when it is
    called is given by [behaviour]: it unsubscribes the listeners
    listed for it (itself, perhaps) and does nothing else to the
    store.  The listeners called are recorded in order. *)
Fixpoint emitChange (behaviour : nat -> list nat) (round : list nat) (s : Store)
    (called : list nat) : Store * list nat :=
  match round with
  | [] => (s, called)
  | listener :: round' =>
      if existsb (Nat.eqb listener) (listeners s) then
        emitChange behaviour round' (fold_left unsubscribe (behaviour listener) s)
          (called ++ [listener])
      else emitChange behaviour round' s called
  end.

(** [dispatch(action)]: the store it leaves and the listeners called. *)
Definition dispatch (behaviour : nat -> list nat) (s : Store)
    (action : list (string * value)) : Store * list nat :=
  let oldState := state s in
  let s := {| reducer := reducer s; state := reducer s (state s) action;
              listeners := listeners s |} in
  if negb (strict_equal oldState (state s)) then emitChange behaviour (listeners s) s []
  else (s, []).

(** The store after a list of dispatches. *)
Definition dispatch_all (behaviour : nat -> list nat) (s : Store)
    (actions : list (list (string * value))) : Store :=
  fold_left (fun s action => (dispatch behaviour s action).1) actions s.

(** A listener that leaves the subscriptions alone. *)
Definition passive : nat -> list nat := fun _ => [].

End Store_.

(** ** Logging: levels and loggers *)

Module Logging.

(** A Level with its name and its value. *)
Record Level := {
  name : string;
  value : Z;
}.

Definition OFF : Level := {| name := "OFF"; value := MAX_SAFE_INTEGER |}.
Definition ERROR : Level := {| name := "ERROR"; value := 1000 |}.
Definition WARNING : Level := {| name := "WARNING"; value := 900 |}.
Definition INFO : Level := {| name := "INFO"; value := 800 |}.
Definition DEBUG : Level := {| name := "DEBUG"; value := 700 |}.
Definition TRACE : Level := {| name := "TRACE"; value := 600 |}.
Definition ALL : Level := {| name := "ALL"; value := - MAX_SAFE_INTEGER |}.

(** [level >= this.level]: both levels give their values. *)
Definition at_least (level threshold : Level) : bool := (value threshold <=? value level)%Z.

(** A Logger as a call of [isLoggable] finds it: its name, its level ([None]:
    null or undefined), its handlers, known by their identities, and
    the logger its parent field holds, if any ([Orphan]: the field is
    undefined).  The chain of parents has an end. *)
Inductive Logger :=
| Orphan (name : string) (level : option Level) (handlers : list nat)
| Child (name : string) (level : option Level) (handlers : list nat) (parent : Logger).

Definition Logger_name (logger : Logger) : string :=
  match logger with
  | Orphan name _ _ | Child name _ _ _ => name
  end.

(** [isLoggable(level)]:
    [this.level != null ? level >= this.level : this.parent.isLoggable(level)];
    reading [isLoggable] of an undefined parent is a TypeError. *)
Fixpoint isLoggable (logger : Logger) (level : Level) : completion bool :=
  match logger with
  | Orphan _ (Some threshold) _ | Child _ (Some threshold) _ _ =>
      Return (at_least level threshold)
  | Child _ None _ parent => isLoggable parent level
  | Orphan _ None _ => Throw TypeError
  end.

(** The first level set on the way from the logger up its parents. *)
Fixpoint effective_level (logger : Logger) : option Level :=
  match logger with
  | Orphan _ (Some threshold) _ | Child _ (Some threshold) _ _ => Some threshold
  | Child _ None _ parent => effective_level parent
  | Orphan _ None _ => None
  end.

(** The root logger of the LogManager, [#createRootLogger()], with its
    console handler [handler], and a logger as [#createLogger(name)]
    makes it. *)
Definition rootLogger (handler : nat) : Logger :=
  Orphan EmptyString (Some INFO) [handler].
Definition createLogger (handler : nat) (name : string) : Logger :=
  Child name None [] (rootLogger handler).

End Logging.

(** * Properties *)

(** ** The noun phrases of the messages *)

Lemma getType_is_tag h v : is_tag (getType h v) = true.
Proof.
  destruct v as [| | |[|]| | | |l]; try reflexivity.
  simpl. destruct (h !! l) as [[]|]; reflexivity.
Qed.

Lemma describe_tag t : is_tag t = true -> describe t true = Return (phrase t).
Proof. destruct t; try discriminate; reflexivity. Qed.

Lemma same_type_eq a b : same_type a b = true <-> a = b /\ is_builtin b = true.
Proof.
  split.
  - destruct a, b; try discriminate; auto.
  - intros [-> Hb]. destruct b; try discriminate; reflexivity.
Qed.

Lemma same_type_neq a b : is_builtin b = true -> same_type a b = false <-> a <> b.
Proof.
  intros Hb. split.
  - intros Hf ->. destruct b; discriminate.
  - intros Hne. destruct (same_type a b) eqn:E; [|reflexivity].
    apply same_type_eq in E as [-> _]. congruence.
Qed.

Lemma mismatch_tag name T tag :
  is_tag T = true -> is_tag tag = true ->
  mismatch name T tag = Return (Error (must_be name (phrase T) (phrase tag))).
Proof.
  intros HT Htag. unfold mismatch.
  rewrite (describe_tag _ HT), (describe_tag _ Htag). reflexivity.
Qed.

Lemma is_builtin_is_tag T : is_builtin T = true -> is_tag T = true.
Proof. unfold is_tag. intros ->. reflexivity. Qed.

Lemma check_builtin_spec h v T name :
  is_builtin T = true ->
  check_builtin h v T name =
    if same_type (getType h v) T then Return (Value v)
    else Return (Error (must_be name (phrase T) (phrase (getType h v)))).
Proof.
  intros HT. unfold check_builtin.
  destruct (same_type (getType h v) T); [reflexivity|].
  apply mismatch_tag; [by apply is_builtin_is_tag | apply getType_is_tag].
Qed.

Lemma checkType_builtin v T name h :
  is_builtin T = true -> checkType v T name h = (h, check_builtin h v T name).
Proof. destruct T; try discriminate; reflexivity. Qed.

(** ** C1: built-in descriptors *)



(** ** C9: ensureNonEmpty *)

Lemma JSON_stringify_empty_string h :
  JSON_stringify h (VString EmptyString) = Return (String dquote (String dquote EmptyString)).
Proof. unfold JSON_stringify. rewrite Nat.add_1_r. reflexivity. Qed.

Lemma JSON_stringify_empty_array h l :
  h !! l = Some (ArrayObj []) -> JSON_stringify h (VRef l) = Return "[]".
Proof.
  intros Hl. unfold JSON_stringify. rewrite Nat.add_1_r. simpl. rewrite Hl.
  reflexivity.
Qed.

Lemma JSON_stringify_empty_object h l :
  h !! l = Some (Plain []) -> JSON_stringify h (VRef l) = Return "{}".
Proof.
  intros Hl. unfold JSON_stringify. rewrite Nat.add_1_r. simpl. rewrite Hl.
  reflexivity.
Qed.

Lemma JSON_stringify_no_keys h l o :
  h !! l = Some o -> getType h (VRef l) = TObject -> own_props o = [] ->
  exists json, JSON_stringify h (VRef l) = Return json.
Proof.
  intros Hl Htag Hps. unfold JSON_stringify. rewrite Nat.add_1_r.
  cbn [JSON_serialize]. rewrite Hl.
  destruct o as [ps|items|f src|cls ps|cls text [j|] ps]; simpl in Hps; subst;
    try (simpl in Htag; rewrite Hl in Htag; discriminate).
  - eexists. reflexivity.
  - simpl. destruct (length h + (length h + 0)); eexists; reflexivity.
  - eexists. reflexivity.
  - eexists. reflexivity.
Qed.

Lemma is_empty_dec h v : is_empty h v \/ ~ is_empty h v.
Proof.
  unfold is_empty. destruct v as [| | |n| |s| |l];
    try (right; intros [?|[(? & ? & ?)|(? & ? & ? & ?)]]; discriminate).
  - destruct s; [left; left; reflexivity|].
    right; intros [?|[(? & ? & ?)|(? & ? & ? & ?)]]; discriminate.
  - destruct (h !! l) as [o|] eqn:Hl.
    + destruct o as [ps|items|f src|cls ps|cls text j ps].
      * destruct ps as [|p ps].
        { left. right. right. exists l, (Plain []). simpl. rewrite Hl. done. }
        right; intros [?|[(? & ? & ?)|(? & ? & ? & ? & ? & ?)]]; simplify_eq.
      * destruct items as [|i items]; [left; right; left; eauto|].
        right; intros [?|[(? & ? & ?)|(? & ? & ? & ? & T & ?)]]; simplify_eq.
        simpl in T. rewrite Hl in T. discriminate.
      * right; intros [?|[(? & ? & ?)|(? & ? & ? & ? & T & ?)]]; simplify_eq.
        simpl in T. rewrite Hl in T. discriminate.
      * destruct ps as [|p ps].
        { left. right. right. exists l, (EnumConstant cls []). simpl. rewrite Hl. done. }
        right; intros [?|[(? & ? & ?)|(? & ? & ? & ? & ? & ?)]]; simplify_eq.
      * destruct ps as [|p ps].
        { left. right. right. exists l, (Instance cls text j []). simpl. rewrite Hl. done. }
        right; intros [?|[(? & ? & ?)|(? & ? & ? & ? & ? & ?)]]; simplify_eq.
    + right; intros [?|[(? & ? & ?)|(? & ? & ? & ? & ? & ?)]]; simplify_eq.
Qed.

(** C9.  ensureNonEmpty(v, {name}) throws exactly when v is the empty
    string, an empty array or an object without keys; the validation
    error then embeds JSON.stringify(v), which is a pair of double
    quotes for the empty string, [[]] for the empty array and [{}] for
    the empty object literal.  Any other value, a number, a boolean,
    null and undefined among them, is returned unchanged. *)
Theorem ensureNonEmpty_throws_iff_empty (v : value) (name : option string)
    (h : heap) :
  ((exists e, ensureNonEmpty v name h = Throw e) <-> is_empty h v) /\
  (is_empty h v ->
   exists json, JSON_stringify h v = Return json /\
     ensureNonEmpty v name h =
       Throw (ValidationError (not_empty_message (default "value" name) json))) /\
  (~ is_empty h v -> ensureNonEmpty v name h = Return v) /\
  JSON_stringify h (VString EmptyString)
    = Return (String dquote (String dquote EmptyString)) /\
  (forall l, h !! l = Some (ArrayObj []) -> JSON_stringify h (VRef l) = Return "[]") /\
  (forall l, h !! l = Some (Plain []) -> JSON_stringify h (VRef l) = Return "{}").
Proof.
  assert (Hthrow : is_empty h v ->
    exists json, JSON_stringify h v = Return json /\
      ensureNonEmpty v name h =
        Throw (ValidationError (not_empty_message (default "value" name) json))).
  { intros [->|[(l & -> & Hl)|(l & o & -> & Hl & Htag & Hps)]].
    - eexists. split; [apply JSON_stringify_empty_string|].
      unfold ensureNonEmpty. rewrite JSON_stringify_empty_string. reflexivity.
    - eexists. split; [by apply JSON_stringify_empty_array|].
      unfold ensureNonEmpty. rewrite (JSON_stringify_empty_array _ _ Hl).
      simpl. rewrite Hl. reflexivity.
    - destruct (JSON_stringify_no_keys _ _ _ Hl Htag Hps) as [json Hjson].
      exists json. split; [done|].
      unfold ensureNonEmpty. rewrite Htag, Hl, Hps, Hjson. reflexivity. }
  assert (Hreturn : ~ is_empty h v -> ensureNonEmpty v name h = Return v).
  { intros Hne. unfold ensureNonEmpty.
    destruct v as [| | |[|]| |s| |l]; try reflexivity.
    - destruct s; [|reflexivity]. destruct Hne. by left.
    - simpl. destruct (h !! l) as [o|] eqn:Hl; [|reflexivity].
      destruct o as [ps|items|f src|cls ps|cls text j ps]; try reflexivity.
      + destruct ps; [|reflexivity]. destruct Hne. right. right.
        exists l, (Plain []). simpl. rewrite Hl. done.
      + destruct items; [|reflexivity]. destruct Hne. right. left. eauto.
      + destruct ps; [|reflexivity]. destruct Hne. right. right.
        exists l, (EnumConstant cls []). simpl. rewrite Hl. done.
      + destruct ps; [|reflexivity]. destruct Hne. right. right.
        exists l, (Instance cls text j []). simpl. rewrite Hl. done. }
  split_and!.
  - split.
    + intros [e He].
      destruct (is_empty_dec h v) as [Hy|Hn]; [done|].
      rewrite (Hreturn Hn) in He. discriminate.
    + intros Hy. destruct (Hthrow Hy) as (json & _ & ->). eauto.
  - exact Hthrow.
  - exact Hreturn.
  - apply JSON_stringify_empty_string.
  - intros l. apply JSON_stringify_empty_array.
  - intros l. apply JSON_stringify_empty_object.
Qed.

(** The empty string is empty and is refused. *)
Lemma ensureNonEmpty_throws_iff_empty_witness :
  is_empty [] (VString EmptyString) /\
  exists json,
    JSON_stringify [] (VString EmptyString) = Return json /\
    ensureNonEmpty (VString EmptyString) None [] =
      Throw (ValidationError (not_empty_message "value" json)).
Proof.
  assert (Hempty : is_empty [] (VString EmptyString)) by (left; reflexivity).
  split; [exact Hempty|].
  exact (proj1 (proj2 (ensureNonEmpty_throws_iff_empty (VString EmptyString) None []))
           Hempty).
Defined.

(** ** The loops of checkType *)

Lemma checkType_union v members name h :
  checkType v (TUnion members) name h =
    check_members v name (mismatch name (TUnion members) (getType h v)) members h.
Proof.
  cbn [checkType is_builtin].
  generalize (mismatch name (TUnion members) (getType h v)) as otherwise.
  intros otherwise. revert h.
  induction members as [|T members IH]; intros h; [reflexivity|].
  cbn [check_members]. destruct (checkType v T name h) as [h' [[c|e]|e]]; auto.
Qed.

Lemma checkType_struct v fields name h :
  checkType v (TStruct fields) name h =
    match check_builtin h v TObject name with
    | Throw e => (h, Throw e)
    | Return (Error error) => (h, Return (Error error))
    | Return (Value _) => check_fields v name fields h
    end.
Proof.
  cbn [checkType is_builtin].
  destruct (check_builtin h v TObject name) as [[c|e]|e]; try reflexivity.
  revert h. induction fields as [|[key T] fields IH]; intros h; [reflexivity|].
  cbn [check_fields].
  destruct (checkType (Get h v key) T (name +:+ "." +:+ key) h) as [h' [[c'|e]|e]];
    auto.
Qed.

Lemma check_members_skip v name otherwise pre post h h1 :
  members_fail v name pre h h1 ->
  check_members v name otherwise (pre ++ post) h
    = check_members v name otherwise post h1.
Proof.
  induction 1 as [|T types h h1 h2 error HT _ IH]; [reflexivity|].
  simpl. rewrite HT. exact IH.
Qed.

Lemma check_members_value v name otherwise types h h' r :
  check_members v name otherwise types h = (h', Return (Value r)) ->
  (exists r', otherwise = Return (Value r')) \/ r = v.
Proof.
  revert h. induction types as [|T types IH]; intros h; simpl.
  - intros [= <- ->]. left. eauto.
  - destruct (checkType v T name h) as [h1 [[c|e]|e]]; try discriminate.
    + intros [= <- <-]. by right.
    + apply IH.
Qed.

Lemma mismatch_not_value name T tag r : mismatch name T tag <> Return (Value r).
Proof.
  unfold mismatch. destruct (describe T true); [|discriminate].
  simpl. destruct (describe tag true); discriminate.
Qed.

(** ** String conversion of instances and Enum constants *)

Lemma String_instance h l cls text j ps :
  h !! l = Some (Instance cls text j ps) -> String_ h (VRef l) = Return text.
Proof.
  intros Hl. unfold String_. destruct (length h); simpl; rewrite Hl; reflexivity.
Qed.

Lemma String_enum_constant h l cls ps n :
  h !! l = Some (EnumConstant cls ps) ->
  lookup_prop "name" ps = Some (VString n) ->
  String_ h (VRef l) = Return n.
Proof.
  intros Hl Hn. unfold String_.
  destruct (length h); simpl; rewrite Hl; unfold EnumConstant_toPrimitive;
    rewrite Hn; reflexivity.
Qed.

(** ** C2 and C10: union descriptors *)

Lemma describe_union members phrases :
  sequence (map (fun t => describe t true) members) = Return phrases ->
  describe (TUnion members) true = Return (join_descriptions phrases).
Proof.
  intros Hseq. cbn [describe]. rewrite Hseq.
  destruct phrases as [|a [|b [|c phrases]]]; reflexivity.
Qed.

(** When every member fails with an error the union fails with the
    joined phrases of its members, provided describe can print them. *)
Lemma checkType_union_none_matches v members name h h' phrases :
  members_fail v name members h h' ->
  sequence (map (fun t => describe t true) members) = Return phrases ->
  checkType v (TUnion members) name h =
    (h', Return (Error (must_be name (join_descriptions phrases) (phrase (getType h v))))).
Proof.
  intros Hfail Hseq. rewrite checkType_union.
  rewrite <- (app_nil_r members) at 2.
  rewrite (check_members_skip _ _ _ _ _ _ _ Hfail). simpl.
  unfold mismatch. rewrite (describe_union _ _ Hseq).
  rewrite (describe_tag _ (getType_is_tag h v)). reflexivity.
Qed.

(** The first member that matches ends the loop; the union returns the
    value it was given. *)
Lemma checkType_union_first_match v pre T post name h h1 h2 r :
  members_fail v name pre h h1 ->
  checkType v T name h1 = (h2, Return (Value r)) ->
  checkType v (TUnion (pre ++ T :: post)) name h = (h2, Return (Value v)).
Proof.
  intros Hfail HT. rewrite checkType_union.
  rewrite (check_members_skip _ _ _ _ _ _ _ Hfail). simpl. rewrite HT.
  reflexivity.
Qed.

Example ensureType_union_of_two_fails :
  ensureType (VBoolean true) (TUnion [TString; TNumber]) None [] =
    ([], Throw (ValidationError
                  "The value must be a string or a number, but it was a boolean.")).
Proof. reflexivity. Qed.

Example ensureType_union_of_three_fails :
  ensureType (VBoolean true) (TUnion [TString; TNumber; TUndefined]) None [] =
    ([], Throw (ValidationError
       "The value must be a string, a number, or undefined, but it was a boolean.")).
Proof. reflexivity. Qed.

Example ensureType_union_first_and_second_member :
  ensureType (VString "John") (TUnion [TString; TNumber]) None []
    = ([], Return (VString "John")) /\
  ensureType (VNumber (Num "42")) (TUnion [TString; TNumber]) None []
    = ([], Return (VNumber (Num "42"))).
Proof. split; reflexivity. Qed.

(** C2.  A union one of whose members is a struct descriptor, as the
    grammar of the source allows ([expectedType: type | [ type ]] with
    [Record<string, type>] a type): when no member matches, describe
    reads the [name] of the struct descriptor, which is undefined, and
    the index into it throws a TypeError.  The check of the number 42
    against the optional struct [[{ x: Number }, undefined]] ends in
    that TypeError and not in a validation error with the joined
    descriptions. *)
Theorem ensureType_union_with_struct_member_throws :
  ensureType (VNumber (Num "42"))
    (TUnion [TStruct [("x", TNumber)]; TUndefined]) None []
  = ([], Throw TypeError).
Proof. reflexivity. Qed.



(** ** C3: enumeration descriptors *)

Lemma name_is_true n s : name_is n s = true <-> n = VString s.
Proof.
  destruct n; simpl; try (split; [discriminate|intros [=]]).
  rewrite String.eqb_eq. split; [by intros ->|by intros [= ->]].
Qed.

Lemma Get_name_not_nullish h c n : Get_name h c = Return n -> is_nullish c = false.
Proof. destruct c; simpl; try discriminate; reflexivity. Qed.

Lemma first_named_find h s values c :
  first_named h s values c ->
  find_by_name h s values = Return c /\ is_nullish c = false.
Proof.
  induction 1 as [c values Hc|c' n values c Hc' Hn _ [IH1 IH2]].
  - split; [|by eapply Get_name_not_nullish].
    simpl. rewrite Hc. simpl. rewrite String.eqb_refl. reflexivity.
  - split; [|done]. simpl. rewrite Hc'. simpl. rewrite Hn. exact IH1.
Qed.

Lemma find_first_named h s values c :
  find_by_name h s values = Return c -> is_nullish c = false ->
  first_named h s values c.
Proof.
  induction values as [|c' values IH]; simpl.
  - intros [= <-]. discriminate.
  - destruct (Get_name h c') as [n|e] eqn:Hc'; [|discriminate]. simpl.
    destruct (name_is n s) eqn:Hn.
    + intros [= <-] _. apply name_is_true in Hn as ->. by constructor.
    + intros Hfind Hc. eapply first_named_later; eauto.
Qed.

Lemma Enum_valueOf_first_named E h s c :
  Enum_valueOf E h s = Return c <-> first_named h s (Enum_values E) c.
Proof.
  unfold Enum_valueOf. split.
  - destruct (find_by_name h s (Enum_values E)) as [c'|e] eqn:Hfind; [|discriminate].
    simpl. destruct (is_nullish c') eqn:Hc'; [discriminate|].
    intros [= <-]. by apply find_first_named.
  - intros [-> Hc]%first_named_find. simpl. rewrite Hc. reflexivity.
Qed.

Lemma describe_enum E :
  enum_name E <> EmptyString ->
  describe (TEnum E) true = Return (article (enum_name E)).
Proof. cbn. destruct (enum_name E); [done|reflexivity]. Qed.




Example ensureType_enum_failures :
  ensureType (VString "no-enum-constant") (TEnum YesNo) None YesNo_heap
    = (YesNo_heap, Throw (ValidationError "The value must be a YesNo, but it was a string.")) /\
  ensureType VUndefined (TEnum YesNo) None YesNo_heap
    = (YesNo_heap, Throw (ValidationError "The value must be a YesNo, but it was undefined.")) /\
  ensureType VNull (TEnum YesNo) None YesNo_heap
    = (YesNo_heap, Throw (ValidationError "The value must be a YesNo, but it was null.")).
Proof. split_and!; reflexivity. Qed.

(** ** C4: constructor descriptors *)

Lemma epoch_only_Date_like : Date_like epoch_only_Date.
Proof.
  split; try reflexivity; intros h; eexists; split; reflexivity.
Qed.

Lemma checkType_constructor_new C v name h d :
  instanceof h v C = false ->
  construct C h v = Return d ->
  checkType v (TConstructor C) name h =
    let h' := h ++ [instance_of C d] in
    if is_invalid (inst_text d)
    then (h', invalid_error h' v (getType h v) C name)
    else (h', Return (Value (VRef (length h)))).
Proof.
  intros Hinst Hd. cbn [checkType is_builtin]. rewrite Hinst. unfold new.
  rewrite Hd. cbn [alloc].
  rewrite (String_instance _ (length h) (ctor_name C) (inst_text d)
             (inst_json d) (inst_props d)) by apply list_lookup_middle, eq_refl.
  reflexivity.
Qed.

Lemma append_assoc (a b c : string) : (a +:+ b) +:+ c = a +:+ b +:+ c.
Proof.
  induction a as [|x a IH]; [reflexivity|].
  change (String x ((a +:+ b) +:+ c) = String x (a +:+ b +:+ c)). by f_equal.
Qed.

Lemma append_nil_r (a : string) : a +:+ EmptyString = a.
Proof.
  induction a as [|x a IH]; [reflexivity|].
  change (String x (a +:+ EmptyString) = String x a). by f_equal.
Qed.

Lemma invalid_error_message h v tag C name json :
  is_tag tag = true ->
  (not_nullish_type tag = true -> JSON_stringify h v = Return json) ->
  invalid_error h v tag C name =
    Return (Error (invalid_message name (ctor_name C) tag json)).
Proof.
  intros Htag Hjson. unfold invalid_error, invalid_message.
  rewrite (describe_tag _ Htag).
  cbn [describe named mbind completion_bind].
  destruct (not_nullish_type tag) eqn:Hnn.
  - rewrite (Hjson eq_refl). cbn [mbind completion_bind].
    do 2 f_equal. rewrite !append_assoc.
    destruct tag; try discriminate; reflexivity.
  - cbn [mbind completion_bind]. do 2 f_equal. rewrite !append_assoc.
    destruct tag; try discriminate; reflexivity.
Qed.

Lemma JSON_stringify_string h s :
  JSON_stringify h (VString s) = Return (JSON_quote s).
Proof. unfold JSON_stringify. rewrite Nat.add_1_r. reflexivity. Qed.



(** ** What a check may do to the heap *)

(** Induction on descriptors, through the members of a union and the
    fields of a struct. *)
Section type_induction.
Variable P : type -> Prop.
Hypothesis leaf : forall t, is_leaf t = true -> P t.
Hypothesis union : forall members, Forall P members -> P (TUnion members).
Hypothesis struct : forall fields, Forall (fun kt => P kt.2) fields -> P (TStruct fields).

Fixpoint type_induction (t : type) : P t :=
  match t with
  | TUnion members =>
      union members
        ((fix all (ts : list type) : Forall P ts :=
            match ts with
            | [] => @List.Forall_nil _ P
            | t :: ts' => @List.Forall_cons _ P t ts' (type_induction t) (all ts')
            end) members)
  | TStruct fields =>
      struct fields
        ((fix all (fs : list (string * type)) : Forall (fun kt => P kt.2) fs :=
            match fs with
            | [] => @List.Forall_nil _ (fun kt => P kt.2)
            | kt :: fs' => @List.Forall_cons _ (fun kt => P kt.2) kt fs' (type_induction kt.2) (all fs')
            end) fields)
  | t => leaf t eq_refl
  end.
End type_induction.

Lemma with_props_own o : with_props o (own_props o) = o.
Proof. by destruct o. Qed.

Lemma with_props_twice o ps ps' : with_props (with_props o ps) ps' = with_props o ps'.
Proof. by destruct o. Qed.

Lemma evolves_refl h : evolves h h.
Proof. split; [lia|]. intros l o Hl. exists (own_props o). by rewrite with_props_own. Qed.

Lemma evolves_trans h1 h2 h3 : evolves h1 h2 -> evolves h2 h3 -> evolves h1 h3.
Proof.
  intros [Hlen1 H1] [Hlen2 H2]. split; [lia|].
  intros l o Hl. destruct (H1 _ _ Hl) as [ps Hps].
  destruct (H2 _ _ Hps) as [ps' Hps']. exists ps'.
  by rewrite with_props_twice in Hps'.
Qed.

Lemma evolves_alloc h o : evolves h (h ++ [o]).
Proof.
  split; [rewrite length_app; lia|].
  intros l o' Hl. exists (own_props o'). rewrite with_props_own.
  by apply lookup_app_l_Some.
Qed.

Lemma evolves_Put h v key w : evolves h (Put h v key w).
Proof.
  unfold Put. destruct v; try apply evolves_refl.
  destruct (h !! l) as [o|] eqn:Hl; [|apply evolves_refl].
  split; [by rewrite length_insert|].
  intros l' o' Hl'. destruct (decide (l = l')) as [<-|Hne].
  - rewrite list_lookup_insert_eq by (by eapply lookup_lt_Some).
    simplify_eq. eauto.
  - rewrite list_lookup_insert_ne by done. exists (own_props o').
    by rewrite with_props_own.
Qed.

Lemma evolves_array h h' l items :
  evolves h h' -> h !! l = Some (ArrayObj items) -> h' !! l = Some (ArrayObj items).
Proof. intros [_ H] Hl. by destruct (H _ _ Hl) as [ps Hps]. Qed.

Lemma evolves_getType h h' v :
  evolves h h' -> (forall l, v = VRef l -> l < length h) ->
  getType h' v = getType h v.
Proof.
  intros [_ H] Hv. destruct v as [| | |[|]| | | |l]; try reflexivity.
  simpl. destruct (lookup_lt_is_Some_2 h l (Hv l eq_refl)) as [o Hl].
  rewrite Hl. destruct (H _ _ Hl) as [ps ->]. by destruct o.
Qed.

Lemma checkType_evolves T : forall v name h h' r,
  checkType v T name h = (h', r) -> evolves h h'.
Proof.
  induction T as [T Hleaf|members IH|fields IH] using type_induction;
    intros v name h h' r.
  - destruct T; try discriminate Hleaf;
      try (rewrite checkType_builtin by done; intros [= <- _]; apply evolves_refl).
    + cbn [checkType is_builtin]. intros [= <- _]. apply evolves_refl.
    + cbn [checkType is_builtin].
      destruct (_ ≫= _); intros [= <- _]; apply evolves_refl.
    + cbn [checkType is_builtin].
      destruct (instanceof h v C); [intros [= <- _]; apply evolves_refl|].
      unfold new. destruct (construct C h v) as [d|e];
        [|intros [= <- _]; apply evolves_refl].
      cbn [alloc]. destruct (String_ _ _) as [s|e]; [destruct (startsWith _ _)|];
        intros [= <- _]; apply evolves_alloc.
  - rewrite checkType_union.
    generalize (mismatch name (TUnion members) (getType h v)). intros otherwise.
    revert h. induction IH as [|T members HT _ IHm]; intros h; simpl.
    + intros [= <- _]. apply evolves_refl.
    + destruct (checkType v T name h) as [h1 [[c|e]|e]] eqn:E;
        try (intros [= <- _]; by eapply HT).
      intros Hrest. eapply evolves_trans; [by eapply HT|by eapply IHm].
  - rewrite checkType_struct.
    destruct (check_builtin h v TObject name) as [[c|e]|e];
      try (intros [= <- _]; apply evolves_refl).
    revert h. induction IH as [|[key T] fields HT _ IHf]; intros h; simpl.
    + intros [= <- _]. apply evolves_refl.
    + destruct (checkType (Get h v key) T _ h) as [h1 [[c'|e]|e]] eqn:E;
        try (intros [= <- _]; by eapply HT).
      intros Hrest. eapply evolves_trans; [by eapply HT|].
      eapply evolves_trans; [apply evolves_Put|by eapply IHf].
Qed.

(** ** C8: ensureArguments *)

Lemma forEach_argument_run args names types : forall index h h' r,
  forEach_argument args types names index h = (h', r) <->
  arguments_run args names index types h h' r.
Proof.
  induction types as [|T types IH]; intros index h h' r; simpl.
  - split.
    + intros [= <- <-]. constructor.
    + inversion 1. reflexivity.
  - destruct (ensureType _ T _ h) as [h1 [v|e]] eqn:E.
    + rewrite IH. split.
      * intros Hrun. by eapply arguments_next.
      * intros Hrun. inversion Hrun as [|? ? ? ? ? ? ? ? E'|? ? ? ? ? ? E']; subst;
          rewrite E in E'; by simplify_eq.
    + split.
      * intros [= <- <-]. by apply arguments_stop.
      * intros Hrun. inversion Hrun as [|? ? ? ? ? ? ? ? E'|? ? ? ? ? ? E']; subst;
          rewrite E in E'; by simplify_eq.
Qed.


Example ensureArguments_messages :
  ensureArguments [VString "John"] [] [] [] =
    ([], Throw (ValidationError "Too many arguments: expected 0, but got 1.")) /\
  ensureArguments [VNumber (Num "123"); VNumber (Num "456")] [TNumber; TString] [] [] =
    ([], Throw (ValidationError "The argument #2 must be a string, but it was a number.")) /\
  ensureArguments [VString "123"; VString "John"] [TNumber; TString] ["id"; "name"] [] =
    ([], Throw (ValidationError "The id must be a number, but it was a string.")) /\
  ensureArguments [VNumber (Num "123"); VString "John"] [TNumber; TString] [] [] =
    ([], Return tt) /\
  ensureArguments [VNumber (Num "123")] [TNumber; TUnion [TString; TUndefined]] [] [] =
    ([], Return tt) /\
  ensureArguments [VNumber (Num "123")] [TNumber; TString] [] [] =
    ([], Throw (ValidationError "The argument #2 must be a string, but it was undefined.")).
Proof. split_and!; reflexivity. Qed.


(** ** C7: ensureItemType *)

Lemma drop_cons_lookup {A} (l : list A) n x rest :
  drop n l = x :: rest -> l !! n = Some x /\ drop (S n) l = rest.
Proof.
  intros Hdrop.
  assert (Hx : l !! n = Some x).
  { rewrite <- (Nat.add_0_r n), <- lookup_drop, Hdrop. reflexivity. }
  split; [done|]. rewrite (drop_S _ _ _ Hx) in Hdrop. congruence.
Qed.

Lemma forEach_item_run l D name rest : forall index h cur h' r,
  h !! l = Some (ArrayObj cur) ->
  drop index cur = rest ->
  forEach_item (length rest) index l D name h = (h', r) <->
  items_run l D name index rest h h' r.
Proof.
  induction rest as [|item rest IH]; intros index h cur h' r Hl Hdrop.
  - simpl. split.
    + intros [= <- <-]. constructor.
    + inversion 1. reflexivity.
  - apply drop_cons_lookup in Hdrop as [Hitem Hdrop].
    cbn [length forEach_item]. rewrite Hl, Hitem.
    destruct (checkType item D _ h) as [h1 [[c|e]|e]] eqn:E.
    + assert (Hl1 : h1 !! l = Some (ArrayObj cur))
        by (eapply evolves_array; [by eapply checkType_evolves|done]).
      rewrite (IH (S index) _ (<[index := c]> cur)).
      * split.
        -- intros Hrun. by eapply items_next.
        -- intros Hrun.
           inversion Hrun as [|? ? ? ? ? ? ? ? E'|? ? ? ? ? ? E'|? ? ? ? ? ? E'];
             subst; rewrite E in E'; by simplify_eq.
      * unfold Put_index. rewrite Hl1.
        apply list_lookup_insert_eq. by eapply lookup_lt_Some.
      * rewrite drop_insert_lt by lia. done.
    + split.
      * intros [= <- <-]. by apply items_error.
      * intros Hrun.
        inversion Hrun as [|? ? ? ? ? ? ? ? E'|? ? ? ? ? ? E'|? ? ? ? ? ? E'];
          subst; rewrite E in E'; by simplify_eq.
    + split.
      * intros [= <- <-]. by apply items_throw.
      * intros Hrun.
        inversion Hrun as [|? ? ? ? ? ? ? ? E'|? ? ? ? ? ? E'|? ? ? ? ? ? E'];
          subst; rewrite E in E'; by simplify_eq.
Qed.

(** A run that ends well leaves an array of the same length at [l]. *)
Lemma items_run_array l D name rest : forall index h cur h',
  h !! l = Some (ArrayObj cur) ->
  items_run l D name index rest h h' (Return tt) ->
  exists final, h' !! l = Some (ArrayObj final) /\ length final = length cur.
Proof.
  induction rest as [|item rest IH]; intros index h cur h' Hl Hrun.
  - inversion Hrun; subst. eauto.
  - inversion Hrun as [|? ? ? ? h1 c ? ? E Hrest| |]; subst.
    assert (Hl1 : h1 !! l = Some (ArrayObj cur))
      by (eapply evolves_array; [by eapply checkType_evolves|done]).
    destruct (IH (S index) (Put_index h1 l index c) (<[index := c]> cur) h')
      as (final & Hfinal & Hlen); [|done|].
    + unfold Put_index. rewrite Hl1.
      apply list_lookup_insert_eq. by eapply lookup_lt_Some.
    + exists final. split; [done|]. by rewrite Hlen, length_insert.
Qed.

Lemma getType_array h v :
  getType h v = TArray <-> exists l items, v = VRef l /\ h !! l = Some (ArrayObj items).
Proof.
  split.
  - destruct v as [| | |[|]| | | |l]; try discriminate. simpl.
    destruct (h !! l) as [[]|] eqn:Hl; try discriminate. eauto.
  - intros (l & items & -> & Hl). simpl. by rewrite Hl.
Qed.


Example ensureItemType_examples :
  let names := [ArrayObj [VString "John"; VString "Jane"]] in
  let mixed := [ArrayObj [VString "John"; VNumber (Num "123")]] in
  ensureItemType (VRef 0) TString None names = (names, Return (VRef 0)) /\
  ensureItemType (VRef 0) TString None mixed =
    (mixed, Throw (ValidationError "The value.1 must be a string, but it was a number.")) /\
  ensureItemType (VString "John") TString (Some "names") [] =
    ([], Throw (ValidationError "The names must be an array, but it was a string.")).
Proof. split_and!; reflexivity. Qed.


(** ** C5: struct descriptors *)

Lemma check_fields_run v name fields : forall h h' r,
  check_fields v name fields h = (h', r) <-> fields_run v name fields h h' r.
Proof.
  induction fields as [|[key T] fields IH]; intros h h' r.
  - simpl. split.
    + intros [= <- <-]. constructor.
    + inversion 1. reflexivity.
  - cbn [check_fields].
    destruct (checkType (Get h v key) T _ h) as [h1 [[c|e]|e]] eqn:E.
    + rewrite IH. split.
      * intros Hrun. by eapply fields_next.
      * intros Hrun.
        inversion Hrun as [|? ? ? ? ? ? ? ? E'|? ? ? ? ? ? E'|? ? ? ? ? ? E'];
          subst; rewrite E in E'; by simplify_eq.
    + split.
      * intros [= <- <-]. by apply fields_error.
      * intros Hrun.
        inversion Hrun as [|? ? ? ? ? ? ? ? E'|? ? ? ? ? ? E'|? ? ? ? ? ? E'];
          subst; rewrite E in E'; by simplify_eq.
    + split.
      * intros [= <- <-]. by apply fields_throw.
      * intros Hrun.
        inversion Hrun as [|? ? ? ? ? ? ? ? E'|? ? ? ? ? ? E'|? ? ? ? ? ? E'];
          subst; rewrite E in E'; by simplify_eq.
Qed.

Lemma fields_run_value v name fields h h' r :
  fields_run v name fields h h' (Return (Value r)) -> r = v.
Proof.
  remember (Return (Value r)) as res eqn:Hres.
  induction 1; try discriminate; [by injection Hres|auto].
Qed.

(** A run that ends in an error: the fields before the failing one
    passed, and the error and the heap are those of the failing field. *)
Lemma fields_run_error v name fields h h' error :
  fields_run v name fields h h' (Return (Error error)) ->
  exists passed key T rest h1,
    fields = passed ++ (key, T) :: rest /\
    fields_run v name passed h h1 (Return (Value v)) /\
    checkType (Get h1 v key) T (name +:+ "." +:+ key) h1 = (h', Return (Error error)).
Proof.
  remember (Return (Error error)) as res eqn:Hres.
  induction 1 as [h|key T fields h h1 c h2 r E Hrest IH|key T fields h h1 e E|];
    try discriminate.
  - destruct (IH Hres) as (passed & key' & T' & rest & h3 & -> & Hpassed & Hfail).
    exists ((key, T) :: passed), key', T', rest, h3. split_and!; [done| |done].
    by eapply fields_next.
  - injection Hres as ->.
    exists [], key, T, fields, h. split_and!; [done|constructor|done].
Qed.

Lemma lookup_assign_prop key w ps : lookup_prop key (assign_prop key w ps) = Some w.
Proof.
  induction ps as [|[k x] ps IH]; simpl.
  - by rewrite String.eqb_refl.
  - destruct (String.eqb k key) eqn:E; simpl.
    + by rewrite String.eqb_refl.
    + by rewrite E.
Qed.

Lemma lookup_assign_prop_ne key key' w ps :
  key <> key' -> lookup_prop key' (assign_prop key w ps) = lookup_prop key' ps.
Proof.
  intros Hne. induction ps as [|[k x] ps IH]; simpl.
  - by apply String.eqb_neq in Hne as ->.
  - destruct (String.eqb k key) eqn:E; simpl.
    + apply String.eqb_eq in E as ->. by apply String.eqb_neq in Hne as ->.
    + by rewrite IH.
Qed.

Lemma getType_object h l :
  getType h (VRef l) = TObject -> l < length h ->
  exists o, h !! l = Some o /\ forall ps, own_props (with_props o ps) = ps.
Proof.
  intros Htag Hl. destruct (lookup_lt_is_Some_2 h l Hl) as [o Ho].
  exists o. split; [done|]. simpl in Htag. rewrite Ho in Htag.
  by destruct o.
Qed.

(** The assignment [value[key] = w] is read back by [value[key]]. *)
Lemma Get_Put h l key w :
  getType h (VRef l) = TObject -> l < length h ->
  Get (Put h (VRef l) key w) (VRef l) key = w.
Proof.
  intros Htag Hl. destruct (getType_object _ _ Htag Hl) as (o & Ho & Hps).
  unfold Put, Get. rewrite Ho.
  rewrite list_lookup_insert_eq by done. by rewrite Hps, lookup_assign_prop.
Qed.


Example checkType_struct_examples :
  let user := [Plain [("name", VString "John"); ("age", VString "42")]] in
  let S := [("name", TString); ("age", TNumber)] in
  ensureType (VRef 0) (TStruct S) (Some "User") user =
    (user, Throw (ValidationError "The User.age must be a number, but it was a string.")) /\
  ensureType VUndefined (TStruct S) (Some "User") user =
    (user, Throw (ValidationError "The User must be an object, but it was undefined.")) /\
  ensureType VNull (TStruct S) (Some "User") user =
    (user, Throw (ValidationError "The User must be an object, but it was null.")) /\
  ensureType (VRef 0) (TStruct [("age", TEnum YesNo)])
      None (YesNo_heap ++ [Plain [("age", VString "yes")]]) =
    (YesNo_heap ++ [Plain [("age", VString "yes")]],
     Throw (ValidationError "The value.age must be a YesNo, but it was undefined.")) /\
  ensureType (VRef 2) (TStruct [("age", TEnum YesNo)])
      None (YesNo_heap ++ [Plain [("age", VString "yes")]]) =
    (YesNo_heap ++ [Plain [("age", VRef 0)]], Return (VRef 2)).
Proof. split_and!; reflexivity. Qed.


(** ** C6: checking a struct twice *)

Lemma footprint_struct fields h l :
  footprint (TStruct fields) h (VRef l) = l :: fields_footprint fields h (VRef l).
Proof.
  cbn [footprint]. f_equal. induction fields as [|[key T] fields IH]; [done|].
  cbn [fields_footprint]. by rewrite IH.
Qed.

Lemma conforms_struct fields h v :
  conforms (TStruct fields) h v <->
  exists l ps, v = VRef l /\ h !! l = Some (Plain ps) /\ fields_conform fields h ps.
Proof.
  cbn [conforms].
  assert (Heq : forall ps,
    (fix each (fields : list (string * type)) : Prop :=
       match fields with
       | [] => True
       | (key, type) :: fields' =>
           (exists w, lookup_prop key ps = Some w /\ conforms type h w)
           /\ each fields'
       end) fields <-> fields_conform fields h ps).
  { intros ps. induction fields as [|[key T] fields IH]; [done|].
    cbn [fields_conform]. by rewrite IH. }
  split; intros (l & ps & Hv & Hl & Hf); exists l, ps; by rewrite Heq in *.
Qed.

Lemma changes_refl h F : changes h h F.
Proof. split; auto. Qed.

Lemma changes_mono h h' F F' : changes h h' F -> F ⊆ F' -> changes h h' F'.
Proof.
  intros [H1 H2] Hsub. split; [|done].
  intros l o Hl. destruct (H1 _ _ Hl) as [?|[? ?]]; [by left|right]. auto.
Qed.

Lemma changes_trans h1 h2 h3 F : changes h1 h2 F -> changes h2 h3 F -> changes h1 h3 F.
Proof.
  intros [Ha1 Ha2] [Hb1 Hb2]. split.
  - intros l o Hl. destruct (Ha1 _ _ Hl) as [Hsame|(HF & ps & ps' & -> & Hps')].
    + destruct (Hb1 _ _ Hsame) as [?|(? & ps & ps' & -> & ?)]; [by left|right].
      split; [done|]. eauto.
    + right. split; [done|]. exists ps.
      destruct (Hb1 _ _ Hps') as [?|(_ & ps1 & ps2 & [= <-] & ?)]; eauto.
  - intros l Hl. destruct (Ha2 _ Hl) as [Hnone|(cls & text & json & ps & Hinst)].
    + by apply Hb2.
    + right. destruct (Hb1 _ _ Hinst) as [?|(_ & ? & ? & [=] & _)]. eauto.
Qed.

Lemma changes_alloc h cls text json ps :
  changes h (h ++ [Instance cls text json ps]) [].
Proof.
  split.
  - intros l o Hl. left. by apply lookup_app_l_Some.
  - intros l Hl. apply lookup_ge_None in Hl.
    destruct (decide (l = length h)) as [->|Hne].
    + right. exists cls, text, json, ps. by apply list_lookup_middle.
    + left. apply lookup_ge_None. rewrite length_app. simpl. lia.
Qed.

Lemma changes_Put h l ps key w :
  h !! l = Some (Plain ps) -> changes h (Put h (VRef l) key w) [l].
Proof.
  intros Hl. unfold Put. rewrite Hl. split.
  - intros l' o' Hl'. destruct (decide (l = l')) as [<-|Hne].
    + right. split; [apply list_elem_of_here|]. simplify_eq. exists ps. eexists. split; [done|].
      apply list_lookup_insert_eq. by eapply lookup_lt_Some.
    + left. by rewrite list_lookup_insert_ne.
  - intros l' Hl'. left. destruct (decide (l = l')) as [<-|Hne]; [congruence|].
    by rewrite list_lookup_insert_ne.
Qed.

Lemma changes_getType h h' F v : changes h h' F -> getType h' v = getType h v.
Proof.
  intros [H1 H2]. destruct v as [| | |[|]| | | |l]; try reflexivity. simpl.
  destruct (h !! l) as [o|] eqn:Hl.
  - destruct (H1 _ _ Hl) as [->|(_ & ps & ps' & -> & ->)]; reflexivity.
  - destruct (H2 _ Hl) as [->|(cls & text & json & ps & ->)]; reflexivity.
Qed.

Lemma changes_unchanged h h' F l o :
  changes h h' F -> h !! l = Some o -> l ∉ F -> h' !! l = Some o.
Proof. intros [H1 _] Hl HF. by destruct (H1 _ _ Hl) as [?|[? _]]. Qed.

Lemma changes_not_plain h h' F l o :
  changes h h' F -> h !! l = Some o -> (forall ps, o <> Plain ps) -> h' !! l = Some o.
Proof.
  intros [H1 _] Hl Ho. destruct (H1 _ _ Hl) as [?|(_ & ps & _ & -> & _)]; [done|].
  by destruct (Ho ps).
Qed.

Lemma changes_plain h h' F l ps :
  changes h h' F -> h !! l = Some (Plain ps) -> exists ps', h' !! l = Some (Plain ps').
Proof.
  intros [H1 _] Hl. destruct (H1 _ _ Hl) as [?|(_ & ? & ps' & _ & ?)]; eauto.
Qed.

Lemma upper_char_idempotent c : upper_char (upper_char c) = upper_char c.
Proof. destruct c as [[] [] [] [] [] [] [] []]; reflexivity. Qed.

Lemma toUpperCase_idempotent s : toUpperCase (toUpperCase s) = toUpperCase s.
Proof.
  induction s as [|c s IH]; [done|]. simpl. by rewrite upper_char_idempotent, IH.
Qed.

Lemma footprint_not_struct t h v : is_leaf t = true -> footprint t h v = [].
Proof. by destruct t, v. Qed.

Lemma footprint_union members h v : footprint (TUnion members) h v = [].
Proof. by destruct v. Qed.

Lemma Get_plain h l ps key w :
  h !! l = Some (Plain ps) -> lookup_prop key ps = Some w -> Get h (VRef l) key = w.
Proof. intros Hl Hw. unfold Get. rewrite Hl. simpl. by rewrite Hw. Qed.

(** The footprint is read off the objects that are in it. *)
Lemma footprint_frame t : forall h h2 v,
  (forall l, l ∈ footprint t h v -> h2 !! l = h !! l) ->
  footprint t h2 v = footprint t h v.
Proof.
  induction t as [t Hleaf|members _|fields IH] using type_induction; intros h h2 v Hsame.
  - by rewrite !footprint_not_struct.
  - by rewrite !footprint_union.
  - destruct v as [| | | | | | |l]; try reflexivity.
    rewrite !footprint_struct in *. f_equal.
    assert (Hget : forall key, Get h2 (VRef l) key = Get h (VRef l) key).
    { intros key. unfold Get. by rewrite (Hsame l (list_elem_of_here _ _)). }
    assert (Hsub : forall l', l' ∈ fields_footprint fields h (VRef l) -> h2 !! l' = h !! l').
    { intros l' Hl'. apply Hsame. by apply list_elem_of_further. }
    clear Hsame. induction IH as [|[key T] fields HT _ IHf]; [done|].
    cbn [fields_footprint] in *. rewrite Hget. f_equal.
    + apply HT. intros l' Hl'. apply Hsub, elem_of_app. by left.
    + apply IHf. intros l' Hl'. apply Hsub, elem_of_app. by right.
Qed.

Lemma enum_of_constants_changes h h' F E :
  enum_of_constants h E -> changes h h' F -> enum_of_constants h' E.
Proof.
  intros HE Hch l Hl. destruct (HE l Hl) as (cls & ps & Hc).
  exists cls, ps. by eapply changes_not_plain.
Qed.

Lemma supported_changes t : forall h h' F,
  supported h t -> changes h h' F -> supported h' t.
Proof.
  induction t as [t Hleaf|members _|fields IH] using type_induction;
    intros h h' F Hsup Hch.
  - inversion Hsup; subst; try discriminate Hleaf.
    + by apply supported_builtin.
    + apply supported_enum. by eapply enum_of_constants_changes.
    + apply supported_constructor.
  - inversion Hsup; subst; [discriminate|]. by apply supported_union.
  - inversion Hsup as [? Hb| | | |? Hkeys Hfields]; subst; [discriminate|].
    apply supported_struct; [done|].
    clear Hsup Hkeys. induction IH as [|kt fields HT _ IHf]; [constructor|].
    inversion Hfields; subst. constructor; [by eapply HT|by apply IHf].
Qed.

Lemma Get_name_changes h h' F E c :
  enum_of_constants h E -> changes h h' F -> c ∈ Enum_values E ->
  Get_name h' c = Get_name h c.
Proof.
  intros HE Hch Hc. destruct c as [| | | | | | |l]; try reflexivity.
  destruct (HE l Hc) as (cls & ps & Hl). simpl.
  rewrite Hl, (changes_not_plain _ _ _ _ _ Hch Hl); done.
Qed.

Lemma find_by_name_changes h h' F E n :
  enum_of_constants h E -> changes h h' F ->
  find_by_name h' n (Enum_values E) = find_by_name h n (Enum_values E).
Proof.
  intros HE Hch.
  assert (Hall : forall c, c ∈ Enum_values E -> Get_name h' c = Get_name h c)
    by (intros c Hc; by eapply Get_name_changes).
  induction (Enum_values E) as [|c values IH]; [done|].
  simpl. rewrite (Hall c (list_elem_of_here _ _)).
  destruct (Get_name h c) as [m|e]; [|done]. simpl.
  destruct (name_is m n); [done|]. apply IH.
  intros c' Hc'. by apply Hall, list_elem_of_further.
Qed.

(** A value that conforms still does after changes elsewhere. *)
Lemma conforms_changes t : forall h h2 F v,
  conforms t h v -> supported h t -> changes h h2 F ->
  (forall l, l ∈ footprint t h v -> l ∉ F) ->
  conforms t h2 v.
Proof.
  induction t as [t Hleaf|members _|fields IH] using type_induction;
    intros h h2 F v Hconf Hsup Hch Hdisj.
  - destruct t; try discriminate Hleaf; cbn [conforms] in *;
      try (by rewrite (changes_getType _ _ _ _ Hch)).
    + destruct Hconf as (l & cls & ps & n & -> & Hl & Hn & Hup & Hfind).
      inversion Hsup as [? Hb|? HE| | |]; subst; [discriminate|].
      exists l, cls, ps, n. split_and!; try done.
      * by eapply changes_not_plain.
      * by rewrite (find_by_name_changes _ _ _ _ _ HE Hch).
    + unfold instanceof in *. destruct v as [| | | | | | |l]; try done.
      destruct (h !! l) as [[]|] eqn:Hl; try done.
      by rewrite (changes_not_plain _ _ _ _ _ Hch Hl).
  - cbn [conforms] in *. by rewrite (changes_getType _ _ _ _ Hch).
  - apply conforms_struct in Hconf as (l & ps & -> & Hl & Hfields).
    apply conforms_struct. exists l, ps. rewrite footprint_struct in Hdisj.
    split_and!; [done| |].
    + eapply changes_unchanged; [done..|]. apply Hdisj, list_elem_of_here.
    + inversion Hsup as [? Hb| | | |? Hkeys Hsupf]; subst; [discriminate|].
      assert (Hsub : forall l', l' ∈ fields_footprint fields h (VRef l) -> l' ∉ F)
        by (intros l' Hl'; by apply Hdisj, list_elem_of_further).
      clear Hdisj Hsup Hkeys.
      induction IH as [|[key T] fields HT _ IHf]; [done|].
      destruct Hfields as [(w & Hw & Hconf) Hrest]. inversion Hsupf; subst.
      cbn [fields_footprint] in Hsub. rewrite (Get_plain _ _ _ _ _ Hl Hw) in Hsub.
      split.
      * exists w. split; [done|]. eapply HT; [done..|].
        intros l' Hl'. apply Hsub, elem_of_app. by left.
      * apply IHf; [done..|]. intros l' Hl'. apply Hsub, elem_of_app. by right.
Qed.

Lemma check_members_builtin v name otherwise members h :
  Forall (fun m => is_builtin m = true) members ->
  check_members v name otherwise members h =
    (h, if existsb (same_type (getType h v)) members then Return (Value v)
        else otherwise).
Proof.
  induction 1 as [|T members HT _ IH]; [done|].
  cbn [check_members existsb]. rewrite checkType_builtin, check_builtin_spec by done.
  destruct (same_type (getType h v) T); [done|]. exact IH.
Qed.

Lemma assign_prop_id key w ps : lookup_prop key ps = Some w -> assign_prop key w ps = ps.
Proof.
  induction ps as [|[k x] ps IH]; [done|]. simpl.
  destruct (String.eqb k key) eqn:E.
  - intros [= ->]. by apply String.eqb_eq in E as ->.
  - intros Hw. by rewrite IH.
Qed.

Lemma Put_id h l ps key w :
  h !! l = Some (Plain ps) -> lookup_prop key ps = Some w ->
  Put h (VRef l) key w = h.
Proof.
  intros Hl Hw. unfold Put. rewrite Hl. simpl. rewrite (assign_prop_id _ _ _ Hw).
  by apply list_insert_id.
Qed.

(** A value that conforms passes the check as it is; nothing is
    assigned or allocated. *)
Lemma conforms_stable t : forall h v name,
  conforms t h v -> supported h t ->
  checkType v t name h = (h, Return (Value v)).
Proof.
  induction t as [t Hleaf|members _|fields IH] using type_induction;
    intros h v name Hconf Hsup.
  - destruct t; try discriminate Hleaf; cbn [conforms] in Hconf;
      try (rewrite checkType_builtin, check_builtin_spec, Hconf by done; reflexivity);
      try (exfalso; clear -Hconf; by destruct (getType h v)).
    + destruct Hconf as (l & cls & ps & n & -> & Hl & Hn & Hup & Hfind).
      cbn [checkType is_builtin]. rewrite (String_enum_constant _ _ _ _ _ Hl Hn).
      simpl. unfold Enum_valueOf. rewrite Hup, Hfind. reflexivity.
    + cbn [checkType is_builtin]. by rewrite Hconf.
  - inversion Hsup; subst; [discriminate|]. cbn [conforms] in Hconf.
    rewrite checkType_union, check_members_builtin, Hconf by done. reflexivity.
  - apply conforms_struct in Hconf as (l & ps & -> & Hl & Hfields).
    rewrite checkType_struct, check_builtin_spec by done.
    assert (getType h (VRef l) = TObject) as -> by (simpl; by rewrite Hl).
    cbn [same_type].
    inversion Hsup as [? Hb| | | |? Hkeys Hsupf]; subst; [discriminate|].
    clear Hsup Hkeys. induction IH as [|[key T] fields HT _ IHf]; [done|].
    destruct Hfields as [(w & Hw & Hconf) Hrest]. inversion Hsupf; subst.
    cbn [check_fields]. rewrite (Get_plain _ _ _ _ _ Hl Hw).
    rewrite (HT h w _ Hconf) by done.
    rewrite (Put_id _ _ _ _ _ Hl Hw). by apply IHf.
Qed.

Lemma first_named_in h s values c :
  first_named h s values c -> c ∈ values /\ Get_name h c = Return (VString s).
Proof.
  induction 1 as [c values Hc|c' n values c _ _ _ [IH1 IH2]].
  - split; [apply list_elem_of_here|done].
  - split; [by apply list_elem_of_further|done].
Qed.

Lemma Put_plain h l ps key w :
  h !! l = Some (Plain ps) ->
  Put h (VRef l) key w !! l = Some (Plain (assign_prop key w ps)).
Proof.
  intros Hl. unfold Put. rewrite Hl. simpl.
  apply list_lookup_insert_eq. by eapply lookup_lt_Some.
Qed.

Lemma fields_footprint_frame fields h h2 v :
  (forall key, key ∈ map fst fields -> Get h2 v key = Get h v key) ->
  (forall l, l ∈ fields_footprint fields h v -> h2 !! l = h !! l) ->
  fields_footprint fields h2 v = fields_footprint fields h v.
Proof.
  induction fields as [|[key T] fields IH]; intros Hget Hsame; [done|].
  cbn [fields_footprint] in *. rewrite Hget by apply list_elem_of_here. f_equal.
  - apply footprint_frame. intros l Hl. apply Hsame, elem_of_app. by left.
  - apply IH.
    + intros key' Hkey'. by apply Hget, list_elem_of_further.
    + intros l Hl. apply Hsame, elem_of_app. by right.
Qed.

Lemma check_fields_conforms l name fields :
  Forall (fun kt => check_conforms_at kt.2) fields ->
  forall h h' r ps,
    NoDup (map fst fields) ->
    Forall (fun kt => supported h kt.2) fields ->
    h !! l = Some (Plain ps) ->
    NoDup (l :: fields_footprint fields h (VRef l)) ->
    (forall l', l' ∈ fields_footprint fields h (VRef l) ->
                exists ps', h !! l' = Some (Plain ps')) ->
    check_fields (VRef l) name fields h = (h', Return (Value r)) ->
    r = VRef l /\
    changes h h' (l :: fields_footprint fields h (VRef l)) /\
    exists ps',
      h' !! l = Some (Plain ps') /\
      (forall key, key ∉ map fst fields -> lookup_prop key ps' = lookup_prop key ps) /\
      fields_conform fields h' ps' /\
      (forall l', l' ∈ fields_footprint fields h' (VRef l) ->
                  l' ∈ fields_footprint fields h (VRef l)).
Proof.
  induction 1 as [|[key T] fields HT _ IH];
    intros h h' r ps Hkeys Hsup Hl Hdup Hplain Hrun.
  - injection Hrun as <- <-. split_and!; [done|apply changes_refl|].
    exists ps. by split_and!.
  - cbn [check_fields] in Hrun. cbn [fields_footprint] in *.
    set (w0 := Get h (VRef l) key) in *.
    set (Fk := footprint T h w0) in *.
    set (Frest := fields_footprint fields h (VRef l)) in *.
    destruct (checkType w0 T (name +:+ "." +:+ key) h) as [h1 [[c|e]|e]] eqn:E;
      try discriminate.
    apply NoDup_cons in Hdup as [HlF Hdup].
    apply NoDup_app in Hdup as (HdupK & Hdisj & HdupR).
    change (map fst ((key, T) :: fields)) with (key :: map fst fields) in *.
    apply NoDup_cons in Hkeys as [Hkey Hkeys].
    inversion Hsup as [|? ? HsupT Hsupf]; subst.
    assert (HlK : l ∉ Fk) by (intros ?; apply HlF, elem_of_app; by left).
    assert (HlR : l ∉ Frest) by (intros ?; apply HlF, elem_of_app; by right).
    (* the field itself *)
    destruct (HT w0 (name +:+ "." +:+ key) h h1 c HsupT)
      as (Hconf & Hch1 & Hfoot1); [|done|].
    { split; [done|]. intros l' Hl'. apply Hplain, elem_of_app. by left. }
    fold Fk in Hch1, Hfoot1.
    assert (Hl1 : h1 !! l = Some (Plain ps)) by (by eapply changes_unchanged).
    set (h1' := Put h1 (VRef l) key c) in *.
    assert (Hch1' : changes h1 h1' [l]) by (by eapply changes_Put).
    assert (Hl1' : h1' !! l = Some (Plain (assign_prop key c ps)))
      by (by apply Put_plain).
    assert (Hch01 : changes h h1' (l :: Fk)).
    { eapply changes_trans.
      - eapply changes_mono; [exact Hch1|]. intros ? ?. by apply list_elem_of_further.
      - eapply changes_mono; [exact Hch1'|]. intros ? ->%list_elem_of_singleton.
        apply list_elem_of_here. }
    assert (HsameR : forall l', l' ∈ Frest -> h1' !! l' = h !! l').
    { intros l' Hl'. destruct (Hplain l') as [ps0 Hps0]; [apply elem_of_app; by right|].
      rewrite Hps0. eapply changes_unchanged; [exact Hch01|done|].
      intros [->|HK]%elem_of_cons; [done|]. by apply (Hdisj l'). }
    assert (HfootR : fields_footprint fields h1' (VRef l) = Frest).
    { apply fields_footprint_frame; [|done].
      intros key' Hkey'. unfold Get. rewrite Hl1', Hl. cbn [own_props].
      rewrite lookup_assign_prop_ne; [done|]. by intros ->. }
    (* the fields that follow *)
    destruct (IH h1' h' r (assign_prop key c ps))
      as (-> & Hch2 & ps' & Hl' & Hother & Hconfs & Hfoot2); try done.
    { eapply Forall_impl; [exact Hsupf|]. intros kt Hkt.
      eapply supported_changes; [exact Hkt|exact Hch01]. }
    { rewrite HfootR. by apply NoDup_cons. }
    { rewrite HfootR. intros l' Hl'.
      destruct (Hplain l') as [ps0 Hps0]; [apply elem_of_app; by right|].
      exists ps0. by rewrite HsameR. }
    rewrite HfootR in Hch2, Hfoot2.
    assert (Hkeyc : lookup_prop key ps' = Some c)
      by (by rewrite Hother, lookup_assign_prop).
    assert (Hch1h' : changes h1 h' (l :: Frest)).
    { eapply changes_trans; [|exact Hch2].
      eapply changes_mono; [exact Hch1'|]. intros ? ->%list_elem_of_singleton.
      apply list_elem_of_here. }
    assert (Hdisj1 : forall l', l' ∈ footprint T h1 c -> l' ∉ l :: Frest).
    { intros l' Hl1c [->|HR]%elem_of_cons.
      - by apply HlK, Hfoot1.
      - by apply (Hdisj l'), HR; apply Hfoot1. }
    assert (Hfootc : footprint T h' c = footprint T h1 c).
    { apply footprint_frame. intros l' Hl1c.
      destruct (Hplain l') as [ps0 Hps0]; [apply elem_of_app; left; by apply Hfoot1|].
      destruct (changes_plain _ _ _ _ _ Hch1 Hps0) as [ps1 Hps1].
      rewrite Hps1. eapply changes_unchanged; [exact Hch1h'|exact Hps1|].
      by apply Hdisj1. }
    split_and!; [done| |].
    + eapply changes_trans.
      * eapply changes_mono; [exact Hch01|].
        intros x [->|Hx]%elem_of_cons; [apply list_elem_of_here|].
        apply list_elem_of_further, elem_of_app. by left.
      * eapply changes_mono; [exact Hch2|].
        intros x [->|Hx]%elem_of_cons; [apply list_elem_of_here|].
        apply list_elem_of_further, elem_of_app. by right.
    + exists ps'. split_and!; [done| | |].
      * intros key' Hkey'. apply not_elem_of_cons in Hkey' as [Hne Hkey'].
        rewrite Hother by done. by apply lookup_assign_prop_ne.
      * split; [|done]. exists c. split; [done|].
        eapply conforms_changes; [exact Hconf| |exact Hch1h'|exact Hdisj1].
        eapply supported_changes; [exact HsupT|exact Hch1].
      * intros l'. rewrite (Get_plain _ _ _ _ _ Hl' Hkeyc), Hfootc.
        intros [HK|HR]%elem_of_app; apply elem_of_app; [left|right]; auto.
Qed.

Lemma conforms_builtin t h v :
  is_builtin t = true -> conforms t h v <-> same_type (getType h v) t = true.
Proof. by destruct t. Qed.

Lemma checkType_conforms t : check_conforms_at t.
Proof.
  induction t as [t Hleaf|members _|fields IH] using type_induction;
    intros v name h h' r Hsup Htree Hrun.
  - rewrite !footprint_not_struct by done.
    destruct (is_builtin t) eqn:Hb.
    { rewrite checkType_builtin, check_builtin_spec in Hrun by done.
      destruct (same_type (getType h v) t) eqn:Htag; [|discriminate].
      injection Hrun as <- <-. split_and!; [|apply changes_refl|done].
      by apply conforms_builtin. }
    destruct t; try discriminate Hleaf; try discriminate Hb.
    + discriminate Hrun.
    + cbn [checkType is_builtin] in Hrun.
      destruct (String_ h v) as [s|e] eqn:Hs; simpl in Hrun;
        [|injection Hrun as _ Hmis; by apply mismatch_not_value in Hmis].
      destruct (Enum_valueOf E h (toUpperCase s)) as [c|e] eqn:Hc;
        [|injection Hrun as _ Hmis; by apply mismatch_not_value in Hmis].
      injection Hrun as <- <-. split_and!; [|apply changes_refl|done].
      inversion Hsup as [? Hb'|? HE| | |]; subst; [discriminate|].
      apply Enum_valueOf_first_named in Hc.
      destruct (first_named_in _ _ _ _ Hc) as [Hin Hname].
      apply first_named_find in Hc as [Hfind _].
      destruct c as [| | | | | | |l]; try discriminate Hname.
      destruct (HE l Hin) as (cls & ps & Hl).
      exists l, cls, ps, (toUpperCase s). split_and!; try done.
      * simpl in Hname. rewrite Hl in Hname. simpl in Hname.
        destruct (lookup_prop "name" ps); simpl in Hname; congruence.
      * apply toUpperCase_idempotent.
    + cbn [checkType is_builtin] in Hrun.
      destruct (instanceof h v C) eqn:Hinst.
      { injection Hrun as <- <-. split_and!; [done|apply changes_refl|done]. }
      unfold new in Hrun. destruct (construct C h v) as [d|e]; [|discriminate].
      cbn [alloc] in Hrun.
      destruct (String_ _ _) as [s|e]; [|discriminate].
      destruct (startsWith _ _).
      { injection Hrun as _ Hinv. unfold invalid_error in Hinv.
        simpl in Hinv. destruct (describe (getType h v) true); simpl in Hinv;
          [|discriminate].
        destruct (not_nullish_type (getType h v)); simpl in Hinv; [|discriminate].
        destruct (JSON_stringify _ v); discriminate. }
      injection Hrun as <- <-. split_and!; [|apply changes_alloc|done].
      cbn [conforms instanceof]. rewrite list_lookup_middle by done.
      apply String.eqb_refl.
  - rewrite !footprint_union.
    inversion Hsup as [? Hb| | |? Hall|]; subst; [discriminate|].
    rewrite checkType_union, check_members_builtin in Hrun by done.
    destruct (existsb _ members) eqn:Hex;
      [|injection Hrun as _ Hmis; by apply mismatch_not_value in Hmis].
    injection Hrun as <- <-. split_and!; [done|apply changes_refl|done].
  - rewrite checkType_struct, check_builtin_spec in Hrun by done.
    destruct (same_type (getType h v) TObject) eqn:Htag; [|discriminate].
    destruct v as [| | |[|]| | | |l]; try discriminate Htag.
    destruct Htree as [Hdup Hplain]. rewrite footprint_struct in *.
    destruct (Hplain l (list_elem_of_here _ _)) as [ps Hl].
    inversion Hsup as [? Hb| | | |? Hkeys Hsupf]; subst; [discriminate|].
    destruct (check_fields_conforms l name fields IH h h' r ps)
      as (-> & Hch & ps' & Hl' & _ & Hconfs & Hfoot); try done.
    { intros l' Hl'. by apply Hplain, list_elem_of_further. }
    split_and!; [|done|].
    + apply conforms_struct. by exists l, ps'.
    + intros l'. rewrite footprint_struct.
      intros [->|Hl'']%elem_of_cons; [apply list_elem_of_here|].
      by apply list_elem_of_further, Hfoot.
Qed.


Ltac solve_not_in :=
  let H := fresh in
  intros H;
  repeat (apply elem_of_cons in H as [H|H]; [discriminate H|]);
  by apply not_elem_of_nil in H.

Ltac solve_NoDup :=
  repeat (apply NoDup_cons_2; [solve_not_in|]); apply NoDup_nil_2.

Lemma YesNo_of_constants h : enum_of_constants (YesNo_heap ++ h) YesNo.
Proof.
  intros l Hl. change (Enum_values YesNo) with [VRef 0; VRef 1] in Hl.
  apply elem_of_cons in Hl as [[= ->]|Hl]; [by eexists _, _|].
  apply list_elem_of_singleton in Hl as [= ->]. by eexists _, _.
Defined.



(** ** The fuel of the string conversions is enough *)

Lemma stack_length (stack : list nat) n :
  NoDup stack -> (forall x, x ∈ stack -> x < n) -> length stack <= n.
Proof.
  intros Hdup Hvalid.
  assert (length (seq 0 n) = n) as Hseq by apply length_seq.
  enough (length stack <= length (seq 0 n)) by lia.
  apply submseteq_length, NoDup_submseteq; [done|].
  intros x Hx. apply elem_of_seq. specialize (Hvalid x Hx). lia.
Qed.

Lemma stack_push (stack : list nat) n l :
  NoDup stack -> (forall x, x ∈ stack -> x < n) -> l ∉ stack -> l < n ->
  NoDup (l :: stack) /\ (forall x, x ∈ l :: stack -> x < n) /\ S (length stack) <= n.
Proof.
  intros Hdup Hvalid Hl Hn.
  assert (Hdup' : NoDup (l :: stack)) by (by apply NoDup_cons).
  assert (Hvalid' : forall x, x ∈ l :: stack -> x < n).
  { intros x [->|Hx]%elem_of_cons; auto. }
  split_and!; [done..|]. apply (stack_length (l :: stack) n Hdup' Hvalid').
Qed.

(** Joining an array never runs out of fuel: with as much fuel as the
    heap has objects not yet being joined, the result is the same
    whatever the fuel. *)
Lemma object_toString_fuel h : forall fuel1 fuel2 seen l,
  NoDup seen -> (forall x, x ∈ seen -> x < length h) ->
  length h <= fuel1 + length seen -> length h <= fuel2 + length seen ->
  object_toString fuel1 h seen l = object_toString fuel2 h seen l.
Proof.
  induction fuel1 as [|fuel1 IH]; intros [|fuel2] seen l Hdup Hvalid H1 H2;
    cbn [object_toString]; destruct (h !! l) as [[ps|items|f src|cls ps|cls text j ps]|] eqn:Hl;
    try reflexivity;
    destruct (bool_decide (l ∈ seen)) eqn:Hin; try reflexivity;
    apply bool_decide_eq_false in Hin;
    destruct (stack_push seen (length h) l Hdup Hvalid Hin (lookup_lt_Some _ _ _ Hl))
      as (Hdup' & Hvalid' & Hlen); try lia.
  do 2 f_equal. apply map_ext. intros [| | | | | | |l']; try reflexivity.
  apply IH; simpl; try done; lia.
Qed.

Lemma String_fuel h v fuel :
  length h <= fuel ->
  String_ h v =
    match v with
    | VSymbol description => Return ("Symbol(" +:+ description +:+ ")")
    | VRef l => object_toString fuel h [] l
    | _ => prim_toString v
    end.
Proof.
  intros Hfuel. destruct v; try reflexivity. unfold String_.
  apply object_toString_fuel; simpl; try lia; [constructor|].
  intros x Hx. by apply not_elem_of_nil in Hx.
Qed.

(** Nor does JSON.stringify: a call of toJSON and a level of nesting
    take one unit of fuel each, and no object is entered twice. *)
Lemma JSON_serialize_fuel h : forall fuel1 fuel2 stack (toJSON : bool) v,
  NoDup stack -> (forall x, x ∈ stack -> x < length h) ->
  2 * length h + (if toJSON then 1 else 0) <= fuel1 + 2 * length stack ->
  2 * length h + (if toJSON then 1 else 0) <= fuel2 + 2 * length stack ->
  JSON_serialize fuel1 h stack toJSON v = JSON_serialize fuel2 h stack toJSON v.
Proof.
  induction fuel1 as [|fuel1 IH]; intros [|fuel2] stack toJSON v Hdup Hvalid H1 H2;
    destruct v as [| | | | | | |l]; try reflexivity;
    cbn [JSON_serialize];
    pose proof (stack_length stack (length h) Hdup Hvalid) as Hstack;
    destruct (h !! l) as [o|] eqn:Hl; try reflexivity;
    destruct o as [ps|items|f src|cls ps|cls text [j|] ps]; destruct toJSON;
    try reflexivity; try lia;
    try (apply IH; try done; lia);
    destruct (bool_decide (l ∈ stack)) eqn:Hin; try reflexivity;
    apply bool_decide_eq_false in Hin;
    destruct (stack_push stack (length h) l Hdup Hvalid Hin (lookup_lt_Some _ _ _ Hl))
      as (Hdup' & Hvalid' & Hlen); try lia;
    do 2 f_equal; apply map_ext; intros item;
    (rewrite (IH fuel2 (l :: stack) true); [reflexivity|done|done|simpl; lia|simpl; lia]).
Qed.

Lemma JSON_stringify_fuel h v fuel :
  2 * length h + 1 <= fuel ->
  JSON_stringify h v = (r ← JSON_serialize fuel h [] true v; Return (default "undefined" r)).
Proof.
  intros Hfuel. unfold JSON_stringify. f_equal.
  apply JSON_serialize_fuel; simpl; try lia; [constructor|].
  intros x Hx. by apply not_elem_of_nil in Hx.
Qed.

(** ** describe *)

Lemma sequence_Return {A} (cs : list (completion A)) :
  Forall (fun c => exists a, c = Return a) cs -> exists l, sequence cs = Return l.
Proof.
  induction 1 as [|c cs [a ->] _ [l IH]]; [by exists []|].
  exists (a :: l). simpl. by rewrite IH.
Qed.

Lemma sequence_Throw {A} (cs : list (completion A)) e :
  Forall (fun c => (exists a, c = Return a) \/ c = Throw e) cs ->
  Exists (fun c => c = Throw e) cs ->
  sequence cs = Throw e.
Proof.
  induction 1 as [|c cs [[a ->]| ->] Hcs IH]; intros Hex.
  - by apply Exists_nil in Hex.
  - apply Exists_cons in Hex as [?|Hex]; [done|].
    simpl. by rewrite IH.
  - reflexivity.
Qed.

Lemma named_printable name :
  (name <> EmptyString -> exists s, named name true = Return s) /\
  (name = EmptyString -> named name true = Throw TypeError).
Proof. split; [destruct name; [done|]; eauto | by intros ->]. Qed.


(** ** What ensureType leaves of the heap *)

Lemma ensureType_heap v T name h :
  (ensureType v T name h).1 = (checkType v T (default "value" name) h).1.
Proof.
  unfold ensureType. by destruct (checkType v T (default "value" name) h) as [h' [[c|e]|e]].
Qed.

(** X2.  ensureType deletes no object and changes no array and no
    function: every object is still there after the call, with its
    class and at most other properties, so no value changes its Runtime
    Type Tag. *)
Theorem ensureType_keeps_objects v T name h :
  length h <= length (ensureType v T name h).1 /\
  (forall l o, h !! l = Some o ->
     exists ps, (ensureType v T name h).1 !! l = Some (with_props o ps)) /\
  (forall l items, h !! l = Some (ArrayObj items) ->
     (ensureType v T name h).1 !! l = Some (ArrayObj items)) /\
  (forall l f source, h !! l = Some (FunctionObj f source) ->
     (ensureType v T name h).1 !! l = Some (FunctionObj f source)) /\
  (forall w, (forall l, w = VRef l -> l < length h) ->
     getType (ensureType v T name h).1 w = getType h w).
Proof.
  rewrite ensureType_heap.
  destruct (checkType v T (default "value" name) h) as [h' r] eqn:E.
  pose proof (checkType_evolves _ _ _ _ _ _ E) as Hev. simpl.
  split_and!.
  - apply Hev.
  - apply Hev.
  - intros l items Hl. by eapply evolves_array.
  - intros l f source Hl. destruct Hev as [_ Hev].
    by destruct (Hev _ _ Hl) as [ps Hps].
  - intros w Hw. by apply evolves_getType.
Qed.

Lemma check_members_struct_free v name otherwise members :
  Forall (fun T => forall v name h, struct_free T = true ->
            exists ext, (checkType v T name h).1 = h ++ ext /\
                        Forall is_instance ext /\
                        (constructor_free T = true -> ext = [])) members ->
  forall h, forallb struct_free members = true ->
    exists ext, (check_members v name otherwise members h).1 = h ++ ext /\
                Forall is_instance ext /\
                (forallb constructor_free members = true -> ext = []).
Proof.
  induction 1 as [|T members HT _ IH]; intros h Hfree.
  - exists []. by rewrite app_nil_r.
  - simpl in Hfree. apply andb_true_iff in Hfree as [HfT Hfree].
    destruct (HT v name h HfT) as (ext1 & E1 & Hi1 & Hc1).
    cbn [check_members].
    destruct (checkType v T name h) as [h1 [[c|e]|e]]; simpl in E1; subst h1;
      try (exists ext1; split_and!; [done|done|];
           simpl; intros [Hc _]%andb_true_iff; auto).
    destruct (IH (h ++ ext1) Hfree) as (ext2 & E2 & Hi2 & Hc2).
    exists (ext1 ++ ext2). rewrite E2, app_assoc. split_and!; [done| |].
    + by apply Forall_app.
    + simpl. intros [Hc Hcs]%andb_true_iff. by rewrite Hc1, Hc2.
Qed.

Lemma checkType_struct_free T : forall v name h,
  struct_free T = true ->
  exists ext, (checkType v T name h).1 = h ++ ext /\
              Forall is_instance ext /\
              (constructor_free T = true -> ext = []).
Proof.
  induction T as [T Hleaf|members IH|fields _] using type_induction;
    intros v name h Hfree.
  - destruct T; try discriminate Hleaf;
      try (rewrite checkType_builtin by done; exists []; by rewrite app_nil_r).
    + exists []. by rewrite app_nil_r.
    + exists []. cbn [checkType is_builtin]. rewrite app_nil_r.
      by destruct (_ ≫= _).
    + cbn [checkType is_builtin].
      destruct (instanceof h v C); [exists []; by rewrite app_nil_r|].
      unfold new. destruct (construct C h v) as [d|e];
        [|exists []; by rewrite app_nil_r].
      cbn [alloc].
      exists [Instance (ctor_name C) (inst_text d) (inst_json d) (inst_props d)].
      split_and!.
      * destruct (String_ _ _) as [s|e]; [destruct (startsWith _ _)|]; reflexivity.
      * apply Forall_singleton. by eexists _, _, _, _.
      * discriminate.
  - rewrite checkType_union. by apply check_members_struct_free.
  - discriminate.
Qed.

(** X3.  Against a descriptor without a struct ensureType assigns to
    nothing: the heap it leaves is the heap it found, followed by the
    instances the constructor descriptors made; there are none when the
    descriptor holds no constructor, and the heap is then the same. *)
Theorem ensureType_struct_free_only_allocates v T name h :
  struct_free T = true ->
  exists instances,
    (ensureType v T name h).1 = h ++ instances /\
    Forall is_instance instances /\
    (constructor_free T = true -> instances = []).
Proof. intros Hfree. rewrite ensureType_heap. by apply checkType_struct_free. Qed.

Lemma ensureType_struct_free_only_allocates_witness :
  struct_free (TUnion [TString; TConstructor epoch_only_Date]) = true /\
  exists instances,
    (ensureType VNull (TUnion [TString; TConstructor epoch_only_Date]) None []).1
      = [] ++ instances /\
    Forall is_instance instances /\
    (constructor_free (TUnion [TString; TConstructor epoch_only_Date]) = true ->
     instances = []).
Proof.
  split; [reflexivity|].
  exact (ensureType_struct_free_only_allocates VNull
           (TUnion [TString; TConstructor epoch_only_Date]) None [] eq_refl).
Defined.

(** ** ensureArguments and ensureItemType on built-in descriptors *)

Lemma ensureType_builtin v T name h :
  is_builtin T = true ->
  ensureType v T (Some name) h =
    (h, if same_type (getType h v) T then Return v
        else Throw (ValidationError (must_be name (phrase T) (phrase (getType h v))))).
Proof.
  intros HT. unfold ensureType. rewrite checkType_builtin, check_builtin_spec by done.
  by destruct (same_type (getType h v) T).
Qed.

Lemma forEach_argument_builtin args names h types : forall index,
  Forall (fun T => is_builtin T = true) types ->
  (forEach_argument args types names index h).1 = h /\
  ((forEach_argument args types names index h).2 = Return tt <->
   forall i T, types !! i = Some T ->
     getType h (default VUndefined (args !! (index + i))) = T) /\
  ((forEach_argument args types names index h).2 = Return tt \/
   exists message,
     (forEach_argument args types names index h).2 = Throw (ValidationError message)).
Proof.
  induction types as [|T types IH]; intros index Hall.
  - simpl. split_and!; [done| |by left]. split; [|done]. by intros _ i T.
  - apply Forall_cons in Hall as [HT Hall]. cbn [forEach_argument].
    rewrite ensureType_builtin by done.
    destruct (same_type _ T) eqn:Hsame.
    + apply same_type_eq in Hsame as [Hsame _].
      destruct (IH (S index) Hall) as (Hh & Hiff & Hor). split_and!; [done| |done].
      rewrite Hiff. split.
      * intros Hrest [|i] T'; simpl.
        -- intros [= <-]. by rewrite Nat.add_0_r.
        -- intros Hi. rewrite Nat.add_succ_r. by apply Hrest.
      * intros Hrest i T' Hi. specialize (Hrest (S i) T' Hi).
        by rewrite Nat.add_succ_r in Hrest.
    + apply same_type_neq in Hsame; [|done]. simpl. split_and!; [done| |by eauto].
      split; [discriminate|]. intros Hrest. exfalso. apply Hsame.
      specialize (Hrest 0 T eq_refl). by rewrite Nat.add_0_r in Hrest.
Qed.

(** X4.  With built-in descriptors only, ensureArguments returns
    exactly when there are no more arguments than descriptors and every
    descriptor is the Runtime Type Tag of its argument, a missing
    argument counting as undefined; otherwise it throws a
    ValidationError; the heap is the same in either case. *)
Theorem ensureArguments_builtin_iff_tags args types names h :
  Forall (fun T => is_builtin T = true) types ->
  (ensureArguments args types names h).1 = h /\
  ((ensureArguments args types names h).2 = Return tt <->
   length args <= length types /\
   forall i T, types !! i = Some T ->
     getType h (default VUndefined (args !! i)) = T) /\
  ((ensureArguments args types names h).2 = Return tt \/
   exists message,
     (ensureArguments args types names h).2 = Throw (ValidationError message)).
Proof.
  intros Hall. unfold ensureArguments.
  destruct (length types <? length args) eqn:Hlen.
  - apply Nat.ltb_lt in Hlen. simpl. split_and!; [done| |by eauto].
    split; [discriminate|]. intros [? _]. lia.
  - apply Nat.ltb_ge in Hlen.
    destruct (forEach_argument_builtin args names h types 0 Hall) as (Hh & Hiff & Hor).
    split_and!; [done| |done]. rewrite Hiff. simpl. by intuition.
Qed.

Lemma ensureArguments_builtin_iff_tags_witness :
  Forall (fun T => is_builtin T = true) [TString; TNumber] /\
  (ensureArguments [VString "YES"] [TString; TNumber] [] []).2 <> Return tt.
Proof.
  assert (Hall : Forall (fun T => is_builtin T = true) [TString; TNumber])
    by (repeat constructor).
  split; [exact Hall|].
  intros Hret.
  pose proof (proj2 (proj1 (proj1 (proj2 (ensureArguments_builtin_iff_tags
                [VString "YES"] [TString; TNumber] [] [] Hall))) Hret) 1 TNumber eq_refl)
    as Htag.
  discriminate Htag.
Defined.

Lemma Put_index_same h l items index item :
  h !! l = Some (ArrayObj items) -> items !! index = Some item ->
  Put_index h l index item = h.
Proof.
  intros Hl Hi. unfold Put_index. rewrite Hl.
  rewrite (list_insert_id items index item Hi). by apply list_insert_id.
Qed.

Lemma forEach_item_builtin l items D name h :
  is_builtin D = true -> h !! l = Some (ArrayObj items) ->
  forall remaining index, index + remaining = length items ->
    (Forall (fun item => getType h item = D) (drop index items) /\
     forEach_item remaining index l D name h = (h, Return tt)) \/
    (exists i item,
       index <= i /\ items !! i = Some item /\ getType h item <> D /\
       (forall j item', index <= j < i -> items !! j = Some item' ->
          getType h item' = D) /\
       forEach_item remaining index l D name h =
         (h, Throw (ValidationError
                      (must_be (name +:+ "." +:+ Nat_toString i) (phrase D)
                         (phrase (getType h item)))))).
Proof.
  intros HD Hl. induction remaining as [|remaining IH]; intros index Hlen.
  - left. rewrite drop_ge by lia. by split.
  - cbn [forEach_item]. rewrite Hl.
    destruct (lookup_lt_is_Some_2 items index) as [item Hitem]; [lia|].
    rewrite Hitem, checkType_builtin, check_builtin_spec by done.
    destruct (same_type (getType h item) D) eqn:Hsame.
    + apply same_type_eq in Hsame as [Hsame _].
      rewrite (Put_index_same _ _ _ _ _ Hl Hitem).
      destruct (IH (S index)) as [[Hall Hrun]|(i & item' & Hi & Hi' & Hne & Hbefore & Hrun)];
        [lia| |].
      * left. split; [|done]. rewrite (drop_S _ _ _ Hitem). by constructor.
      * right. exists i, item'. split_and!; [lia|done|done| |done].
        intros j x Hj Hx. destruct (decide (j = index)) as [->|Hji].
        -- by simplify_eq.
        -- apply (Hbefore j); [lia|done].
    + apply same_type_neq in Hsame; [|done].
      right. exists index, item. split_and!; [lia|done|done| |done].
      intros j x Hj. lia.
Qed.



(** ** The Enum class *)

(** X6.  The Enum constructor accepts exactly a string followed by a
    number that is not NaN and makes the constant with that name and
    ordinal; any other argument list (an argument missing, one too
    many, another type, NaN as ordinal) is a ValidationError and no
    constant is made. *)
Theorem Enum_constructor_arguments cls args h :
  match args with
  | [VString name; VNumber (Num ordinal)] =>
      Enum_constructor cls args h =
        (h ++ [EnumConstant cls [("name", VString name);
                                 ("ordinal", VNumber (Num ordinal))]],
         Return (VRef (length h)))
  | _ => exists message, Enum_constructor cls args h = (h, Throw (ValidationError message))
  end.
Proof.
  assert (Hall : Forall (fun T => is_builtin T = true) [TString; TNumber])
    by (repeat constructor).
  unfold Enum_constructor, ensureArguments.
  destruct (length [TString; TNumber] <? length args) eqn:Hlen.
  { apply Nat.ltb_lt in Hlen. simpl in Hlen.
    destruct args as [|a [|b [|c args]]]; simpl in Hlen; try lia.
    destruct a; eauto. destruct b; eauto. destruct n; eauto. }
  apply Nat.ltb_ge in Hlen. simpl in Hlen.
  destruct (forEach_argument_builtin args [] h [TString; TNumber] 0 Hall)
    as (Hh & Hiff & Hor).
  destruct (forEach_argument args [TString; TNumber] [] 0 h) as [h' r].
  simpl in Hh, Hiff, Hor. subst h'.
  assert (Hshape : r = Return tt <->
            exists name ordinal, args = [VString name; VNumber (Num ordinal)]).
  { rewrite Hiff. split.
    - intros Htags.
      pose proof (Htags 0 TString eq_refl) as H0.
      pose proof (Htags 1 TNumber eq_refl) as H1.
      destruct args as [|a [|b [|c args]]]; simpl in *; try discriminate; try lia.
      destruct a as [| | |[|]| | | |l]; simpl in H0; try discriminate;
        [|by destruct (h !! l) as [[]|]].
      destruct b as [| | |[|]| | | |l]; simpl in H1; try discriminate;
        [|by destruct (h !! l) as [[]|]].
      eauto.
    - intros (name & ordinal & ->).
      intros [|[|i]] T; simpl; intros [= <-]; reflexivity. }
  destruct r as [[]|e].
  - destruct (proj1 Hshape eq_refl) as (name & ordinal & ->). reflexivity.
  - destruct Hor as [Hor|[message Hor]]; [discriminate|]. injection Hor as ->.
    assert (Hnot : ~ exists name ordinal, args = [VString name; VNumber (Num ordinal)]).
    { intros Hex. apply Hshape in Hex. discriminate. }
    destruct args as [|a [|b [|c args]]]; [by eauto|destruct a; by eauto| |simpl in Hlen; lia].
    destruct a; try by eauto. destruct b; try by eauto. destruct n; [by eauto|].
    exfalso. apply Hnot. eauto.
Qed.

Lemma find_by_name_at h s values names :
  Forall2 (fun c n => Get_name h c = Return (VString n)) values names ->
  NoDup names ->
  forall i c, values !! i = Some c -> names !! i = Some s ->
    find_by_name h s values = Return c.
Proof.
  induction 1 as [|c' n values names Hc' _ IH]; intros Hdup i c Hi Hs; [done|].
  apply NoDup_cons in Hdup as [Hn Hdup]. simpl. rewrite Hc'. simpl.
  destruct i as [|i]; simpl in Hi, Hs.
  - simplify_eq. by rewrite String.eqb_refl.
  - destruct (String.eqb_spec n s) as [->|_]; [|by eapply IH].
    exfalso. apply Hn. by eapply list_elem_of_lookup_2.
Qed.

Lemma find_by_name_none h s values names :
  Forall2 (fun c n => Get_name h c = Return (VString n)) values names ->
  s ∉ names -> find_by_name h s values = Return VUndefined.
Proof.
  induction 1 as [|c' n values names Hc' _ IH]; intros Hs; [done|].
  apply not_elem_of_cons in Hs as [Hne Hs]. simpl. rewrite Hc'. simpl.
  destruct (String.eqb_spec n s) as [->|_]; [done|by apply IH].
Qed.

Lemma constant_not_nullish h values names i c :
  Forall2 (fun c n => Get_name h c = Return (VString n)) values names ->
  values !! i = Some c -> is_nullish c = false.
Proof.
  intros Hall Hi. destruct (Forall2_lookup_l _ _ _ _ _ Hall Hi) as (n & _ & Hn).
  by eapply Get_name_not_nullish.
Qed.

(** X7.  When the constants of an enum bear pairwise distinct names,
    [valueOf] finds every constant by its own name, and for a string
    that is no constant's name it throws the error [No enum constant
    {EnumTypeName}.{name} exists.] *)
Theorem Enum_valueOf_round_trip E h names :
  constant_names h E names -> NoDup names ->
  (forall i c n, Enum_values E !! i = Some c -> names !! i = Some n ->
     Enum_valueOf E h n = Return c) /\
  (forall s, s ∉ names ->
     Enum_valueOf E h s = Throw (Error_ (no_enum_constant (enum_name E) s))).
Proof.
  intros Hnames Hdup. unfold Enum_valueOf. split.
  - intros i c n Hi Hn.
    rewrite (find_by_name_at _ _ _ _ Hnames Hdup i c Hi Hn). simpl.
    by rewrite (constant_not_nullish _ _ _ _ _ Hnames Hi).
  - intros s Hs. by rewrite (find_by_name_none _ _ _ _ Hnames Hs).
Qed.

Lemma YesNo_constant_names : constant_names YesNo_heap YesNo ["YES"; "NO"].
Proof. repeat constructor. Qed.

Lemma YesNo_names_NoDup : NoDup ["YES"; "NO"].
Proof.
  apply NoDup_cons. split; [|apply NoDup_singleton].
  intros [=]%list_elem_of_singleton.
Qed.

Lemma Enum_valueOf_round_trip_witness :
  constant_names YesNo_heap YesNo ["YES"; "NO"] /\ NoDup ["YES"; "NO"] /\
  Enum_valueOf YesNo YesNo_heap "NO" = Return (VRef 1).
Proof.
  split; [exact YesNo_constant_names|]. split; [exact YesNo_names_NoDup|].
  exact (proj1 (Enum_valueOf_round_trip YesNo YesNo_heap ["YES"; "NO"]
                  YesNo_constant_names YesNo_names_NoDup) 1 (VRef 1) "NO" eq_refl eq_refl).
Defined.



(** ** Unions of built-in descriptors *)

Lemma sequence_describe_builtin members :
  Forall (fun m => is_builtin m = true) members ->
  sequence (map (fun t => describe t true) members) = Return (map phrase members).
Proof.
  induction 1 as [|T members HT _ IH]; [done|]. simpl.
  rewrite (describe_tag T) by (by apply is_builtin_is_tag). simpl.
  by rewrite IH.
Qed.

Lemma existsb_same_type tag members :
  Forall (fun m => is_builtin m = true) members ->
  existsb (same_type tag) members = true <-> tag ∈ members.
Proof.
  induction 1 as [|T members HT _ IH]; simpl.
  - split; [discriminate|by intros ?%not_elem_of_nil].
  - rewrite orb_true_iff, IH, elem_of_cons, same_type_eq. by intuition.
Qed.

(** X9.  Against a union of built-in descriptors ensureType returns
    the value exactly when its Runtime Type Tag is one of the members;
    otherwise it throws [The {name} must be {members}, but it was
    {tag}.] with the phrases of the members joined by the list-joining
    rule; the heap is the same in either case. *)
Theorem ensureType_union_of_builtins v members name h :
  Forall (fun m => is_builtin m = true) members ->
  (getType h v ∈ members ->
   ensureType v (TUnion members) name h = (h, Return v)) /\
  (getType h v ∉ members ->
   ensureType v (TUnion members) name h =
     (h, Throw (ValidationError
                  (must_be (default "value" name) (join_descriptions (map phrase members))
                     (phrase (getType h v)))))).
Proof.
  intros Hall. unfold ensureType.
  rewrite checkType_union, check_members_builtin by done.
  pose proof (existsb_same_type (getType h v) members Hall) as Hin.
  destruct (existsb (same_type (getType h v)) members).
  - split; [done|]. intros Hnot. exfalso. by apply Hnot, Hin.
  - split; [intros Htag; apply Hin in Htag; discriminate|]. intros _.
    unfold mismatch.
    rewrite (describe_union _ _ (sequence_describe_builtin _ Hall)).
    rewrite (describe_tag _ (getType_is_tag h v)). reflexivity.
Qed.

Lemma ensureType_union_of_builtins_witness :
  Forall (fun m => is_builtin m = true) [TString; TNumber; TUndefined] /\
  ensureType (VBoolean true) (TUnion [TString; TNumber; TUndefined]) None [] =
    ([], Throw (ValidationError
                  "The value must be a string, a number, or undefined, but it was a boolean.")).
Proof.
  assert (Hall : Forall (fun m => is_builtin m = true) [TString; TNumber; TUndefined])
    by (repeat constructor).
  split; [exact Hall|].
  refine (proj2 (ensureType_union_of_builtins (VBoolean true)
                   [TString; TNumber; TUndefined] None [] Hall) _).
  intros Hin. repeat (apply elem_of_cons in Hin as [Hin|Hin]; [discriminate Hin|]).
  by apply not_elem_of_nil in Hin.
Defined.

(** ** The properties a check leaves *)

Lemma keeps_keys_refl h : keeps_keys h h.
Proof. intros l o Hl. exists (own_props o). by rewrite with_props_own. Qed.

Lemma own_props_with_props o ps :
  own_props (with_props o ps) = ps \/ own_props o = [].
Proof. destruct o; auto. Qed.

Lemma keeps_keys_trans h1 h2 h3 : keeps_keys h1 h2 -> keeps_keys h2 h3 -> keeps_keys h1 h3.
Proof.
  intros H1 H2 l o Hl. destruct (H1 _ _ Hl) as (ps & Hps & Hkeys).
  destruct (H2 _ _ Hps) as (ps' & Hps' & Hkeys'). exists ps'.
  rewrite with_props_twice in Hps'. split; [done|].
  intros key Hkey. apply Hkeys'.
  destruct (own_props_with_props o ps) as [->|Hnone]; [by apply Hkeys|].
  rewrite Hnone in Hkey. by destruct Hkey.
Qed.

Lemma keeps_keys_alloc h o : keeps_keys h (h ++ [o]).
Proof.
  intros l o' Hl. exists (own_props o'). rewrite with_props_own.
  split; [by apply lookup_app_l_Some|done].
Qed.

Lemma keeps_keys_assign key w ps key' :
  is_Some (lookup_prop key' ps) -> is_Some (lookup_prop key' (assign_prop key w ps)).
Proof.
  intros Hkey. destruct (decide (key = key')) as [<-|Hne].
  - by rewrite lookup_assign_prop.
  - by rewrite lookup_assign_prop_ne.
Qed.

Lemma keeps_keys_Put h v key w : keeps_keys h (Put h v key w).
Proof.
  unfold Put. destruct v; try apply keeps_keys_refl.
  destruct (h !! l) as [o|] eqn:Hl; [|apply keeps_keys_refl].
  intros l' o' Hl'. destruct (decide (l = l')) as [<-|Hne].
  - rewrite list_lookup_insert_eq by (by eapply lookup_lt_Some).
    simplify_eq. eexists. split; [done|]. intros key'. apply keeps_keys_assign.
  - rewrite list_lookup_insert_ne by done. exists (own_props o').
    by rewrite with_props_own.
Qed.

Lemma checkType_keeps_keys T : forall v name h h' r,
  checkType v T name h = (h', r) -> keeps_keys h h'.
Proof.
  induction T as [T Hleaf|members IH|fields IH] using type_induction;
    intros v name h h' r.
  - destruct T; try discriminate Hleaf;
      try (rewrite checkType_builtin by done; intros [= <- _]; apply keeps_keys_refl).
    + cbn [checkType is_builtin]. intros [= <- _]. apply keeps_keys_refl.
    + cbn [checkType is_builtin].
      destruct (_ ≫= _); intros [= <- _]; apply keeps_keys_refl.
    + cbn [checkType is_builtin].
      destruct (instanceof h v C); [intros [= <- _]; apply keeps_keys_refl|].
      unfold new. destruct (construct C h v) as [d|e];
        [|intros [= <- _]; apply keeps_keys_refl].
      cbn [alloc]. destruct (String_ _ _) as [s|e]; [destruct (startsWith _ _)|];
        intros [= <- _]; apply keeps_keys_alloc.
  - rewrite checkType_union.
    generalize (mismatch name (TUnion members) (getType h v)). intros otherwise.
    revert h. induction IH as [|T members HT _ IHm]; intros h; simpl.
    + intros [= <- _]. apply keeps_keys_refl.
    + destruct (checkType v T name h) as [h1 [[c|e]|e]] eqn:E;
        try (intros [= <- _]; by eapply HT).
      intros Hrest. eapply keeps_keys_trans; [by eapply HT|by eapply IHm].
  - rewrite checkType_struct.
    destruct (check_builtin h v TObject name) as [[c|e]|e];
      try (intros [= <- _]; apply keeps_keys_refl).
    revert h. induction IH as [|[key T] fields HT _ IHf]; intros h; simpl.
    + intros [= <- _]. apply keeps_keys_refl.
    + destruct (checkType (Get h v key) T _ h) as [h1 [[c'|e]|e]] eqn:E;
        try (intros [= <- _]; by eapply HT).
      intros Hrest. eapply keeps_keys_trans; [by eapply HT|].
      eapply keeps_keys_trans; [apply keeps_keys_Put|by eapply IHf].
Qed.

Lemma check_fields_defines l name fields : forall h h' r o,
  h !! l = Some o -> (forall ps, own_props (with_props o ps) = ps) ->
  check_fields (VRef l) name fields h = (h', Return (Value r)) ->
  exists ps, h' !! l = Some (with_props o ps) /\
    (forall key, is_Some (lookup_prop key (own_props o)) -> is_Some (lookup_prop key ps)) /\
    (forall key, key ∈ map fst fields -> is_Some (lookup_prop key ps)).
Proof.
  induction fields as [|[key T] fields IH]; intros h h' r o Hl Ho.
  - simpl. intros [= <- _]. exists (own_props o). rewrite with_props_own.
    split_and!; [done|done|]. by intros key ?%not_elem_of_nil.
  - cbn [check_fields].
    destruct (checkType (Get h (VRef l) key) T (name +:+ "." +:+ key) h)
      as [h1 [[coerced|error]|e]] eqn:E; try discriminate.
    intros Hrest.
    destruct (checkType_keeps_keys _ _ _ _ _ _ E l o Hl) as (ps1 & Hl1 & Hkeys1).
    assert (Hput : Put h1 (VRef l) key coerced !! l
                   = Some (with_props o (assign_prop key coerced ps1))).
    { unfold Put. rewrite Hl1. rewrite list_lookup_insert_eq by (by eapply lookup_lt_Some).
      by rewrite Ho, with_props_twice. }
    assert (Ho' : forall ps, own_props (with_props (with_props o (assign_prop key coerced ps1)) ps)
                             = ps)
      by (intros ps; by rewrite with_props_twice).
    destruct (IH _ _ _ _ Hput Ho' Hrest) as (ps & Hl' & Hkeys & Hfields).
    rewrite with_props_twice in Hl'. rewrite Ho in Hkeys.
    exists ps. split_and!; [done| |].
    + intros key' Hkey'. apply Hkeys, keeps_keys_assign. by apply Hkeys1.
    + intros key' [->|Hin]%elem_of_cons; [|by apply Hfields].
      apply Hkeys. by rewrite lookup_assign_prop.
Qed.

(** X10.  A struct check that passes leaves every key of the
    descriptor as an own property of the object, also a key the object
    did not have, whose value is then undefined; and no check removes
    a property: the object keeps every key it had. *)
Theorem ensureType_struct_defines_fields l o fields name h h' r :
  h !! l = Some o ->
  ensureType (VRef l) (TStruct fields) name h = (h', Return r) ->
  exists o',
    h' !! l = Some o' /\
    (forall key, key ∈ map fst fields -> is_Some (lookup_prop key (own_props o'))) /\
    (forall key, is_Some (lookup_prop key (own_props o)) ->
       is_Some (lookup_prop key (own_props o'))).
Proof.
  intros Hl. unfold ensureType. rewrite checkType_struct.
  rewrite check_builtin_spec by done.
  destruct (same_type (getType h (VRef l)) TObject) eqn:Htag; [|discriminate].
  apply same_type_eq in Htag as [Htag _].
  destruct (getType_object h l Htag) as (o0 & Hl0 & Ho); [by eapply lookup_lt_Some|].
  simplify_eq.
  destruct (check_fields (VRef l) (default "value" name) fields h) as [h1 [[c|e]|e]] eqn:E;
    try discriminate.
  intros [= <- _].
  destruct (check_fields_defines _ _ _ _ _ _ _ Hl Ho E) as (ps & Hl' & Hkeys & Hfields).
  exists (with_props o ps). rewrite Ho. by split_and!.
Qed.

Lemma ensureType_struct_defines_fields_witness :
  let h := [Plain [("name", VString "John")]] in
  let fields := [("name", TString); ("age", TUnion [TNumber; TUndefined])] in
  h !! 0 = Some (Plain [("name", VString "John")]) /\
  ensureType (VRef 0) (TStruct fields) None h =
    ([Plain [("name", VString "John"); ("age", VUndefined)]], Return (VRef 0)) /\
  exists o',
    [Plain [("name", VString "John"); ("age", VUndefined)]] !! 0 = Some o' /\
    (forall key, key ∈ map fst fields -> is_Some (lookup_prop key (own_props o'))) /\
    (forall key, is_Some (lookup_prop key (own_props (Plain [("name", VString "John")]))) ->
       is_Some (lookup_prop key (own_props o'))).
Proof.
  intros h fields.
  assert (Hrun : ensureType (VRef 0) (TStruct fields) None h =
                   ([Plain [("name", VString "John"); ("age", VUndefined)]], Return (VRef 0)))
    by reflexivity.
  split; [reflexivity|]. split; [exact Hrun|].
  exact (ensureType_struct_defines_fields 0 (Plain [("name", VString "John")]) fields None h
           _ _ eq_refl Hrun).
Defined.

(** ** ConfigurableResponses *)

Lemma ConfigurableResponses_calls_queue description items : forall n,
  ConfigurableResponses.calls n
    {| ConfigurableResponses.description := description;
       ConfigurableResponses.configured := ConfigurableResponses.Queue items |} =
  map (ConfigurableResponses.answer description) (take n items)
    ++ replicate (n - length items)
         (Throw (ConfigurableResponses.no_more_responses description)).
Proof.
  induction items as [|response items IH]; intros n.
  - rewrite take_nil. simpl. rewrite Nat.sub_0_r.
    induction n as [|n IHn]; [done|]. simpl. by rewrite <- IHn.
  - destruct n as [|n]; [done|].
    cbn [ConfigurableResponses.calls]. unfold ConfigurableResponses.next.
    cbn [ConfigurableResponses.configured ConfigurableResponses.description].
    assert (forall r : ConfigurableResponses.t,
              (let (r', outcome) :=
                 if ConfigurableResponses.is_undefined response
                 then (r, Throw (ConfigurableResponses.no_more_responses description))
                 else (r, Return response) in
               outcome :: ConfigurableResponses.calls n r') =
              ConfigurableResponses.answer description response
                :: ConfigurableResponses.calls n r) as ->.
    { intros r. unfold ConfigurableResponses.answer.
      by destruct (ConfigurableResponses.is_undefined response). }
    by rewrite IH.
Qed.

(** X11.  A ConfigurableResponses made of an array and a name hands out
    the items the array had on creation, one per call of [next] and in
    their order, and then throws [No more responses configured in
    {name}.] on every further call; an item that is undefined is taken
    like the others, but its call throws that same error. *)
Theorem ConfigurableResponses_next_serves_array h l items name :
  h !! l = Some (ArrayObj items) ->
  exists r,
    ConfigurableResponses.create h (VRef l) (VString name) = Return r /\
    forall n,
      ConfigurableResponses.calls n r =
        map (ConfigurableResponses.answer (" in " +:+ name)) (take n items)
          ++ replicate (n - length items)
               (Throw (Error_ ("No more responses configured in " +:+ name +:+ "."))).
Proof.
  intros Hl. eexists. split.
  - unfold ConfigurableResponses.create. simpl. rewrite Hl. reflexivity.
  - intros n. rewrite ConfigurableResponses_calls_queue.
    unfold ConfigurableResponses.no_more_responses.
    by rewrite <- append_assoc.
Qed.

Lemma ConfigurableResponses_next_serves_array_witness :
  let h := [ArrayObj [VNumber (Num "1"); VUndefined; VNumber (Num "3")]] in
  h !! 0 = Some (ArrayObj [VNumber (Num "1"); VUndefined; VNumber (Num "3")]) /\
  exists r,
    ConfigurableResponses.create h (VRef 0) (VString "stub") = Return r /\
    ConfigurableResponses.calls 4 r =
      [Return (VNumber (Num "1"));
       Throw (Error_ "No more responses configured in stub.");
       Return (VNumber (Num "3"));
       Throw (Error_ "No more responses configured in stub.")].
Proof.
  intros h. split; [reflexivity|].
  destruct (ConfigurableResponses_next_serves_array h 0
              [VNumber (Num "1"); VUndefined; VNumber (Num "3")] "stub" eq_refl)
    as (r & Hr & Hcalls).
  exists r. split; [exact Hr|]. exact (Hcalls 4).
Defined.

(** X12.  A ConfigurableResponses made of anything but an array hands
    out that one response on every call of [next], however often; made
    of undefined, it throws [No more responses configured.] on every
    call. *)
Theorem ConfigurableResponses_next_repeats_single h response n :
  getType h response <> TArray ->
  exists r,
    ConfigurableResponses.create h response VUndefined = Return r /\
    ConfigurableResponses.calls n r =
      replicate n
        (if ConfigurableResponses.is_undefined response
         then Throw (Error_ "No more responses configured.")
         else Return response).
Proof.
  intros Harray. eexists. split; [reflexivity|].
  assert (Hsingle :
            match response with
            | VRef l =>
                match h !! l with
                | Some (ArrayObj items) => ConfigurableResponses.Queue items
                | _ => ConfigurableResponses.Single response
                end
            | _ => ConfigurableResponses.Single response
            end = ConfigurableResponses.Single response).
  { destruct response as [| | | | | | |l]; try reflexivity.
    simpl in Harray. by destruct (h !! l) as [[]|]. }
  rewrite Hsingle. clear Hsingle Harray.
  induction n as [|n IH]; [done|].
  cbn [ConfigurableResponses.calls replicate]. unfold ConfigurableResponses.next.
  cbn [ConfigurableResponses.configured ConfigurableResponses.description].
  destruct (ConfigurableResponses.is_undefined response); by rewrite IH.
Qed.

Lemma ConfigurableResponses_next_repeats_single_witness :
  getType [] (VString "ok") <> TArray /\
  exists r,
    ConfigurableResponses.create [] (VString "ok") VUndefined = Return r /\
    ConfigurableResponses.calls 3 r =
      [Return (VString "ok"); Return (VString "ok"); Return (VString "ok")].
Proof.
  assert (Hne : getType [] (VString "ok") <> TArray) by discriminate.
  split; [exact Hne|].
  exact (ConfigurableResponses_next_repeats_single [] (VString "ok") 3 Hne).
Defined.

(** ** Health *)

Lemma Health_head_insert compare x sorted :
  head (Health.insert compare x sorted) =
    Some (match head sorted with
          | Some y => if (compare x y <=? 0)%Z then x else y
          | None => x
          end).
Proof. destruct sorted as [|y sorted]; [done|]. simpl. by destruct (_ <=? _)%Z. Qed.

Lemma Health_head_sort order x rest :
  head (Health.sort (fun a b => (Health.indexOf order a - Health.indexOf order b)%Z)
          (x :: rest)) =
    Some (Health.least (Health.indexOf order) x rest).
Proof.
  revert x. induction rest as [|y rest IH]; intros x; [done|].
  change (Health.sort ?c (x :: y :: rest))
    with (Health.insert c x (Health.sort c (y :: rest))).
  rewrite Health_head_insert, IH. cbn [Health.least]. f_equal.
  destruct (Z.leb_spec (Health.indexOf order x
                        - Health.indexOf order (Health.least (Health.indexOf order) y rest)) 0),
    (Z.leb_spec (Health.indexOf order x)
       (Health.indexOf order (Health.least (Health.indexOf order) y rest)));
    (done || lia).
Qed.

Lemma Health_least_spec rank rest : forall x,
  exists i,
    (x :: rest) !! i = Some (Health.least rank x rest) /\
    forall j s, (x :: rest) !! j = Some s ->
      (rank (Health.least rank x rest) <= rank s)%Z /\
      (j < i -> (rank (Health.least rank x rest) < rank s)%Z).
Proof.
  induction rest as [|y rest IH]; intros x.
  - exists 0. split; [done|]. intros [|j] s; [|done]. intros [= <-]. simpl. lia.
  - destruct (IH y) as (i & Hi & Hleast). cbn [Health.least].
    destruct (Z.leb_spec (rank x) (rank (Health.least rank y rest))) as [Hle|Hlt].
    + exists 0. split; [done|]. intros [|j] s.
      * intros [= <-]. lia.
      * intros Hs. destruct (Hleast j s Hs). lia.
    + exists (S i). split; [done|]. intros [|j] s.
      * intros [= <-]. lia.
      * intros Hs. destruct (Hleast j s Hs). split; [lia|]. intros ?. lia.
Qed.

Lemma Health_insert_Permutation compare x sorted :
  Health.insert compare x sorted ≡ₚ x :: sorted.
Proof.
  induction sorted as [|y sorted IH]; [done|]. simpl.
  destruct (_ <=? _)%Z; [done|]. rewrite IH. apply Permutation_swap.
Qed.

Lemma Health_sort_Permutation compare array : Health.sort compare array ≡ₚ array.
Proof.
  induction array as [|x array IH]; [done|]. simpl.
  by rewrite Health_insert_Permutation, IH.
Qed.

(** X13.  A SimpleStatusAggregator answers UNKNOWN for no status at
    all; otherwise its answer is one of the statuses given, none of
    them stands earlier in the aggregator's order, and of those that
    stand as early it is the first given.  A status that the order
    does not hold counts as standing before all it holds.  The array
    of statuses is reordered by the call and holds the same statuses
    afterwards. *)
Theorem getAggregateStatus_first_of_least_rank order statuses :
  (Health.getAggregateStatus order statuses).1 ≡ₚ statuses /\
  ((statuses = [] /\ (Health.getAggregateStatus order statuses).2 = Health.UNKNOWN) \/
   (exists i,
      statuses !! i = Some (Health.getAggregateStatus order statuses).2 /\
      forall j s, statuses !! j = Some s ->
        (Health.indexOf order (Health.getAggregateStatus order statuses).2
           <= Health.indexOf order s)%Z /\
        (j < i ->
         (Health.indexOf order (Health.getAggregateStatus order statuses).2
            < Health.indexOf order s)%Z))).
Proof.
  split.
  { unfold Health.getAggregateStatus. destruct (length statuses =? 0); [done|].
    apply Health_sort_Permutation. }
  destruct statuses as [|x rest]; [by left|right].
  unfold Health.getAggregateStatus. cbn [length Nat.eqb snd].
  rewrite Health_head_sort. cbn [default].
  apply Health_least_spec.
Qed.

Lemma Health_reports_cons s x statuses :
  Health.reports s (x :: statuses) = bool_decide (x = s) || Health.reports s statuses.
Proof. reflexivity. Qed.

Lemma Health_find_custom statuses s :
  List.find Health.is_custom statuses = Some s -> exists id code, s = Health.Custom id code.
Proof.
  intros [_ Hs]%find_some. destruct s; try discriminate. eauto.
Qed.

Lemma Health_worst_cons x statuses :
  Health.worst (x :: statuses) =
    if Health.is_custom x then x
    else
      match List.find Health.is_custom statuses with
      | Some s => s
      | None =>
          if bool_decide (x = Health.DOWN) || Health.reports Health.DOWN statuses
          then Health.DOWN
          else if bool_decide (x = Health.OUT_OF_SERVICE)
                  || Health.reports Health.OUT_OF_SERVICE statuses
          then Health.OUT_OF_SERVICE
          else if bool_decide (x = Health.UP) || Health.reports Health.UP statuses
          then Health.UP
          else Health.UNKNOWN
      end.
Proof. unfold Health.worst. cbn [List.find]. by destruct (Health.is_custom x). Qed.

Lemma Health_least_default rest : forall x,
  Health.least (Health.indexOf Health.DEFAULT_ORDER) x rest = Health.worst (x :: rest).
Proof.
  induction rest as [|y rest IH]; intros x; [by destruct x|].
  cbn [Health.least]. rewrite IH, (Health_worst_cons x).
  generalize (y :: rest). intros statuses. unfold Health.worst.
  destruct (List.find Health.is_custom statuses) as [s|] eqn:Hfind.
  - destruct (Health_find_custom _ _ Hfind) as (id & code & ->). by destruct x.
  - destruct (Health.reports Health.DOWN statuses),
      (Health.reports Health.OUT_OF_SERVICE statuses),
      (Health.reports Health.UP statuses); by destruct x.
Qed.

(** X14.  Under the default order the aggregate of one or more statuses
    is the first of them that is none of the four constants, if there
    is one: such a status wins even over DOWN.  Otherwise it is DOWN if
    some status is DOWN, else OUT_OF_SERVICE if some is, else UP if
    some is, else UNKNOWN. *)
Theorem getAggregateStatus_default_order statuses :
  statuses <> [] ->
  (Health.getAggregateStatus Health.DEFAULT_ORDER statuses).2 = Health.worst statuses.
Proof.
  destruct statuses as [|x rest]; [done|]. intros _.
  unfold Health.getAggregateStatus. cbn [length Nat.eqb snd].
  rewrite Health_head_sort. cbn [default]. apply Health_least_default.
Qed.

Lemma getAggregateStatus_default_order_witness :
  [Health.UP; Health.DOWN; Health.Custom 0 "DEGRADED"] <> [] /\
  (Health.getAggregateStatus Health.DEFAULT_ORDER
     [Health.UP; Health.DOWN; Health.Custom 0 "DEGRADED"]).2 = Health.Custom 0 "DEGRADED".
Proof.
  assert (Hne : [Health.UP; Health.DOWN; Health.Custom 0 "DEGRADED"] <> []) by discriminate.
  split; [exact Hne|].
  exact (getAggregateStatus_default_order
           [Health.UP; Health.DOWN; Health.Custom 0 "DEGRADED"] Hne).
Defined.

Lemma Health_collect registry : forall components statuses,
  (Health.collect registry components statuses).2 =
    statuses ++ map (fun nc => Health.status_of nc.2) registry.
Proof.
  induction registry as [|[name contributor] registry IH]; intros components statuses.
  - simpl. by rewrite app_nil_r.
  - cbn [Health.collect]. rewrite IH, <- app_assoc. reflexivity.
Qed.

(** X15.  The default health endpoint answers an empty registry with
    UP and 200.  For contributors that report the four constant
    statuses only, its body carries DOWN if some contributor is DOWN,
    else OUT_OF_SERVICE if some is, else UP if some is, else UNKNOWN,
    and its HTTP status is 503 exactly when some contributor is DOWN
    or OUT_OF_SERVICE, and 200 otherwise. *)
Theorem HealthEndpoint_health_default registry :
  Forall (fun nc => Health.is_custom (Health.status_of nc.2) = false) registry ->
  Health.status_of (Health.body (Health.HealthEndpoint_health registry Health.primary)) =
    (if decide (registry = []) then Health.UP
     else Health.worst (map (fun nc => Health.status_of nc.2) registry)) /\
  Health.status (Health.HealthEndpoint_health registry Health.primary) =
    (if Health.reports Health.DOWN (map (fun nc => Health.status_of nc.2) registry)
        || Health.reports Health.OUT_OF_SERVICE (map (fun nc => Health.status_of nc.2) registry)
     then 503 else 200)%Z.
Proof.
  intros Hknown.
  unfold Health.HealthEndpoint_health, Health.getHealth.
  pose proof (Health_collect registry [] []) as Hstatuses.
  destruct (Health.collect registry [] []) as [components statuses].
  simpl in Hstatuses. subst statuses.
  destruct (decide (registry = [])) as [->|Hne]; [done|].
  assert (Hfind : List.find Health.is_custom
                    (map (fun nc => Health.status_of nc.2) registry) = None).
  { clear Hne. induction Hknown as [|nc rest Hnc _ IH]; [done|]. simpl. by rewrite Hnc. }
  assert (Hnonempty : map (fun nc => Health.status_of nc.2) registry <> [])
    by (by destruct registry).
  set (statuses := map (fun nc => Health.status_of nc.2) registry) in *.
  assert ((0 <? length statuses) = true) as -> by (by destruct statuses).
  cbn [Health.primary Health.statusAggregator Health.httpCodeStatusMapper].
  assert (Hagg : (Health.getAggregateStatus Health.DEFAULT_ORDER statuses).2
                 = Health.worst statuses).
  { destruct statuses as [|x rest]; [done|].
    unfold Health.getAggregateStatus. cbn [length Nat.eqb snd].
    rewrite Health_head_sort. cbn [default]. apply Health_least_default. }
  destruct (Health.getAggregateStatus Health.DEFAULT_ORDER statuses) as [sorted s].
  cbn [snd] in Hagg. subst s.
  cbn [Health.body Health.status Health.status_of]. split; [done|].
  unfold Health.worst. rewrite Hfind.
  by destruct (Health.reports Health.DOWN statuses),
    (Health.reports Health.OUT_OF_SERVICE statuses),
    (Health.reports Health.UP statuses).
Qed.

Lemma HealthEndpoint_health_default_witness :
  let registry := [("db", Health.Health Health.UP VUndefined);
                   ("disk", Health.Health Health.OUT_OF_SERVICE VUndefined)] in
  Forall (fun nc => Health.is_custom (Health.status_of nc.2) = false) registry /\
  Health.status (Health.HealthEndpoint_health registry Health.primary) = 503%Z.
Proof.
  intros registry.
  assert (Hknown : Forall (fun nc => Health.is_custom (Health.status_of nc.2) = false) registry)
    by (repeat constructor).
  split; [exact Hknown|].
  exact (proj2 (HealthEndpoint_health_default registry Hknown)).
Defined.

(** ** Color *)

Lemma Color_wrap_eq z :
  Color_.wrap z = ((z + 2147483648) mod 4294967296 - 2147483648)%Z.
Proof. reflexivity. Qed.

Lemma Color_wrap_bounds z : (- 2147483648 <= Color_.wrap z < 2147483648)%Z.
Proof.
  rewrite Color_wrap_eq.
  pose proof (Z.mod_pos_bound (z + 2147483648) 4294967296). lia.
Qed.

(** The residues of ToInt32 modulo a power of two up to 2^32 are those
    of the number itself. *)
Lemma Color_wrap_div_mod z d e :
  (0 < d)%Z -> (d * 256 * e = 4294967296)%Z ->
  ((Color_.wrap z / d) mod 256 = (z / d) mod 256)%Z.
Proof.
  intros Hd He. rewrite Color_wrap_eq.
  rewrite (Z.mod_eq (z + 2147483648) 4294967296) by lia.
  set (q := ((z + 2147483648) / 4294967296)%Z).
  replace (z + 2147483648 - 4294967296 * q - 2147483648)%Z
    with (z + (- (256 * e) * q) * d)%Z by (rewrite <- He; ring).
  rewrite Z.div_add by lia.
  replace (z / d + - (256 * e) * q)%Z with (z / d + (- e * q) * 256)%Z by ring.
  apply Z.mod_add. lia.
Qed.

Lemma Color_wrap_mod z : (Color_.wrap z mod 256 = z mod 256)%Z.
Proof.
  pose proof (Color_wrap_div_mod z 1 16777216) as H.
  rewrite !Z.div_1_r in H. apply H; lia.
Qed.

Lemma Color_wrap_small z : (- 2147483648 <= z < 2147483648)%Z -> Color_.wrap z = z.
Proof. rewrite Color_wrap_eq. intros Hz. rewrite Z.mod_small; lia. Qed.

Lemma Color_bitand_255 a : Color_.bitand a 255 = (a mod 256)%Z.
Proof.
  unfold Color_.bitand. rewrite (Color_wrap_small 255) by lia.
  change 255%Z with (Z.ones 8). rewrite Z.land_ones by lia.
  apply Color_wrap_mod.
Qed.

Lemma Color_sar a count :
  (0 <= count < 32)%Z -> Color_.sar a count = (Color_.wrap a / 2 ^ count)%Z.
Proof.
  intros Hc. unfold Color_.sar.
  change 31%Z with (Z.ones 5). rewrite Z.land_ones by lia.
  rewrite Z.mod_small by (change (2 ^ 5)%Z with 32%Z; lia).
  apply Z.shiftr_div_pow2. lia.
Qed.

Lemma Color_shl a count :
  (0 <= count < 32)%Z -> Color_.shl a count = Color_.wrap (Color_.wrap a * 2 ^ count).
Proof.
  intros Hc. unfold Color_.shl.
  change 31%Z with (Z.ones 5). rewrite Z.land_ones by lia.
  rewrite Z.mod_small by (change (2 ^ 5)%Z with 32%Z; lia).
  by rewrite Z.shiftl_mul_pow2 by lia.
Qed.

Lemma Color_lor_add m lo k p :
  (0 <= k)%Z -> p = (2 ^ k)%Z -> (0 <= lo < p)%Z -> Z.lor (m * p) lo = (m * p + lo)%Z.
Proof.
  intros Hk -> Hlo.
  assert (Hland : Z.land (m * 2 ^ k) lo = 0%Z).
  { rewrite <- Z.shiftl_mul_pow2 by lia.
    apply Z.bits_inj'. intros n Hn. rewrite Z.land_spec, Z.bits_0.
    destruct (Z.lt_ge_cases n k) as [Hlt|Hge].
    - by rewrite Z.shiftl_spec_low.
    - assert (Z.testbit lo n = false) as ->; [|by rewrite andb_false_r].
      destruct (decide (lo = 0%Z)) as [->|Hne]; [apply Z.bits_0|].
      apply Z.bits_above_log2; [lia|].
      assert (Z.log2 lo < k)%Z by (apply Z.log2_lt_pow2; lia). lia. }
  rewrite Z.add_nocarry_lxor by done. symmetry. by apply Z.lxor_lor.
Qed.

Lemma Color_of_rgb_value r g b :
  Color_.rgb (Color_.of_rgb r g b) =
    Some (65536 * (r mod 256) + 256 * (g mod 256) + b mod 256)%Z.
Proof.
  unfold Color_.rgb, Color_.of_rgb. cbn [Color_.value]. f_equal.
  rewrite !Color_bitand_255, !Color_shl by lia.
  set (R := (r mod 256)%Z).
  set (G := (g mod 256)%Z).
  set (B := (b mod 256)%Z).
  assert (0 <= R < 256)%Z by (apply Z.mod_pos_bound; lia).
  assert (0 <= G < 256)%Z by (apply Z.mod_pos_bound; lia).
  assert (0 <= B < 256)%Z by (apply Z.mod_pos_bound; lia).
  rewrite (Color_wrap_small R), (Color_wrap_small G), (Color_wrap_small B) by lia.
  change (2 ^ 16)%Z with 65536%Z. change (2 ^ 8)%Z with 256%Z. change (2 ^ 0)%Z with 1%Z.
  rewrite (Color_wrap_small (R * 65536)), (Color_wrap_small (G * 256)),
    (Color_wrap_small (B * 1)) by lia.
  unfold Color_.bitor.
  rewrite (Color_wrap_small (R * 65536)), (Color_wrap_small (G * 256)) by lia.
  assert (Z.lor (R * 65536) (G * 256) = (R * 65536 + G * 256)%Z) as ->.
  { apply (Color_lor_add R (G * 256) 16); [lia|reflexivity|lia]. }
  rewrite (Color_wrap_small (R * 65536 + G * 256)), (Color_wrap_small (B * 1)) by lia.
  replace (R * 65536 + G * 256)%Z with ((R * 256 + G) * 256)%Z by lia.
  rewrite (Color_lor_add (R * 256 + G) (B * 1) 8); [lia|lia|reflexivity|lia].
Qed.

Lemma Color_components z :
  Color_.red {| Color_.value := Some z |} = ((z / 65536) mod 256)%Z /\
  Color_.green {| Color_.value := Some z |} = ((z / 256) mod 256)%Z /\
  Color_.blue {| Color_.value := Some z |} = (z mod 256)%Z.
Proof.
  unfold Color_.red, Color_.green, Color_.blue, Color_.rgb. cbn [Color_.value Color_.ToInt32].
  rewrite !Color_bitand_255, !Color_sar by lia.
  rewrite (Color_wrap_small (Color_.wrap z)) by apply Color_wrap_bounds.
  change (2 ^ 16)%Z with 65536%Z. change (2 ^ 8)%Z with 256%Z. change (2 ^ 0)%Z with 1%Z.
  split_and!.
  - apply (Color_wrap_div_mod z 65536 256); lia.
  - apply (Color_wrap_div_mod z 256 65536); lia.
  - rewrite Z.div_1_r. apply Color_wrap_mod.
Qed.

(** X16.  A colour made of three integers has the residues of the
    three modulo 256 as its red, green and blue components, and
    65536 red + 256 green + blue as its rgb value, which so lies
    between 0 and 2^24 - 1. *)
Theorem Color_of_rgb_components r g b :
  Color_.red (Color_.of_rgb r g b) = (r mod 256)%Z /\
  Color_.green (Color_.of_rgb r g b) = (g mod 256)%Z /\
  Color_.blue (Color_.of_rgb r g b) = (b mod 256)%Z /\
  Color_.rgb (Color_.of_rgb r g b) =
    Some (65536 * (r mod 256) + 256 * (g mod 256) + b mod 256)%Z.
Proof.
  pose proof (Color_of_rgb_value r g b) as Hrgb.
  destruct (Color_.of_rgb r g b) as [v].
  unfold Color_.rgb in Hrgb. cbn [Color_.value] in Hrgb. subst v.
  destruct (Color_components (65536 * (r mod 256) + 256 * (g mod 256) + b mod 256))
    as (-> & -> & ->).
  split_and!; [| | |done]; Z.div_mod_to_equations; lia.
Qed.

(** X17.  Making a colour anew from the red, green and blue components
    of a colour keeps the 24 low bits of its rgb value and nothing
    more: the colours are the same exactly when the rgb value lies
    between 0 and 2^24 - 1; a colour whose rgb value is NaN comes back
    as black. *)
Theorem Color_of_rgb_of_components c :
  Color_.rgb (Color_.of_rgb (Color_.red c) (Color_.green c) (Color_.blue c)) =
    Some (match Color_.rgb c with
          | Some z => z mod 2 ^ 24
          | None => 0
          end)%Z.
Proof.
  destruct c as [[z|]]; [|reflexivity].
  rewrite Color_of_rgb_value.
  destruct (Color_components z) as (-> & -> & ->).
  cbn [Color_.rgb Color_.value]. f_equal.
  change (2 ^ 24)%Z with 16777216%Z.
  rewrite (Z.mod_small ((z / 65536) mod 256) 256), (Z.mod_small ((z / 256) mod 256) 256),
    (Z.mod_small (z mod 256) 256) by (apply Z.mod_pos_bound; lia).
  Z.div_mod_to_equations. lia.
Qed.

Lemma Color_hex_digits_bound z :
  (0 <= z < 16777216)%Z ->
  (0 <= Z.log2 z / 4 <= 5)%Z /\ (z < 16 ^ (Z.log2 z / 4 + 1))%Z.
Proof.
  intros Hz.
  destruct (decide (z = 0%Z)) as [->|Hne]; [by split|].
  assert (Hlog : (0 <= Z.log2 z < 24)%Z).
  { split; [apply Z.log2_nonneg|]. apply Z.log2_lt_pow2; lia. }
  split; [Z.div_mod_to_equations; lia|].
  destruct (Z.log2_spec z) as [_ Hlt]; [lia|].
  eapply Z.lt_le_trans; [exact Hlt|].
  replace (16 ^ (Z.log2 z / 4 + 1))%Z with (2 ^ (4 * (Z.log2 z / 4 + 1)))%Z.
  - apply Z.pow_le_mono_r; [lia|]. Z.div_mod_to_equations. lia.
  - rewrite Z.pow_mul_r by (Z.div_mod_to_equations; lia). reflexivity.
Qed.

Lemma Color_hex_digits_pad z :
  (0 <= z < 16777216)%Z ->
  Color_.padStart (Color_.hex_digits z) 6 "0" =
    String (hex_digit (Z.to_nat ((z / 1048576) mod 16)))
      (String (hex_digit (Z.to_nat ((z / 65536) mod 16)))
         (String (hex_digit (Z.to_nat ((z / 4096) mod 16)))
            (String (hex_digit (Z.to_nat ((z / 256) mod 16)))
               (String (hex_digit (Z.to_nat ((z / 16) mod 16)))
                  (String (hex_digit (Z.to_nat (z mod 16))) EmptyString))))).
Proof.
  intros Hz. destruct (Color_hex_digits_bound z Hz) as [Hk Hlt].
  unfold Color_.hex_digits.
  assert (Hcases : (Z.log2 z / 4 = 0 \/ Z.log2 z / 4 = 1 \/ Z.log2 z / 4 = 2 \/
                    Z.log2 z / 4 = 3 \/ Z.log2 z / 4 = 4 \/ Z.log2 z / 4 = 5)%Z) by lia.
  destruct Hcases as [E|[E|[E|[E|[E|E]]]]]; rewrite E in Hlt |- *;
    match goal with
    | |- context [Z.to_nat ?k] =>
        match k with
        | Zpos _ => let n := eval vm_compute in (Z.to_nat k) in change (Z.to_nat k) with n
        | Z0 => change (Z.to_nat 0) with 0
        end
    end;
    cbn [seq rev app map string_of_list_ascii];
    change (16 ^ Z.of_nat 0)%Z with 1%Z; change (16 ^ Z.of_nat 1)%Z with 16%Z;
    change (16 ^ Z.of_nat 2)%Z with 256%Z; change (16 ^ Z.of_nat 3)%Z with 4096%Z;
    change (16 ^ Z.of_nat 4)%Z with 65536%Z; change (16 ^ Z.of_nat 5)%Z with 1048576%Z;
    unfold Color_.padStart; cbn [String.length Nat.sub repeat string_of_list_ascii];
    rewrite Z.div_1_r;
    repeat match goal with
      | |- context [(z / ?d)%Z] =>
          rewrite (Z.div_small z d)
            by (split; [lia|eapply Z.lt_le_trans; [exact Hlt|by vm_compute]])
      end;
    reflexivity.
Qed.

(** X18.  The string form of a colour made of three integers is the
    six lower-case hexadecimal digits rrggbb of the residues of the
    three modulo 256. *)
Theorem Color_toString_of_rgb r g b :
  Color_.toString (Color_.of_rgb r g b) =
    Color_.hex2 (r mod 256) +:+ Color_.hex2 (g mod 256) +:+ Color_.hex2 (b mod 256).
Proof.
  unfold Color_.toString. rewrite Color_of_rgb_value.
  set (R := (r mod 256)%Z). set (G := (g mod 256)%Z). set (B := (b mod 256)%Z).
  assert (0 <= R < 256)%Z by (apply Z.mod_pos_bound; lia).
  assert (0 <= G < 256)%Z by (apply Z.mod_pos_bound; lia).
  assert (0 <= B < 256)%Z by (apply Z.mod_pos_bound; lia).
  unfold Color_.Number_toString16.
  destruct (Z.ltb_spec (65536 * R + 256 * G + B) 0) as [?|_]; [lia|].
  rewrite Color_hex_digits_pad by lia.
  unfold Color_.hex2.
  replace ((65536 * R + 256 * G + B) / 1048576 mod 16)%Z with (R / 16)%Z
    by (Z.div_mod_to_equations; lia).
  replace ((65536 * R + 256 * G + B) / 65536 mod 16)%Z with (R mod 16)%Z
    by (Z.div_mod_to_equations; lia).
  replace ((65536 * R + 256 * G + B) / 4096 mod 16)%Z with (G / 16)%Z
    by (Z.div_mod_to_equations; lia).
  replace ((65536 * R + 256 * G + B) / 256 mod 16)%Z with (G mod 16)%Z
    by (Z.div_mod_to_equations; lia).
  replace ((65536 * R + 256 * G + B) / 16 mod 16)%Z with (B / 16)%Z
    by (Z.div_mod_to_equations; lia).
  replace ((65536 * R + 256 * G + B) mod 16)%Z with (B mod 16)%Z
    by (Z.div_mod_to_equations; lia).
  reflexivity.
Qed.

(** *** Parsing the string form *)

Lemma Color_hex_digit_chars n :
  n < 16 ->
  Color_.is_whitespace (hex_digit n) = false /\
  Ascii.eqb (hex_digit n) "-" = false /\
  Ascii.eqb (hex_digit n) "+" = false /\
  Ascii.eqb (hex_digit n) "x" = false /\
  Ascii.eqb (hex_digit n) "X" = false /\
  Color_.digit16 (hex_digit n) = Some (Z.of_nat n).
Proof.
  intros Hn. do 16 (destruct n as [|n]; [by vm_compute|]). lia.
Qed.

Lemma Color_digits16_hex ds : forall acc,
  Forall (fun d => d < 16) ds ->
  Color_.digits16 (string_of_list_ascii (map hex_digit ds)) acc =
    fold_left (fun acc d => Some (16 * default 0 acc + Z.of_nat d)%Z) ds acc.
Proof.
  induction ds as [|d ds IH]; intros acc Hds; [done|].
  apply Forall_cons in Hds as [Hd Hds]. cbn [map string_of_list_ascii Color_.digits16].
  destruct (Color_hex_digit_chars d Hd) as (_ & _ & _ & _ & _ & ->).
  by rewrite IH.
Qed.

Lemma Color_parseInt16_hex d ds :
  Forall (fun d => d < 16) (d :: ds) ->
  Color_.parseInt16 (string_of_list_ascii (map hex_digit (d :: ds))) =
    fold_left (fun acc d => Some (16 * default 0 acc + Z.of_nat d)%Z) (d :: ds) None.
Proof.
  intros Hds. rewrite <- Color_digits16_hex by done.
  apply Forall_cons in Hds as [Hd Hds].
  destruct (Color_hex_digit_chars d Hd) as (Hws & Hminus & Hplus & _ & _ & _).
  unfold Color_.parseInt16. cbn [map string_of_list_ascii Color_.trimStart].
  rewrite Hws, Hminus, Hplus.
  assert (Hprefix :
            match String (hex_digit d) (string_of_list_ascii (map hex_digit ds)) with
            | String c (String x S') =>
                if Ascii.eqb c "0" && (Ascii.eqb x "x" || Ascii.eqb x "X") then S'
                else String (hex_digit d) (string_of_list_ascii (map hex_digit ds))
            | _ => String (hex_digit d) (string_of_list_ascii (map hex_digit ds))
            end = String (hex_digit d) (string_of_list_ascii (map hex_digit ds))).
  { destruct ds as [|d' ds]; [done|]. cbn [map string_of_list_ascii].
    apply Forall_cons in Hds as [Hd' _].
    destruct (Color_hex_digit_chars d' Hd') as (_ & _ & _ & -> & -> & _).
    by rewrite andb_false_r. }
  rewrite Hprefix.
  destruct (Color_.digits16 _ None) as [z|]; simpl; [|done].
  f_equal. by destruct z.
Qed.

Lemma Color_hex_digits_lt z : (0 <= z)%Z -> (z < 16 ^ (Z.log2 z / 4 + 1))%Z.
Proof.
  intros Hz.
  destruct (decide (z = 0%Z)) as [->|Hne]; [done|].
  assert (Hlog : (0 <= Z.log2 z)%Z) by apply Z.log2_nonneg.
  destruct (Z.log2_spec z) as [_ Hlt]; [lia|].
  eapply Z.lt_le_trans; [exact Hlt|].
  replace (16 ^ (Z.log2 z / 4 + 1))%Z with (2 ^ (4 * (Z.log2 z / 4 + 1)))%Z.
  - apply Z.pow_le_mono_r; [lia|]. Z.div_mod_to_equations. lia.
  - rewrite Z.pow_mul_r by (Z.div_mod_to_equations; lia). reflexivity.
Qed.

Lemma Color_digits_value z n : forall a,
  (0 <= z)%Z ->
  fold_left (fun acc d => Some (16 * default 0 acc + Z.of_nat d)%Z)
    (map (fun i => Z.to_nat ((z / 16 ^ Z.of_nat i) mod 16)) (rev (seq 0 n))) (Some a) =
  Some (a * 16 ^ Z.of_nat n + z mod 16 ^ Z.of_nat n)%Z.
Proof.
  intros a Hz. revert a. induction n as [|n IH]; intros a.
  - simpl. f_equal. rewrite Z.mod_1_r. lia.
  - rewrite seq_S, rev_app_distr. cbn [rev app map fold_left default Nat.add].
    rewrite IH. f_equal.
    assert (Hpow : (0 < 16 ^ Z.of_nat n)%Z) by (apply Z.pow_pos_nonneg; lia).
    rewrite Z2Nat.id by (apply Z.mod_pos_bound; lia).
    rewrite Nat2Z.inj_succ, Z.pow_succ_r by lia.
    rewrite (Z.mul_comm 16 (16 ^ Z.of_nat n)), (Z.rem_mul_r z) by lia.
    unfold id. set (p := (16 ^ Z.of_nat n)%Z). ring.
Qed.

Lemma Color_zeros_value k ds :
  fold_left (fun acc d => Some (16 * default 0 acc + Z.of_nat d)%Z)
    (repeat 0 k ++ ds) (Some 0%Z) =
  fold_left (fun acc d => Some (16 * default 0 acc + Z.of_nat d)%Z) ds (Some 0%Z).
Proof. induction k as [|k IH]; [done|exact IH]. Qed.

Lemma Color_string_of_list_app l1 l2 :
  string_of_list_ascii (l1 ++ l2) = string_of_list_ascii l1 +:+ string_of_list_ascii l2.
Proof. induction l1 as [|c l1 IH]; [done|]. simpl. by rewrite IH. Qed.

Lemma Color_parseInt16_padded z k :
  (0 <= z)%Z ->
  Color_.parseInt16 (string_of_list_ascii (repeat "0"%char k) +:+ Color_.hex_digits z) = Some z.
Proof.
  intros Hz. unfold Color_.hex_digits.
  set (n := S (Z.to_nat (Z.log2 z / 4))).
  set (ds := map (fun i => Z.to_nat ((z / 16 ^ Z.of_nat i) mod 16)) (rev (seq 0 n))).
  assert (Hdigits : map (fun i => hex_digit (Z.to_nat ((z / 16 ^ Z.of_nat i) mod 16)))
                      (rev (seq 0 n)) = map hex_digit ds)
    by (unfold ds; by rewrite map_map).
  rewrite Hdigits.
  change (repeat "0"%char k) with (repeat (hex_digit 0) k).
  rewrite <- (@map_repeat nat ascii 0 k hex_digit), <- Color_string_of_list_app, <- map_app.
  assert (Hall : Forall (fun d => d < 16) (repeat 0 k ++ ds)).
  { apply Forall_app. split.
    - apply Forall_forall. intros d Hd%list_elem_of_In%repeat_spec. lia.
    - unfold ds. rewrite Forall_map. apply Forall_forall. intros i _. simpl.
      assert (0 < 16 ^ Z.of_nat i)%Z by (apply Z.pow_pos_nonneg; lia).
      pose proof (Z.mod_pos_bound (z / 16 ^ Z.of_nat i) 16). lia. }
  assert (Hvalue : fold_left (fun acc d => Some (16 * default 0 acc + Z.of_nat d)%Z)
                     (repeat 0 k ++ ds) (Some 0%Z) = Some z).
  { rewrite Color_zeros_value. unfold ds. rewrite Color_digits_value by done.
    f_equal. rewrite Z.mod_small; [lia|]. split; [done|].
    unfold n. rewrite Nat2Z.inj_succ, Z2Nat.id.
    - by apply Color_hex_digits_lt.
    - pose proof (Z.log2_nonneg z). Z.div_mod_to_equations. lia. }
  destruct (repeat 0 k ++ ds) as [|d D] eqn:HD.
  { exfalso. destruct k; [|discriminate]. unfold ds, n in HD.
    rewrite seq_S, rev_app_distr in HD. discriminate. }
  rewrite Color_parseInt16_hex by done. exact Hvalue.
Qed.

(** X19.  Reading the string form of a colour back gives the colour
    again when its rgb value is a safe integer that is not negative,
    and when it is NaN: [new Color(c.toString())] is [c]. *)
Theorem Color_of_string_toString c :
  match Color_.rgb c with
  | Some z => (0 <= z)%Z /\ safe z
  | None => True
  end ->
  Color_.of_string (Color_.toString c) = c.
Proof.
  destruct c as [[z|]]; cbn [Color_.rgb Color_.value]; [|by intros _].
  intros [Hz _]. unfold Color_.of_string, Color_.toString. cbn [Color_.rgb Color_.value].
  f_equal. unfold Color_.Number_toString16.
  destruct (Z.ltb_spec z 0) as [?|_]; [lia|].
  unfold Color_.padStart. by apply Color_parseInt16_padded.
Qed.

Lemma Color_of_string_toString_witness :
  ((0 <= 16711808)%Z /\ safe 16711808) /\
  Color_.toString {| Color_.value := Some 16711808%Z |} = "ff0080" /\
  Color_.of_string (Color_.toString {| Color_.value := Some 16711808%Z |})
    = {| Color_.value := Some 16711808%Z |}.
Proof.
  assert (H : (0 <= 16711808)%Z /\ safe 16711808)
    by (unfold safe, MAX_SAFE_INTEGER; lia).
  split; [exact H|]. split; [by vm_compute|].
  exact (Color_of_string_toString {| Color_.value := Some 16711808%Z |} H).
Defined.

(** ** Durations *)

Ltac unfold_parts :=
  unfold Time.millisPart, Time.secondsPart, Time.minutesPart, Time.hoursPart,
    Time.daysPart, Time.part, Time.isNegative, Time.ceil_div, Time.floor_div,
    Time.days, Time.hours, Time.minutes, Time.seconds, Time.trunc_div.

(** X20.  The parts of a duration add up to its length:
    millis = 86400000 daysPart + 3600000 hoursPart + 60000 minutesPart
    + 1000 secondsPart + millisPart; none of them has the sign opposite
    to that of the length, and below the days they stay within their
    units: hoursPart within 23, minutesPart and secondsPart within 59,
    millisPart within 999 in magnitude. *)
Theorem Duration_parts d :
  safe (Time.millis d) ->
  (Time.millis d =
     Time.daysPart d * 86400000 + Time.hoursPart d * 3600000
     + Time.minutesPart d * 60000 + Time.secondsPart d * 1000 + Time.millisPart d)%Z /\
  (Z.abs (Time.hoursPart d) < 24 /\ Z.abs (Time.minutesPart d) < 60 /\
   Z.abs (Time.secondsPart d) < 60 /\ Z.abs (Time.millisPart d) < 1000)%Z /\
  (0 <= Time.millis d ->
   0 <= Time.daysPart d /\ 0 <= Time.hoursPart d /\ 0 <= Time.minutesPart d /\
   0 <= Time.secondsPart d /\ 0 <= Time.millisPart d)%Z /\
  (Time.millis d <= 0 ->
   Time.daysPart d <= 0 /\ Time.hoursPart d <= 0 /\ Time.minutesPart d <= 0 /\
   Time.secondsPart d <= 0 /\ Time.millisPart d <= 0)%Z.
Proof.
  intros _. destruct d as [m]. unfold_parts. cbn [Time.millis].
  destruct (Z.ltb_spec m 0) as [Hneg|Hpos].
  - rewrite !Z.div_1_r. Z.div_mod_to_equations. lia.
  - rewrite !Z.div_1_r. Z.div_mod_to_equations. lia.
Qed.

Lemma Duration_parts_witness :
  safe (Time.millis (Time.of_millis (-93784005))) /\
  (Time.daysPart (Time.of_millis (-93784005)) = -1 /\
   Time.hoursPart (Time.of_millis (-93784005)) = -2 /\
   Time.minutesPart (Time.of_millis (-93784005)) = -3 /\
   Time.secondsPart (Time.of_millis (-93784005)) = -4 /\
   Time.millisPart (Time.of_millis (-93784005)) = -5)%Z /\
  (Time.millis (Time.of_millis (-93784005)) =
     Time.daysPart (Time.of_millis (-93784005)) * 86400000
     + Time.hoursPart (Time.of_millis (-93784005)) * 3600000
     + Time.minutesPart (Time.of_millis (-93784005)) * 60000
     + Time.secondsPart (Time.of_millis (-93784005)) * 1000
     + Time.millisPart (Time.of_millis (-93784005)))%Z.
Proof.
  assert (Hsafe : safe (Time.millis (Time.of_millis (-93784005))))
    by (unfold safe, MAX_SAFE_INTEGER; simpl; lia).
  split; [exact Hsafe|]. split; [by vm_compute|].
  exact (proj1 (Duration_parts (Time.of_millis (-93784005)) Hsafe)).
Defined.

(** X21.  The total getters agree with the parts: days is daysPart,
    hours is 24 days + hoursPart, minutes is 60 hours + minutesPart,
    seconds is 60 minutes + secondsPart, and the length is
    1000 seconds + millisPart. *)
Theorem Duration_totals d :
  safe (Time.millis d) ->
  (Time.days d = Time.daysPart d /\
   Time.hours d = 24 * Time.days d + Time.hoursPart d /\
   Time.minutes d = 60 * Time.hours d + Time.minutesPart d /\
   Time.seconds d = 60 * Time.minutes d + Time.secondsPart d /\
   Time.millis d = 1000 * Time.seconds d + Time.millisPart d)%Z.
Proof.
  intros _. destruct d as [m]. unfold_parts. cbn [Time.millis].
  rewrite !Z.quot_div by lia. change (Z.sgn 86400000) with 1%Z.
  change (Z.sgn 3600000) with 1%Z. change (Z.sgn 60000) with 1%Z.
  change (Z.sgn 1000) with 1%Z. change (Z.abs 86400000) with 86400000%Z.
  change (Z.abs 3600000) with 3600000%Z. change (Z.abs 60000) with 60000%Z.
  change (Z.abs 1000) with 1000%Z.
  destruct (Z.ltb_spec m 0) as [Hneg|Hpos].
  - rewrite (Z.sgn_neg m), (Z.abs_neq m) by lia. rewrite !Z.div_1_r.
    Z.div_mod_to_equations. lia.
  - rewrite (Z.abs_eq m) by lia. rewrite !Z.div_1_r.
    destruct (Z.sgn_spec m) as [[? ->]|[[? ->]|[? ->]]]; try lia;
      Z.div_mod_to_equations; lia.
Qed.

Lemma Duration_totals_witness :
  safe (Time.millis (Time.of_millis 93784005)) /\
  (Time.hours (Time.of_millis 93784005) = 26 /\
   Time.hours (Time.of_millis 93784005) =
     24 * Time.days (Time.of_millis 93784005) + Time.hoursPart (Time.of_millis 93784005))%Z.
Proof.
  assert (Hsafe : safe (Time.millis (Time.of_millis 93784005)))
    by (unfold safe, MAX_SAFE_INTEGER; simpl; lia).
  split; [exact Hsafe|]. split; [by vm_compute|].
  exact (proj1 (proj2 (Duration_totals (Time.of_millis 93784005) Hsafe))).
Defined.

(** X22.  Negating a duration negates each of its parts, and the parts
    of its absolute value are the absolute values of its parts. *)
Theorem Duration_negated_parts d :
  safe (Time.millis d) ->
  (Time.daysPart (Time.negated d) = - Time.daysPart d /\
   Time.hoursPart (Time.negated d) = - Time.hoursPart d /\
   Time.minutesPart (Time.negated d) = - Time.minutesPart d /\
   Time.secondsPart (Time.negated d) = - Time.secondsPart d /\
   Time.millisPart (Time.negated d) = - Time.millisPart d)%Z /\
  (Time.daysPart (Time.absolutized d) = Z.abs (Time.daysPart d) /\
   Time.hoursPart (Time.absolutized d) = Z.abs (Time.hoursPart d) /\
   Time.minutesPart (Time.absolutized d) = Z.abs (Time.minutesPart d) /\
   Time.secondsPart (Time.absolutized d) = Z.abs (Time.secondsPart d) /\
   Time.millisPart (Time.absolutized d) = Z.abs (Time.millisPart d))%Z.
Proof.
  intros _. destruct d as [m].
  unfold Time.absolutized, Time.negated, Time.of_millis. unfold_parts. cbn [Time.millis].
  destruct (Z.ltb_spec m 0) as [Hneg|Hpos].
  - rewrite (Z.abs_neq m) by lia.
    destruct (Z.ltb_spec (- m) 0) as [?|_]; [lia|].
    rewrite !Z.div_1_r. split; split_and!; Z.div_mod_to_equations; lia.
  - rewrite (Z.abs_eq m) by lia.
    destruct (Z.ltb_spec m 0) as [?|_]; [lia|].
    destruct (Z.ltb_spec (- m) 0) as [Hlt|Hge].
    + rewrite !Z.div_1_r. split; split_and!; Z.div_mod_to_equations; lia.
    + assert (m = 0%Z) as -> by lia. by vm_compute.
Qed.

Lemma Duration_negated_parts_witness :
  safe (Time.millis (Time.of_millis 93784005)) /\
  (Time.hoursPart (Time.negated (Time.of_millis 93784005))
   = - Time.hoursPart (Time.of_millis 93784005))%Z.
Proof.
  assert (Hsafe : safe (Time.millis (Time.of_millis 93784005)))
    by (unfold safe, MAX_SAFE_INTEGER; simpl; lia).
  split; [exact Hsafe|].
  exact (proj1 (proj2 (proj1 (Duration_negated_parts (Time.of_millis 93784005) Hsafe)))).
Defined.

(** ** Clock and StopWatch *)

Lemma Clock_add_all_invalid offsets :
  Time.date (Time.add_all {| Time.date := None |} offsets) = None.
Proof. induction offsets as [|offset offsets IH]; [done|exact IH]. Qed.

Lemma Clock_add_all_date offsets : forall t0 t1,
  Time.date (Time.add_all {| Time.date := Some t0 |} offsets) = Some t1 ->
  t1 = (t0 + foldr Z.add 0 offsets)%Z.
Proof.
  induction offsets as [|offset offsets IH]; intros t0 t1.
  - simpl. intros [= <-]. lia.
  - unfold Time.add_all. cbn [fold_left foldr]. unfold Time.add at 2.
    cbn [Time.date Time.millis Time.of_millis]. unfold Time.Date_.
    destruct (_ <=? _)%Z.
    + intros Ht1. apply IH in Ht1. lia.
    + intros Ht1. exfalso.
      pose proof (Clock_add_all_invalid offsets) as Hnone.
      unfold Time.add_all in Hnone. congruence.
Qed.


(** The test of the repository: a watch on the fixed clock, started,
    the clock advanced by 1600, stopped. *)
Example StopWatch_measures_time :
  Time.getTotalTimeMillis
    (Time.stop (Time.start Time.StopWatch_new Time.fixed) (Time.add Time.fixed 1600))
  = Some 1600%Z.
Proof. reflexivity. Qed.

(** ** Store *)

Lemma Store_unsubscribe_all_fields s ls :
  Store_.reducer (fold_left Store_.unsubscribe ls s) = Store_.reducer s /\
  Store_.state (fold_left Store_.unsubscribe ls s) = Store_.state s.
Proof.
  revert s. induction ls as [|l ls IH]; intros s; [done|]. simpl.
  by destruct (IH (Store_.unsubscribe s l)) as [-> ->].
Qed.

Lemma Store_emitChange_fields behaviour round : forall s called,
  Store_.reducer (Store_.emitChange behaviour round s called).1 = Store_.reducer s /\
  Store_.state (Store_.emitChange behaviour round s called).1 = Store_.state s.
Proof.
  induction round as [|l round IH]; intros s called; [done|]. simpl.
  destruct (existsb _ _); [|apply IH].
  destruct (IH (fold_left Store_.unsubscribe (behaviour l) s) (called ++ [l])) as [-> ->].
  apply Store_unsubscribe_all_fields.
Qed.

Lemma Store_dispatch_fields behaviour s action :
  Store_.reducer (Store_.dispatch behaviour s action).1 = Store_.reducer s /\
  Store_.state (Store_.dispatch behaviour s action).1
    = Store_.reducer s (Store_.state s) action.
Proof.
  unfold Store_.dispatch. cbn [Store_.state Store_.listeners].
  destruct (negb _); [|done].
  apply (Store_emitChange_fields behaviour (Store_.listeners s)
           {| Store_.reducer := Store_.reducer s;
              Store_.state := Store_.reducer s (Store_.state s) action;
              Store_.listeners := Store_.listeners s |} []).
Qed.


Lemma Store_emitChange_passive round : forall s called,
  (forall l, l ∈ round -> l ∈ Store_.listeners s) ->
  Store_.emitChange Store_.passive round s called = (s, called ++ round).
Proof.
  induction round as [|l round IH]; intros s called Hin.
  - by rewrite app_nil_r.
  - cbn [Store_.emitChange].
    assert (existsb (Nat.eqb l) (Store_.listeners s) = true) as ->.
    { apply existsb_exists. exists l. split; [|apply Nat.eqb_refl].
      apply list_elem_of_In, Hin. by left. }
    cbn [Store_.passive fold_left]. rewrite IH, <- app_assoc; [done|].
    intros l' Hl'. apply Hin. by right.
Qed.


Lemma Store_emitChange_unsubscribed behaviour b round : forall s called,
  (forall l, l ∈ round -> behaviour l = []) ->
  b ∉ Store_.listeners s ->
  (forall l, l ∈ round -> l <> b -> l ∈ Store_.listeners s) ->
  Store_.emitChange behaviour round s called =
    (s, called ++ List.filter (fun l => negb (l =? b)) round).
Proof.
  induction round as [|l round IH]; intros s called Hpassive Hb Hin.
  - simpl. by rewrite app_nil_r.
  - cbn [Store_.emitChange List.filter].
    assert (Hround : forall l', l' ∈ round -> behaviour l' = [])
      by (intros l' Hl'; apply Hpassive; by right).
    destruct (Nat.eqb_spec l b) as [->|Hne]; cbn [negb].
    + assert (existsb (Nat.eqb b) (Store_.listeners s) = false) as ->.
      { apply not_true_is_false. intros (x & Hx & <-%Nat.eqb_eq)%existsb_exists.
        by apply Hb, list_elem_of_In. }
      apply IH; [done|done|]. intros l' Hl'. apply Hin. by right.
    + assert (existsb (Nat.eqb l) (Store_.listeners s) = true) as ->.
      { apply existsb_exists. exists l. split; [|apply Nat.eqb_refl].
        apply list_elem_of_In, Hin; [by left|done]. }
      rewrite (Hpassive l) by (by left). cbn [fold_left].
      rewrite IH, <- app_assoc; [done|done|done|].
      intros l' Hl'. apply Hin. by right.
Qed.

(** X26.  A listener that a listener called earlier in the same round
    has unsubscribed is not called any more: when the first listener
    unsubscribes [b] and the other listeners leave the subscriptions
    alone, a dispatch that changes the state calls the first listener
    and then the others in order, except [b], and [b] is subscribed no
    longer. *)
Theorem Store_dispatch_skips_unsubscribed behaviour s action a b rest :
  Store_.listeners s = a :: rest ->
  a <> b -> behaviour a = [b] -> (forall l, l ∈ rest -> behaviour l = []) ->
  Store_.strict_equal (Store_.state s) (Store_.reducer s (Store_.state s) action) = false ->
  Store_.dispatch behaviour s action =
    ({| Store_.reducer := Store_.reducer s;
        Store_.state := Store_.reducer s (Store_.state s) action;
        Store_.listeners := a :: List.filter (fun l => negb (l =? b)) rest |},
     a :: List.filter (fun l => negb (l =? b)) rest).
Proof.
  intros Hls Hab Ha Hrest Hchanged.
  unfold Store_.dispatch. cbn [Store_.state Store_.listeners].
  rewrite Hchanged, Hls. cbn [negb Store_.emitChange Store_.listeners existsb].
  rewrite Nat.eqb_refl. cbn [orb]. rewrite Ha. cbn [fold_left].
  unfold Store_.unsubscribe at 1. cbn [Store_.reducer Store_.state Store_.listeners List.filter].
  destruct (Nat.eqb_spec a b) as [?|_]; [done|]. cbn [negb].
  rewrite (Store_emitChange_unsubscribed behaviour b rest); [done|done| |].
  - cbn [Store_.listeners]. intros [?|Hin]%elem_of_cons; [done|].
    apply list_elem_of_In, filter_In in Hin as [_ Hin].
    by rewrite Nat.eqb_refl in Hin.
  - cbn [Store_.listeners]. intros l Hl Hlb. right.
    apply list_elem_of_In, filter_In. split; [by apply list_elem_of_In|].
    by destruct (Nat.eqb_spec l b).
Qed.

Lemma Store_dispatch_skips_unsubscribed_witness :
  let reducer := fun (state : value) (action : list (string * value)) =>
                   default VUndefined (lookup_prop "payload" action) in
  let s := {| Store_.reducer := reducer; Store_.state := VNumber (Num "1");
              Store_.listeners := [0; 1; 2] |} in
  let behaviour := fun l => if l =? 0 then [1] else [] in
  Store_.listeners s = [0; 1; 2] /\
  (Store_.dispatch behaviour s [("payload", VNumber (Num "2"))]).2 = [0; 2].
Proof.
  intros reducer s behaviour. split; [reflexivity|].
  assert (Hrest : forall l, l ∈ [1; 2] -> behaviour l = []).
  { intros l [->|[->|[]%not_elem_of_nil]%elem_of_cons]%elem_of_cons; reflexivity. }
  assert (Hab : 0 <> 1) by discriminate.
  exact (f_equal snd
           (Store_dispatch_skips_unsubscribed behaviour s [("payload", VNumber (Num "2"))]
              0 1 [1; 2] eq_refl Hab eq_refl Hrest eq_refl)).
Defined.

(** ** Logging *)

Lemma Logging_isLoggable_effective logger level :
  Logging.isLoggable logger level =
    match Logging.effective_level logger with
    | Some threshold => Return (Logging.at_least level threshold)
    | None => Throw TypeError
    end.
Proof.
  induction logger as [name [threshold|] handlers|name [threshold|] handlers parent IH];
    try reflexivity.
  exact IH.
Qed.

(** X27.  Whether a logger logs a level is decided by the first level
    set on the way from the logger up its parents: levels of at least
    that value are logged and no others, so a logger that logs a level
    logs every level of a higher value; when no level is set on the
    way, the question raises a TypeError.  A logger made by the
    LogManager, which has no level of its own, so logs exactly the
    levels of at least the value of INFO, 800. *)
Theorem Logger_isLoggable_threshold logger level :
  (forall threshold, Logging.effective_level logger = Some threshold ->
     Logging.isLoggable logger level
       = Return (bool_decide (Logging.value threshold <= Logging.value level)%Z)) /\
  (Logging.effective_level logger = None ->
     Logging.isLoggable logger level = Throw TypeError) /\
  (forall higher,
     Logging.isLoggable logger level = Return true ->
     (Logging.value level <= Logging.value higher)%Z ->
     Logging.isLoggable logger higher = Return true) /\
  (forall handler name,
     Logging.isLoggable (Logging.createLogger handler name) level
       = Return (bool_decide (800 <= Logging.value level)%Z)).
Proof.
  assert (Hdecide : forall threshold,
            Logging.at_least level threshold
              = bool_decide (Logging.value threshold <= Logging.value level)%Z).
  { intros threshold. unfold Logging.at_least.
    destruct (Z.leb_spec (Logging.value threshold) (Logging.value level));
      [by rewrite bool_decide_eq_true_2|by rewrite bool_decide_eq_false_2 by lia]. }
  rewrite !Logging_isLoggable_effective. split_and!; [| | |intros handler name; simpl; f_equal; apply (Hdecide Logging.INFO)].
  - intros threshold ->. f_equal. apply Hdecide.
  - by intros ->.
  - intros higher. rewrite Logging_isLoggable_effective.
    destruct (Logging.effective_level logger) as [threshold|]; [|done].
    unfold Logging.at_least. intros [= Hle%Z.leb_le] Hhigher. f_equal.
    apply Z.leb_le. lia.
Qed.
